(** * cloudabi-run and the argdata sequence iterator

    A shallow embedding of [src/cloudabi-run/cloudabi-run.c] (the YAML
    driven launcher), of [src/libcloudabi/argdata_seq_next.c] (the pull
    operation of sequence iterators) and of [src/libemulator/random.c]
    (random numbers without modulo bias), with the properties the design
    document states about them and further properties that the code
    shows.

    Conventions.  The target is an LP64 platform: [int] has 32 bits,
    [unsigned long], [size_t], [intmax_t] and [uintmax_t] have 64.  Machine
    integers are [Z] with the wrap-around written out, and plain [char] is
    signed, as the option loop of [main] needs.  Memory allocation
    ([malloc], [realloc], the [argdata_create_*] constructors) is taken to
    succeed.  C strings are [string]s that may hold the NUL character; the
    functions of <string.h> and <stdlib.h> see them up to their first NUL. *)

From Stdlib Require Import ZArith List String Ascii Bool Lia.
From Stdlib Require Import DecimalString.
Import ListNotations.

Local Open Scope string_scope.
Local Open Scope Z_scope.

(** ** The C library *)

Module LibC.

Definition INT_MAX : Z := 2147483647.
Definition ULONG_MAX : Z := 18446744073709551615.
Definition INTMAX_MAX : Z := 9223372036854775807.
Definition INTMAX_MIN : Z := -9223372036854775808.
Definition UINTMAX_MAX : Z := 18446744073709551615.
Definition SIZE_MAX : Z := 18446744073709551615.

Definition EINVAL : Z := 22.
Definition ERANGE : Z := 34.

Definition STDOUT_FILENO : Z := 1.

(** Arithmetic on [size_t] and on the 64-bit unsigned types. *)
Definition wrap64 (z : Z) : Z := z mod 2 ^ 64.

Definition NUL : ascii := "000"%char.

(** The bytes a C string function sees: everything before the first NUL. *)
Fixpoint cstr (s : string) : string :=
  match s with
  | EmptyString => EmptyString
  | String c r => if Ascii.eqb c NUL then EmptyString else String c (cstr r)
  end.

(** Whether a NUL is among the bytes of [s]. *)
Fixpoint has_nul (s : string) : bool :=
  match s with
  | EmptyString => false
  | String c r => Ascii.eqb c NUL || has_nul r
  end.

(** [strcmp a b == 0]. *)
Definition strcmp_eq (a b : string) : bool := String.eqb (cstr a) (cstr b).

(** [s[i]], the terminating NUL included. *)
Definition char_at (s : string) (i : nat) : ascii :=
  match String.get i s with
  | Some c => c
  | None => NUL
  end.

(** [s + n]. *)
Fixpoint advance (n : nat) (s : string) : string :=
  match n, s with
  | O, _ => s
  | S n', String _ r => advance n' r
  | S _, EmptyString => EmptyString
  end.

(** [isspace] in the C locale. *)
Definition isspace (c : ascii) : bool :=
  let n := nat_of_ascii c in
  (Nat.eqb n 32 || (Nat.leb 9 n && Nat.leb n 13))%bool.

(** The value of a digit of [strtol] and friends: 0-9, then letters of
    either case for 10-35. *)
Definition digit_of (c : ascii) : option Z :=
  let n := Z.of_nat (nat_of_ascii c) in
  if (48 <=? n) && (n <=? 57) then Some (n - 48)
  else if (97 <=? n) && (n <=? 122) then Some (n - 97 + 10)
  else if (65 <=? n) && (n <=? 90) then Some (n - 65 + 10)
  else None.

Definition digit_in (base : Z) (c : ascii) : option Z :=
  match digit_of c with
  | Some d => if d <? base then Some d else None
  | None => None
  end.

Fixpoint skip_space (s : string) : nat :=
  match s with
  | String c r => if isspace c then S (skip_space r) else O
  | EmptyString => O
  end.

(** The longest run of digits of [base] at the head of [s]: its exact value
    (unbounded) and its length. *)
Fixpoint scan_digits (base : Z) (s : string) (acc : Z) : Z * nat :=
  match s with
  | String c r =>
      match digit_in base c with
      | Some d => let '(v, n) := scan_digits base r (acc * base + d) in (v, S n)
      | None => (acc, O)
      end
  | EmptyString => (acc, O)
  end.

(** The subject sequence of ISO C 7.22.1.4: white space, an optional sign,
    for base 16 an optional [0x] or [0X] (when a hexadecimal digit follows
    it), then digits. *)
Record subject := {
  sub_neg : bool;      (* a minus sign was read *)
  sub_mag : Z;         (* the exact magnitude of the digits *)
  sub_digits : nat;    (* how many digits were read *)
  sub_end : nat        (* the offset just past the last digit *)
}.

Definition has_hex_prefix (s : string) : bool :=
  match s with
  | String c0 (String c1 (String c2 _)) =>
      Ascii.eqb c0 "0" && (Ascii.eqb c1 "x" || Ascii.eqb c1 "X")
      && match digit_in 16 c2 with Some _ => true | None => false end
  | _ => false
  end.

Definition scan_subject (s : string) (base : Z) : subject :=
  let ws := skip_space s in
  let s1 := advance ws s in
  let '(neg, sg) :=
    match s1 with
    | String c _ =>
        if Ascii.eqb c "-" then (true, 1%nat)
        else if Ascii.eqb c "+" then (false, 1%nat)
        else (false, O)
    | EmptyString => (false, O)
    end in
  let s2 := advance sg s1 in
  let px := if (base =? 16) && has_hex_prefix s2 then 2%nat else O in
  let s3 := advance px s2 in
  let '(mag, n) := scan_digits base s3 0 in
  {| sub_neg := neg; sub_mag := mag; sub_digits := n;
     sub_end := (ws + sg + px + n)%nat |}.

(** What a conversion leaves behind: the value returned, [endptr - nptr],
    and [errno] (cleared by the caller before the call). *)
Record conversion := {
  conv_value : Z;
  conv_end : nat;
  conv_errno : Z
}.

Section Conversions.
(** ISO C leaves [errno] alone when no conversion is performed; POSIX
    lets an implementation set EINVAL there (the BSDs do, glibc does
    not).  [noconv_errno] is what this C library stores: 0 or EINVAL. *)
Variable noconv_errno : Z.

Definition no_conversion : conversion :=
  {| conv_value := 0; conv_end := O; conv_errno := noconv_errno |}.

(** [strtoumax(s, &endptr, base)]; [strtoul] is the same function on
    LP64. *)
Definition strtoumax (s : string) (base : Z) : conversion :=
  let sub := scan_subject s base in
  match sub_digits sub with
  | O => no_conversion
  | S _ =>
      if UINTMAX_MAX <? sub_mag sub then
        {| conv_value := UINTMAX_MAX; conv_end := sub_end sub;
           conv_errno := ERANGE |}
      else
        {| conv_value :=
             if sub_neg sub then wrap64 (- sub_mag sub) else sub_mag sub;
           conv_end := sub_end sub; conv_errno := 0 |}
  end.

Definition strtoul := strtoumax.

(** [strtoimax(s, &endptr, base)]. *)
Definition strtoimax (s : string) (base : Z) : conversion :=
  let sub := scan_subject s base in
  match sub_digits sub with
  | O => no_conversion
  | S _ =>
      if sub_neg sub then
        if - sub_mag sub <? INTMAX_MIN then
          {| conv_value := INTMAX_MIN; conv_end := sub_end sub;
             conv_errno := ERANGE |}
        else
          {| conv_value := - sub_mag sub; conv_end := sub_end sub;
             conv_errno := 0 |}
      else
        if INTMAX_MAX <? sub_mag sub then
          {| conv_value := INTMAX_MAX; conv_end := sub_end sub;
             conv_errno := ERANGE |}
        else
          {| conv_value := sub_mag sub; conv_end := sub_end sub;
             conv_errno := 0 |}
  end.
End Conversions.

(** [strchr(s, c)] for a [c] other than NUL: the offset of the first [c],
    or [None] for a null pointer. *)
Fixpoint strchr (s : string) (c : ascii) : option nat :=
  match s with
  | EmptyString => None
  | String d r =>
      if Ascii.eqb d NUL then None
      else if Ascii.eqb d c then Some O
      else option_map S (strchr r c)
  end.

(** [strstr(s, needle)] for a non-empty [needle] free of NUL. *)
Fixpoint strstr (s needle : string) : option nat :=
  match s with
  | EmptyString => None
  | String d r =>
      if Ascii.eqb d NUL then None
      else if String.prefix needle (cstr s) then Some O
      else option_map S (strstr r needle)
  end.

(** [strndup(s, n)]. *)
Definition strndup (s : string) (n : nat) : string :=
  String.substring 0 n (cstr s).

Definition newline : string := String (ascii_of_nat 10) EmptyString.
Definition dquote : string := String (ascii_of_nat 34) EmptyString.

(** The text of [%d], [%zu] and [%lu] for a value in range. *)
Definition decimal (z : Z) : string := NilZero.string_of_int (Z.to_int z).

End LibC.

Import LibC.

(** ** The tokenizer's events (libyaml) *)

Inductive yaml_event_type_t :=
| YAML_NO_EVENT
| YAML_STREAM_START_EVENT
| YAML_STREAM_END_EVENT
| YAML_DOCUMENT_START_EVENT
| YAML_DOCUMENT_END_EVENT
| YAML_ALIAS_EVENT
| YAML_SCALAR_EVENT
| YAML_SEQUENCE_START_EVENT
| YAML_SEQUENCE_END_EVENT
| YAML_MAPPING_START_EVENT
| YAML_MAPPING_END_EVENT.

(** The numbering of the enumeration, as [%d] prints it. *)
Definition event_type_number (t : yaml_event_type_t) : Z :=
  match t with
  | YAML_NO_EVENT => 0
  | YAML_STREAM_START_EVENT => 1
  | YAML_STREAM_END_EVENT => 2
  | YAML_DOCUMENT_START_EVENT => 3
  | YAML_DOCUMENT_END_EVENT => 4
  | YAML_ALIAS_EVENT => 5
  | YAML_SCALAR_EVENT => 6
  | YAML_SEQUENCE_START_EVENT => 7
  | YAML_SEQUENCE_END_EVENT => 8
  | YAML_MAPPING_START_EVENT => 9
  | YAML_MAPPING_END_EVENT => 10
  end.

Record yaml_mark_t := { line : Z; column : Z }.

(** An event.  [tag] is the tag of a scalar, sequence start or mapping start
    ([None] for a null pointer); [scalar_value] holds the [scalar_length]
    bytes of a scalar, which libyaml follows by a NUL. *)
Record yaml_event_t := {
  event_type : yaml_event_type_t;
  scalar_tag : option string;
  scalar_value : string;
  start_mark : yaml_mark_t
}.

Definition scalar_length (event : yaml_event_t) : nat :=
  String.length (scalar_value event).

(** What one call of [yaml_parser_parse] does: it produces an event, or
    fails and leaves the position of the failure in the parser's mark. *)
Inductive yaml_step :=
| Produce (event : yaml_event_t)
| Fail (mark : yaml_mark_t).

(** The parser, as the steps it still has to make.  With none left it hands
    out the empty event, which is what libyaml does after the end of the
    stream. *)
Definition yaml_parser_t := list yaml_step.

Definition empty_event : yaml_event_t :=
  {| event_type := YAML_NO_EVENT; scalar_tag := None; scalar_value := EmptyString;
     start_mark := {| line := 0; column := 0 |} |}.

Definition scalar_event (tag : option string) (value : string)
    (mark : yaml_mark_t) : yaml_event_t :=
  {| event_type := YAML_SCALAR_EVENT; scalar_tag := tag;
     scalar_value := value; start_mark := mark |}.

Definition YAML_NULL_TAG := "tag:yaml.org,2002:null".
Definition YAML_BOOL_TAG := "tag:yaml.org,2002:bool".
Definition YAML_STR_TAG := "tag:yaml.org,2002:str".
Definition YAML_INT_TAG := "tag:yaml.org,2002:int".
Definition YAML_SEQ_TAG := "tag:yaml.org,2002:seq".
Definition YAML_MAP_TAG := "tag:yaml.org,2002:map".
Definition TAG_PREFIX := "tag:nuxi.nl,2015:cloudabi/".

(** ** Argument data *)

(** Modelled from the spec: the declaration of [argdata_t] and the
    [argdata_create_*] constructors are in libcloudabi's headers, which are
    not among the sources.  The nodes are the closed variant set of the data
    model: null, booleans, integers, strings (raw bytes), descriptors, maps
    as parallel arrays of key and value pointers, sequences, and buffers of
    not yet decoded bytes.  A value pointer of a map is [None] when the code
    stored a null pointer there.  The arrays are lists here and carry their
    own entry count. *)
#[warnings="-register-all"]
Inductive argdata_t :=
| AD_NULL
| AD_BOOL (b : bool)
| AD_INT (v : Z)
| AD_STR (s : string)
| AD_FD (fd : Z)
| AD_MAP (keys : list argdata_t) (values : list (option argdata_t))
| AD_SEQ (entries : list argdata_t)
| AD_BUFFER (buffer : list Byte.byte).

Definition argdata_null := AD_NULL.
Definition argdata_true := AD_BOOL true.
Definition argdata_false := AD_BOOL false.
Definition argdata_create_fd (fd : Z) := AD_FD fd.
Definition argdata_create_int (v : Z) := AD_INT v.
Definition argdata_create_str (s : string) (len : nat) :=
  AD_STR (String.substring 0 len s).
Definition argdata_create_map keys values := AD_MAP keys values.
Definition argdata_create_seq entries := AD_SEQ entries.

(** ** The operating system and the other collaborators *)

Inductive sock_type := SOCK_STREAM | SOCK_DGRAM | SOCK_SEQPACKET.

Definition AF_UNSPEC : Z := 0.
Definition AF_UNIX : Z := 1.

Inductive open_flag := O_RDONLY | O_EXEC.

Record sockaddr := { sa_family : Z; sa_data : string }.
Record addrinfo := { ai_addr : sockaddr; ai_addrlen : Z }.
Record addrinfo_hint := { ai_family : Z; ai_socktype : sock_type }.

(** Everything the launcher calls and does not define: system calls, the
    resolver, the C library's messages, [getopt], libcloudabi and the
    emulator.  [OS] is the state of the machine; a call that fails returns
    -1 (or a null pointer) together with the [errno] it leaves.

    [getopt_scan] is what the calls of [getopt(argc, argv, "e")] make of
    the arguments after [argv[0]]: the option characters that the
    successive calls go through before the call that returns -1, and the
    operands left at [argv + optind] then.  Whether operands may precede
    options is the C library's choice: POSIX stops at the first operand,
    glibc moves the operands behind the options. *)
Class Platform (OS : Type) := {
  noconv_errno : Z;
  EOPNOTSUPP : Z;
  sun_path_size : nat;
  strerror : Z -> string;
  gai_strerror : Z -> string;
  getopt_scan : list string -> list ascii * list string;
  getopt_message : string -> ascii -> string;
  sys_fstat : OS -> Z -> Z * Z;
  sys_open : OS -> string -> open_flag -> Z * Z * OS;
  sys_getaddrinfo :
    OS -> string -> string -> addrinfo_hint -> Z * list addrinfo;
  sys_socket : OS -> Z -> sock_type -> Z -> Z * Z * OS;
  sys_setsockopt : OS -> Z -> OS;
  sys_bind : OS -> Z -> sockaddr -> Z -> Z * Z * OS;
  sys_listen : OS -> Z -> Z -> Z * Z * OS;
  sys_malloc : OS -> Z -> bool;
  argdata_get_str_c : argdata_t -> Z * string;
  argdata_get_buffer_length : argdata_t -> Z * Z;
  argdata_get_buffer : argdata_t -> list Byte.byte * list Z;
  fd_table_insert_existing : OS -> Z -> Z -> bool * Z * OS;
  emulate : OS -> Z -> list Byte.byte -> Z -> option Z;
  program_exec : OS -> Z -> argdata_t -> option Z
}.

(** The calls that reach the operating system, in the order they are made. *)
Inductive call :=
| Call_fstat (fd : Z)
| Call_open (path : string) (oflag : open_flag)
| Call_getaddrinfo (hostname servname : string) (hint : addrinfo_hint)
| Call_socket (domain : Z) (socktype : sock_type) (protocol : Z)
| Call_setsockopt (fd : Z)
| Call_bind (fd : Z) (sa : sockaddr) (sal : Z)
| Call_listen (fd backlog : Z).

(** ** cloudabi-run.c *)

Section Launcher.
Context {OS : Type} {P : Platform OS}.

(** The state the launcher runs in: what the tokenizer still has to
    deliver, the machine, what was written to standard error, and the
    calls made so far. *)
Record world := {
  w_parser : yaml_parser_t;
  w_os : OS;
  w_stderr : string;
  w_calls : list call
}.

(** How a piece of the launcher ends: it returns, it calls [exit], it does
    something the C standard leaves undefined (a null pointer is
    dereferenced), or the recursion bound of the model is reached. *)
Inductive outcome (A : Type) :=
| Ok (a : A) (w : world)
| Exit (status : Z) (w : world)
| Undefined
| OutOfFuel.
Arguments Ok {A} a w.
Arguments Exit {A} status w.
Arguments Undefined {A}.
Arguments OutOfFuel {A}.

Definition M (A : Type) := world -> outcome A.

Definition ret {A} (a : A) : M A := fun w => Ok a w.

Definition bind {A B} (m : M A) (k : A -> M B) : M B :=
  fun w =>
    match m w with
    | Ok a w' => k a w'
    | Exit status w' => Exit status w'
    | Undefined => Undefined
    | OutOfFuel => OutOfFuel
    end.

Notation "x <- m ;; k" := (bind m (fun x => k))
  (at level 61, m at next level, right associativity).
Notation "m ;;; k" := (bind m (fun _ => k))
  (at level 61, right associativity).

Definition exit {A} (status : Z) : M A := fun w => Exit status w.
Definition undefined {A} : M A := fun _ => Undefined.
Definition out_of_fuel {A} : M A := fun _ => OutOfFuel.

(** The world after a write to standard error, after a call, with another
    machine state, and with the parser advanced. *)
Definition printed (w : world) (s : string) : world :=
  {| w_parser := w_parser w; w_os := w_os w;
     w_stderr := w_stderr w ++ s; w_calls := w_calls w |}.

Definition called (w : world) (c : call) : world :=
  {| w_parser := w_parser w; w_os := w_os w;
     w_stderr := w_stderr w; w_calls := (w_calls w ++ [c])%list |}.

Definition with_os (w : world) (os : OS) : world :=
  {| w_parser := w_parser w; w_os := os;
     w_stderr := w_stderr w; w_calls := w_calls w |}.

Definition with_parser (w : world) (parser : yaml_parser_t) : world :=
  {| w_parser := parser; w_os := w_os w;
     w_stderr := w_stderr w; w_calls := w_calls w |}.

(** [fputs(s, stderr)] and the other writes to standard error. *)
Definition eprint (s : string) : M unit :=
  fun w => Ok tt (printed w s).

(** A call that leaves the machine as it is, and one that changes it. *)
Definition observe {A} (c : call) (f : OS -> A) : M A :=
  fun w => Ok (f (w_os w)) (called w c).

Definition syscall {A} (c : call) (f : OS -> A * OS) : M A :=
  fun w =>
    let '(a, os') := f (w_os w) in
    Ok a (with_os (called w c) os').

Definition fstat (fd : Z) : M (Z * Z) :=
  observe (Call_fstat fd) (fun os => sys_fstat os fd).
Definition open (path : string) (oflag : open_flag) : M (Z * Z) :=
  syscall (Call_open path oflag) (fun os => sys_open os path oflag).
Definition getaddrinfo (hostname servname : string) (hint : addrinfo_hint)
  : M (Z * list addrinfo) :=
  observe (Call_getaddrinfo hostname servname hint)
          (fun os => sys_getaddrinfo os hostname servname hint).
Definition socket (domain : Z) (ty : sock_type) (protocol : Z) : M (Z * Z) :=
  syscall (Call_socket domain ty protocol)
          (fun os => sys_socket os domain ty protocol).
Definition setsockopt (fd : Z) : M unit :=
  syscall (Call_setsockopt fd) (fun os => (tt, sys_setsockopt os fd)).
Definition bind_ (fd : Z) (sa : sockaddr) (sal : Z) : M (Z * Z) :=
  syscall (Call_bind fd sa sal) (fun os => sys_bind os fd sa sal).
Definition listen (fd backlog : Z) : M (Z * Z) :=
  syscall (Call_listen fd backlog) (fun os => sys_listen os fd backlog).

(** [yaml_parser_parse], repeated while it delivers the end of a document
    or of the stream: the event that ends the loop of [get_event] and the
    parser after it, or the mark of a failure. *)
Fixpoint next_event (parser : yaml_parser_t)
  : yaml_event_t * yaml_parser_t + yaml_mark_t :=
  match parser with
  | [] => inl (empty_event, [])
  | Fail mark :: _ => inr mark
  | Produce event :: rest =>
      match event_type event with
      | YAML_DOCUMENT_END_EVENT | YAML_STREAM_END_EVENT => next_event rest
      | _ => inl (event, rest)
      end
  end.

Definition position (mark : yaml_mark_t) : string :=
  "stdin:" ++ decimal (wrap64 (line mark + 1)) ++ ":"
  ++ decimal (wrap64 (column mark + 1)) ++ ": ".

(** Obtains the next event from the YAML input stream. *)
Definition get_event : M yaml_event_t :=
  fun w =>
    match next_event (w_parser w) with
    | inr mark =>
        (eprint (position mark ++ "Parse error" ++ newline) ;;;
         exit 127) w
    | inl (event, rest) => Ok event (with_parser w rest)
    end.

(** Terminates execution due to a parse error.  [message] is the text the
    format and its arguments expand to. *)
Definition exit_parse_error {A} (event : yaml_event_t) (message : string)
  : M A :=
  eprint (position (start_mark event)) ;;;
  eprint message ;;;
  eprint newline ;;;
  exit 127.

(** The world [exit_parse_error] leaves. *)
Definition failed (event : yaml_event_t) (message : string) (w : world)
  : world :=
  printed (printed (printed w (position (start_mark event))) message)
          newline.

(** Parses a boolean value. *)
Definition parse_bool (event : yaml_event_t) : M argdata_t :=
  let value := scalar_value event in
  if strcmp_eq value "true" then ret argdata_true
  else if strcmp_eq value "false" then ret argdata_false
  else exit_parse_error event ("Unknown boolean value: " ++ cstr value).

(** The first half of [parse_fd]: extract the file descriptor number from
    the data. *)
Definition parse_fd_number (event : yaml_event_t) : M Z :=
  let value := scalar_value event in
  if strcmp_eq value "stdout" then ret STDOUT_FILENO
  else if strcmp_eq value "stderr" then ret STDOUT_FILENO
  else
    let conv := strtoul noconv_errno value 10 in
    let fd := conv_value conv in
    if negb (conv_errno conv =? 0)
       || negb (Nat.eqb (conv_end conv) (scalar_length event))
       || (INT_MAX <? fd)
    then exit_parse_error event "Invalid file descriptor number"
    else ret fd.

(** Parses a file descriptor number. *)
Definition parse_fd (event : yaml_event_t) : M argdata_t :=
  fd <- parse_fd_number event ;;
  (* Validate that this descriptor actually exists. *)
  r <- fstat fd ;;
  if negb (fst r =? 0) then
    exit_parse_error event
      ("File descriptor " ++ decimal fd ++ ": " ++ strerror (snd r))
  else ret (argdata_create_fd fd).

(** Parses an integer value. *)
Definition parse_int (event : yaml_event_t) : M argdata_t :=
  let value := scalar_value event in
  let value_end := scalar_length event in
  (* Determine the base of the number. *)
  let '(skipped, base) :=
    if Ascii.eqb (char_at value 0) "0" && Ascii.eqb (char_at value 1) "o"
    then (2%nat, 8)
    else if Ascii.eqb (char_at value 0) "0"
            && Ascii.eqb (char_at value 1) "x"
    then (2%nat, 16)
    else (O, 10) in
  let value := advance skipped value in
  (* Try signed integer conversion. *)
  let sconv := strtoimax noconv_errno value base in
  if (conv_errno sconv =? 0)
     && Nat.eqb (skipped + conv_end sconv) value_end
  then ret (argdata_create_int (conv_value sconv))
  else
    (* Try unsigned integer conversion. *)
    let uconv := strtoumax noconv_errno value base in
    if (conv_errno uconv =? 0)
       && Nat.eqb (skipped + conv_end uconv) value_end
    then ret (argdata_create_int (conv_value uconv))
    else
      (* Integer value out of bounds. *)
      exit_parse_error event "Invalid integer value".

(** Parses a null value. *)
Definition parse_null (event : yaml_event_t) : M argdata_t :=
  ret argdata_null.

(** The loops below call [parse_object], which is defined after them and
    calls them back: they take it as [parse_object], and [n] bounds the
    number of their iterations. *)

(** The loop of [parse_file]: fetch key name and value. *)
Fixpoint parse_file_attributes (parse_object : M (option argdata_t))
    (n : nat) (event : yaml_event_t) (path : option string)
  : M (option string) :=
  match n with
  | O => out_of_fuel
  | S n' =>
      key <- parse_object ;;
      match key with
      | None => ret path
      | Some key =>
          let '(error, keystr) := argdata_get_str_c key in
          if negb (error =? 0) then
            exit_parse_error event ("Bad attribute: " ++ strerror error)
          else
            value <- parse_object ;;
            if strcmp_eq keystr "path" then
              (* Pathname. *)
              match value with
              | None => undefined
              | Some value =>
                  let '(error, path) := argdata_get_str_c value in
                  if negb (error =? 0) then
                    exit_parse_error event
                      ("Bad path attribute: " ++ strerror error)
                  else
                    parse_file_attributes parse_object n' event (Some path)
              end
            else
              exit_parse_error event
                ("Unknown file attribute: " ++ cstr keystr)
      end
  end.

(** Parses a file, opens it and returns a file descriptor number. *)
Definition parse_file (parse_object : M (option argdata_t)) (n : nat)
    (event : yaml_event_t) : M argdata_t :=
  path <- parse_file_attributes parse_object n event None ;;
  (* Open the file. *)
  match path with
  | None => exit_parse_error event "Missing path attribute"
  | Some path =>
      r <- open (cstr path) O_RDONLY ;;
      let fd := fst r in
      if fd <? 0 then
        exit_parse_error event
          ("Failed to open " ++ dquote ++ cstr path ++ dquote ++ ": "
           ++ strerror (snd r))
      else ret (argdata_create_fd fd)
  end.

(** The loop of [parse_map]; [keys] and [values] are the arrays filled so
    far. *)
Fixpoint parse_map_entries (parse_object : M (option argdata_t)) (n : nat)
    (keys : list argdata_t) (values : list (option argdata_t))
  : M argdata_t :=
  match n with
  | O => out_of_fuel
  | S n' =>
      ad <- parse_object ;;
      match ad with
      | None => ret (argdata_create_map keys values)
      | Some ad =>
          value <- parse_object ;;
          parse_map_entries parse_object n'
            (keys ++ [ad])%list (values ++ [value])%list
      end
  end.

(** Parses a map. *)
Definition parse_map (parse_object : M (option argdata_t)) (n : nat)
  : M argdata_t :=
  parse_map_entries parse_object n [] [].

(** The loop of [parse_seq]. *)
Fixpoint parse_seq_entries (parse_object : M (option argdata_t)) (n : nat)
    (entries : list argdata_t) : M argdata_t :=
  match n with
  | O => out_of_fuel
  | S n' =>
      ad <- parse_object ;;
      match ad with
      | None => ret (argdata_create_seq entries)
      | Some ad => parse_seq_entries parse_object n' (entries ++ [ad])%list
      end
  end.

(** Parses a sequence. *)
Definition parse_seq (parse_object : M (option argdata_t)) (n : nat)
  : M argdata_t :=
  parse_seq_entries parse_object n [].

(** The loop of [parse_socket]: fetch key name and value. *)
Fixpoint parse_socket_attributes (parse_object : M (option argdata_t))
    (n : nat) (event : yaml_event_t) (typestr : string)
    (bindstr : option string) : M (string * option string) :=
  match n with
  | O => out_of_fuel
  | S n' =>
      key <- parse_object ;;
      match key with
      | None => ret (typestr, bindstr)
      | Some key =>
          let '(error, keystr) := argdata_get_str_c key in
          if negb (error =? 0) then
            exit_parse_error event ("Bad attribute: " ++ strerror error)
          else
            value <- parse_object ;;
            if strcmp_eq keystr "type" then
              (* Socket type: stream, datagram, etc. *)
              match value with
              | None => undefined
              | Some value =>
                  let '(error, typestr) := argdata_get_str_c value in
                  if negb (error =? 0) then
                    exit_parse_error event
                      ("Bad type attribute: " ++ strerror error)
                  else
                    parse_socket_attributes parse_object n' event
                      typestr bindstr
              end
            else if strcmp_eq keystr "bind" then
              (* Address on which to bind. *)
              match value with
              | None => undefined
              | Some value =>
                  let '(error, bindstr) := argdata_get_str_c value in
                  if negb (error =? 0) then
                    exit_parse_error event
                      ("Bad bind attribute: " ++ strerror error)
                  else
                    parse_socket_attributes parse_object n' event
                      typestr (Some bindstr)
              end
            else
              exit_parse_error event
                ("Unknown socket attribute: " ++ cstr keystr)
      end
  end.

(** [parse_socket] after its loop: parse the socket type. *)
Definition parse_socket_type (event : yaml_event_t) (typestr : string)
  : M sock_type :=
  if strcmp_eq typestr "dgram" then ret SOCK_DGRAM
  else if strcmp_eq typestr "seqpacket" then ret SOCK_SEQPACKET
  else if strcmp_eq typestr "stream" then ret SOCK_STREAM
  else exit_parse_error event
         ("Unsupported type attribute: " ++ cstr typestr).

(** The split of [parse_socket] for an address that is not a path: the
    host name, copied up to [split], and the service name after the
    separator; [None] when [split] is a null pointer. *)
Definition split_address (bindstr : string) : option (string * string) :=
  let '(split, separator) :=
    if Ascii.eqb (char_at bindstr 0) "[" then (strstr bindstr "]:", 2%nat)
    else (strchr bindstr ":", 1%nat) in
  match split with
  | Some split =>
      Some (strndup bindstr split,
            cstr (advance (split + separator) bindstr))
  | None => None
  end.

(** Parse the bind address: the socket address and its length. *)
Definition parse_socket_address (event : yaml_event_t) (ty : sock_type)
    (bindstr : string) : M (sockaddr * Z) :=
  if Ascii.eqb (char_at bindstr 0) "/" then
    (* UNIX socket: bind to path. *)
    if Nat.leb sun_path_size (String.length (cstr bindstr)) then
      exit_parse_error event
        ("Socket path " ++ cstr bindstr ++ " too long")
    else
      ret ({| sa_family := AF_UNIX; sa_data := cstr bindstr |},
           Z.of_nat sun_path_size + 2)
  else
    (* IPv4 or IPv6 socket.  Extract address and port number. *)
    match split_address bindstr with
    | Some (hostname, servname) =>
        (* Resolve address and port number. *)
        let hint := {| ai_family := AF_UNSPEC; ai_socktype := ty |} in
        r <- getaddrinfo hostname servname hint ;;
        let '(error, res) := r in
        if negb (error =? 0) then
          exit_parse_error event
            ("Failed to resolve " ++ cstr bindstr ++ ": "
             ++ gai_strerror error)
        else
          match res with
          | [] => undefined
          | res0 :: ai_next =>
              match ai_next with
              | _ :: _ =>
                  exit_parse_error event
                    (cstr bindstr ++ " resolves to multiple addresses")
              | [] => ret (ai_addr res0, ai_addrlen res0)
              end
          end
    | None =>
        exit_parse_error event
          ("Address " ++ cstr bindstr ++ " does not contain a port number")
    end.

(** Create the socket, bind it and listen on it. *)
Definition parse_socket_create (event : yaml_event_t) (ty : sock_type)
    (bindstr : string) (sa : sockaddr) (sal : Z) : M argdata_t :=
  r <- socket (sa_family sa) ty 0 ;;
  let fd := fst r in
  if fd =? -1 then
    exit_parse_error event
      ("Failed to create socket for " ++ cstr bindstr ++ ": "
       ++ strerror (snd r))
  else
    setsockopt fd ;;;
    b <- bind_ fd sa sal ;;
    if fst b =? -1 then
      exit_parse_error event
        ("Failed to bind to " ++ cstr bindstr ++ ": " ++ strerror (snd b))
    else
      l <- listen fd 0 ;;
      if (fst l =? -1) && negb (snd l =? EOPNOTSUPP) then
        exit_parse_error event
          ("Failed to listen on " ++ cstr bindstr ++ ": "
           ++ strerror (snd l))
      else ret (argdata_create_fd fd).

(** [parse_socket] from the end of its loop on. *)
Definition parse_socket_open (event : yaml_event_t) (typestr : string)
    (bindstr : option string) : M argdata_t :=
  ty <- parse_socket_type event typestr ;;
  match bindstr with
  | None => exit_parse_error event "Missing bind attribute"
  | Some bindstr =>
      a <- parse_socket_address event ty bindstr ;;
      parse_socket_create event ty bindstr (fst a) (snd a)
  end.

(** Parses a socket, creates it and returns a file descriptor number. *)
Definition parse_socket (parse_object : M (option argdata_t)) (n : nat)
    (event : yaml_event_t) : M argdata_t :=
  attrs <- parse_socket_attributes parse_object n event "stream" None ;;
  parse_socket_open event (fst attrs) (snd attrs).

Definition tag_is (tag : option string) (name : string) : bool :=
  match tag with
  | Some tag => strcmp_eq tag name
  | None => false
  end.

Definition tag_text (tag : option string) : string :=
  match tag with
  | Some tag => cstr tag
  | None => "(null)"
  end.

Definition is_null {A} (p : option A) : bool :=
  match p with None => true | Some _ => false end.

(** [parse_object].  [fuel] bounds the depth of the recursion and the
    length of each loop; [parse_object_bounded] below shows that the
    number of pending events, plus one, is always enough. *)
Fixpoint parse_object (fuel : nat) : M (option argdata_t) :=
  match fuel with
  | O => out_of_fuel
  | S fuel' =>
      event <- get_event ;;
      let tag := scalar_tag event in
      match event_type event with
      | YAML_STREAM_START_EVENT => parse_object fuel'
      | YAML_DOCUMENT_START_EVENT => parse_object fuel'
      | YAML_MAPPING_START_EVENT =>
          if is_null tag || tag_is tag YAML_MAP_TAG then
            ad <- parse_map (parse_object fuel') fuel' ;; ret (Some ad)
          else if tag_is tag (TAG_PREFIX ++ "file") then
            ad <- parse_file (parse_object fuel') fuel' event ;;
            ret (Some ad)
          else if tag_is tag (TAG_PREFIX ++ "socket") then
            ad <- parse_socket (parse_object fuel') fuel' event ;;
            ret (Some ad)
          else
            exit_parse_error event
              ("Unsupported tag for mapping: " ++ tag_text tag)
      | YAML_SCALAR_EVENT =>
          if is_null tag || tag_is tag YAML_STR_TAG then
            ret (Some (argdata_create_str (scalar_value event)
                                          (scalar_length event)))
          else if tag_is tag YAML_BOOL_TAG then
            ad <- parse_bool event ;; ret (Some ad)
          else if tag_is tag YAML_INT_TAG then
            ad <- parse_int event ;; ret (Some ad)
          else if tag_is tag YAML_NULL_TAG then
            ad <- parse_null event ;; ret (Some ad)
          else if tag_is tag (TAG_PREFIX ++ "fd") then
            ad <- parse_fd event ;; ret (Some ad)
          else
            exit_parse_error event
              ("Unsupported tag for scalar: " ++ tag_text tag)
      | YAML_SEQUENCE_START_EVENT =>
          if is_null tag || tag_is tag YAML_SEQ_TAG then
            ad <- parse_seq (parse_object fuel') fuel' ;; ret (Some ad)
          else
            exit_parse_error event
              ("Unsupported tag for sequence: " ++ tag_text tag)
      | YAML_MAPPING_END_EVENT | YAML_SEQUENCE_END_EVENT => ret None
      | _ =>
          exit_parse_error event
            ("Unsupported event "
             ++ decimal (event_type_number (event_type event)))
      end
  end.

(** [parse_object] with the bound that is always enough. *)
Definition parse_object_top : M (option argdata_t) :=
  fun w => parse_object (S (List.length (w_parser w))) w.

Definition usage {A} : M A :=
  eprint ("usage: cloudabi-run [-e] executable" ++ newline) ;;;
  exit 127.

(** [perror(s)] with [errno] at [error]. *)
Definition perror (s : string) (error : Z) : M unit :=
  eprint (s ++ ": " ++ strerror error ++ newline).

(** The option loop of [main].  With the option string [e], [getopt]
    returns [e] for that character; for any other it writes its own
    message and returns a question mark, which takes the default branch. *)
Fixpoint main_options (argv0 : string) (chars : list ascii)
    (do_emulate : bool) : M bool :=
  match chars with
  | [] => ret do_emulate
  | c :: rest =>
      if Ascii.eqb c "e" then
        (* Run program using emulation. *)
        main_options argv0 rest true
      else
        eprint (getopt_message argv0 c) ;;; usage
  end.

(** How a launch that did not fail ends: the process image was replaced,
    or the emulator took over and did not come back. *)
Inductive handoff := Replaced | Emulating.

Definition ENOMEM : Z := 12.

Definition emulation_warning : string :=
  "WARNING: Attempting to start executable using emulation." ++ newline
  ++ "Keep in mind that this emulation provides no actual sandboxing."
  ++ newline
  ++ "Though this is likely no problem for development and testing"
  ++ newline
  ++ "purposes, using this emulator in production is strongly" ++ newline
  ++ "discouraged." ++ newline.

(** The calls of [main] into the allocator, the emulator's descriptor
    table, the emulator and the native launcher.  [emulate] and
    [program_exec] give [None] when they do not return, and otherwise the
    [errno] they return with. *)
Definition malloc (size : Z) : M bool :=
  fun w => Ok (sys_malloc (w_os w) size) w.

Definition fd_table_insert (i fd : Z) : M (bool * Z) :=
  fun w =>
    let '(ok, error, os') := fd_table_insert_existing (w_os w) i fd in
    Ok (ok, error) (with_os w os').

Definition run_emulate (fd : Z) (buf : list Byte.byte) (buflen : Z)
  : M (option Z) :=
  fun w => Ok (emulate (w_os w) fd buf buflen) w.

Definition run_program_exec (fd : Z) (ad : argdata_t) : M (option Z) :=
  fun w => Ok (program_exec (w_os w) fd ad) w.

(** Register file descriptors: the loop over [fds], from index [i]. *)
Fixpoint register_fds (i : Z) (fds : list Z) : M unit :=
  match fds with
  | [] => ret tt
  | fd :: rest =>
      r <- fd_table_insert i fd ;;
      if negb (fst r) then
        perror "Failed to register file descriptor in argument data"
               (snd r) ;;;
        exit 127
      else register_fds (i + 1) rest
  end.

(** [main] once the configuration is parsed, in emulated mode: serialize
    the argument data, register the file descriptors, and call into the
    emulator to run the program inside of this process. *)
Definition main_emulate (executable : string) (ad : option argdata_t)
  : M handoff :=
  match ad with
  | None => undefined
  | Some ad =>
      let '(buflen, fdslen) := argdata_get_buffer_length ad in
      allocated <- malloc (wrap64 (fdslen * 4 + buflen)) ;;
      if negb allocated then
        perror "Cannot allocate argument data buffer" ENOMEM ;;;
        exit 127
      else
        let '(buf, fds) := argdata_get_buffer ad in
        (* Register file descriptors. *)
        register_fds 0 fds ;;;
        r <- open executable O_RDONLY ;;
        if fst r =? -1 then
          perror "Failed to open executable" (snd r) ;;;
          exit 127
        else
          eprint emulation_warning ;;;
          returned <- run_emulate (fst r) buf buflen ;;
          match returned with
          | None => ret Emulating
          | Some error =>
              perror "Failed to start executable" error ;;;
              exit 127
          end
  end.

(** [main] once the configuration is parsed, in direct mode: execute the
    application directly through the operating system. *)
Definition main_exec (executable : string) (ad : option argdata_t)
  : M handoff :=
  r <- open executable O_EXEC ;;
  if fst r =? -1 then
    perror "Failed to open executable" (snd r) ;;;
    exit 127
  else
    match ad with
    | None => undefined
    | Some ad =>
        returned <- run_program_exec (fst r) ad ;;
        match returned with
        | None => ret Replaced
        | Some error =>
            perror "Failed to start executable" error ;;;
            exit 127
        end
    end.

(** [main]; [argv0] is [argv[0]] and [args] the arguments after it.  The
    calls of [getopt] are those of the loop, and [operands] is what is at
    [argv] once [optind] is added to it.  A [return] from [main] ends the
    process like [exit]. *)
Definition main (argv0 : string) (args : list string) : M handoff :=
  (* Parse command line options. *)
  let '(chars, operands) := getopt_scan args in
  do_emulate <- main_options argv0 chars false ;;
  match operands with
  | [executable] =>
      (* Parse YAML configuration. *)
      ad <- parse_object_top ;;
      if do_emulate : bool then main_emulate executable ad
      else main_exec executable ad
  | _ => usage
  end.

End Launcher.

Arguments world OS : clear implicits.
Arguments outcome OS A : clear implicits.
Arguments Ok {OS A} a w.
Arguments Exit {OS A} status w.
Arguments Undefined {OS A}.
Arguments OutOfFuel {OS A}.

(** ** Outcomes and iteration, for the statements below *)

Section Outcomes.
Context {OS : Type}.

(** An outcome is sound when the bound of the model was not reached, an
    exit has status 127, and a result satisfies [post]; [undef] says
    whether undefined behaviour is put up with. *)
Definition sound (undef : Prop) {A} (o : outcome OS A)
    (post : A -> world OS -> Prop) : Prop :=
  match o with
  | Ok a w' => post a w'
  | Exit status _ => status = 127
  | Undefined => undef
  | OutOfFuel => False
  end.

(** [entries_parsed po w keys values w']: from [w] on, [po] delivered the
    nodes of [keys] and [values] in turn, a key and then its value, and
    left [w']. *)
Inductive entries_parsed (po : world OS -> outcome OS (option argdata_t))
  : world OS -> list argdata_t -> list (option argdata_t) -> world OS
    -> Prop :=
| parsed_none (w : world OS) : entries_parsed po w [] [] w
| parsed_more (w w1 w2 w3 : world OS) (key : argdata_t)
    (value : option argdata_t) keys values :
    po w = Ok (Some key) w1 ->
    po w1 = Ok value w2 ->
    entries_parsed po w2 keys values w3 ->
    entries_parsed po w (key :: keys) (value :: values) w3.

(** A computation that leaves the parser where it was, and one that makes
    it advance whenever fewer than [n] steps are pending. *)
Definition steady (undef : Prop) {A} (m : world OS -> outcome OS A) : Prop :=
  forall w, sound undef (m w) (fun _ w' => w_parser w' = w_parser w).

Definition advancing {A} (n : nat) (m : world OS -> outcome OS A) : Prop :=
  forall w,
    (List.length (w_parser w) < n)%nat ->
    sound True (m w)
          (fun _ w' =>
             (List.length (w_parser w') < List.length (w_parser w))%nat).

(** [m'] does what [m] does wherever [m] stays within the bound. *)
Definition extends {A} (m m' : world OS -> outcome OS A) : Prop :=
  forall w, m w <> OutOfFuel -> m' w = m w.

(** A node is a string node. *)
Definition is_str (ad : argdata_t) : bool :=
  match ad with
  | AD_STR _ => true
  | _ => false
  end.

End Outcomes.

(** ** What the tokenizer delivers

    libyaml nests its events: a node is a scalar, an alias, or a sequence
    or mapping whose start and end events enclose whole nodes, a mapping
    enclosing them in pairs of a key and a value.  When the input is
    malformed it has delivered the beginning of such a nesting and then
    fails. *)

Inductive node_events : yaml_parser_t -> Prop :=
| node_scalar (event : yaml_event_t) :
    event_type event = YAML_SCALAR_EVENT ->
    node_events [Produce event]
| node_alias (event : yaml_event_t) :
    event_type event = YAML_ALIAS_EVENT ->
    node_events [Produce event]
| node_sequence (start stop : yaml_event_t) (items : yaml_parser_t) :
    event_type start = YAML_SEQUENCE_START_EVENT ->
    event_type stop = YAML_SEQUENCE_END_EVENT ->
    items_events items ->
    node_events (Produce start :: items ++ [Produce stop])%list
| node_mapping (start stop : yaml_event_t) (pairs : yaml_parser_t) :
    event_type start = YAML_MAPPING_START_EVENT ->
    event_type stop = YAML_MAPPING_END_EVENT ->
    pairs_events pairs ->
    node_events (Produce start :: pairs ++ [Produce stop])%list
with items_events : yaml_parser_t -> Prop :=
| items_none : items_events []
| items_more (node rest : yaml_parser_t) :
    node_events node -> items_events rest -> items_events (node ++ rest)%list
with pairs_events : yaml_parser_t -> Prop :=
| pairs_none : pairs_events []
| pairs_more (key value rest : yaml_parser_t) :
    node_events key -> node_events value -> pairs_events rest ->
    pairs_events (key ++ value ++ rest)%list.

(** The beginning of a node, up to the step where the tokenizer fails. *)
Inductive cut_events : yaml_parser_t -> Prop :=
| cut_fail (mark : yaml_mark_t) (rest : yaml_parser_t) :
    cut_events (Fail mark :: rest)
| cut_sequence (start : yaml_event_t) (items inner : yaml_parser_t) :
    event_type start = YAML_SEQUENCE_START_EVENT ->
    items_events items ->
    cut_events inner ->
    cut_events (Produce start :: items ++ inner)%list
| cut_mapping_key (start : yaml_event_t) (pairs inner : yaml_parser_t) :
    event_type start = YAML_MAPPING_START_EVENT ->
    pairs_events pairs ->
    cut_events inner ->
    cut_events (Produce start :: pairs ++ inner)%list
| cut_mapping_value (start : yaml_event_t) (pairs key inner : yaml_parser_t) :
    event_type start = YAML_MAPPING_START_EVENT ->
    pairs_events pairs ->
    node_events key ->
    cut_events inner ->
    cut_events (Produce start :: pairs ++ key ++ inner)%list.

(** What follows the entries of a collection: the event that ends it and
    the rest of the input, or a failure of the tokenizer before a key (or
    item) or before the value of a key.  The second index is the rest of
    the input when the collection ends. *)
Inductive entries_tail : yaml_parser_t -> option yaml_parser_t -> Prop :=
| tail_stop (stop : yaml_event_t) (rest : yaml_parser_t) :
    event_type stop = YAML_SEQUENCE_END_EVENT
    \/ event_type stop = YAML_MAPPING_END_EVENT ->
    entries_tail (Produce stop :: rest) (Some rest)
| tail_cut (inner : yaml_parser_t) :
    cut_events inner -> entries_tail inner None
| tail_cut_value (key inner : yaml_parser_t) :
    node_events key -> cut_events inner ->
    entries_tail (key ++ inner)%list None.

(** Where a collection leaves the parser: at the rest of the input, or
    nowhere when the tokenizer failed inside it. *)
Definition leaves {OS A} (rest : option yaml_parser_t)
  : A -> world OS -> Prop :=
  fun _ w' =>
    match rest with
    | Some rest => w_parser w' = rest
    | None => False
    end.

(** A node was returned, and the parser is at [rest]. *)
Definition lands {OS} (rest : yaml_parser_t)
  : option argdata_t -> world OS -> Prop :=
  fun ad w' => ad <> None /\ w_parser w' = rest.

(** The input of a launch: stream and document start events, then a node
    followed by anything, or the cut beginning of one, or nothing but the
    end of the stream. *)
Inductive document_events : yaml_parser_t -> Prop :=
| document_node (node rest : yaml_parser_t) :
    node_events node -> document_events (node ++ rest)%list
| document_cut (inner : yaml_parser_t) :
    cut_events inner -> document_events inner
| document_over (parser : yaml_parser_t) :
    next_event parser = inl (empty_event, []) -> document_events parser
| document_start (event : yaml_event_t) (rest : yaml_parser_t) :
    event_type event = YAML_STREAM_START_EVENT
    \/ event_type event = YAML_DOCUMENT_START_EVENT ->
    document_events rest ->
    document_events (Produce event :: rest).

(** ** argdata_seq_next.c *)

(** What [parse_subfield] leaves behind: the error it returns, the node it
    stored through its first argument ([None] when it stored nothing), how
    far it moved [*buf], and the new [*len]. *)
Record subfield := {
  sf_error : Z;
  sf_value : option argdata_t;
  sf_buf : Z;
  sf_len : Z
}.

(** [struct cloudabi_argdata_seq_iterator]. *)
Record argdata_seq_iterator_t := {
  it_container : argdata_t;
  it_offset : Z;
  it_error : Z;
  it_value : argdata_t
}.

(** The result of a pull: the boolean returned, the node stored in [*value]
    ([None] when nothing was stored), and the iterator afterwards. *)
Record pulled := {
  returned : bool;
  stored : option argdata_t;
  after : argdata_seq_iterator_t
}.

Section SequenceIterator.
(** [parse_subfield] is defined in argdata_impl.h, which is not among the
    sources: it is a parameter here.  It is given the bytes at [*buf] and
    [*len]. *)
Variable parse_subfield : list Byte.byte -> Z -> subfield.

(** [argdata_seq_next]; [None] when the assertion on the type of the
    container fails. *)
Definition argdata_seq_next (it : argdata_seq_iterator_t) : option pulled :=
  let ad := it_container it in
  match ad with
  | AD_BUFFER buffer =>
      let buf := skipn (Z.to_nat (it_offset it)) buffer in
      let len := wrap64 (Z.of_nat (List.length buffer) - it_offset it) in
      if len =? 0 then
        Some {| returned := false; stored := None; after := it |}
      else
        let r := parse_subfield buf len in
        let value :=
          match sf_value r with
          | Some v => v
          | None => it_value it
          end in
        if negb (sf_error r =? 0) then
          Some {| returned := false; stored := None;
                  after := {| it_container := ad;
                              it_offset := it_offset it;
                              it_error := sf_error r;
                              it_value := value |} |}
        else
          Some {| returned := true; stored := Some value;
                  after := {| it_container := ad;
                              it_offset := wrap64 (it_offset it + sf_buf r);
                              it_error := it_error it;
                              it_value := value |} |}
  | AD_SEQ entries =>
      if Z.of_nat (List.length entries) <=? it_offset it then
        Some {| returned := false; stored := None; after := it |}
      else
        Some {| returned := true;
                stored := nth_error entries (Z.to_nat (it_offset it));
                after := {| it_container := ad;
                            it_offset := wrap64 (it_offset it + 1);
                            it_error := it_error it;
                            it_value := it_value it |} |}
  | _ => None
  end.

(** The bytes that remain for an iterator over [buffer], and their
    number. *)
Definition remaining (buffer : list Byte.byte) (it : argdata_seq_iterator_t)
  : list Byte.byte :=
  skipn (Z.to_nat (it_offset it)) buffer.

Definition remaining_length (buffer : list Byte.byte)
    (it : argdata_seq_iterator_t) : Z :=
  wrap64 (Z.of_nat (List.length buffer) - it_offset it).

(** The states an iteration over [buffer] goes through: the offset is
    inside the buffer, and an error is recorded only where the sub-value
    at the offset is the one that failed to parse. *)
Definition iterating (buffer : list Byte.byte)
    (it : argdata_seq_iterator_t) : Prop :=
  it_container it = AD_BUFFER buffer
  /\ Z.of_nat (List.length buffer) <= SIZE_MAX
  /\ 0 <= it_offset it <= Z.of_nat (List.length buffer)
  /\ (it_error it = 0
      \/ (it_offset it < Z.of_nat (List.length buffer)
          /\ sf_error (parse_subfield (remaining buffer it)
                                      (remaining_length buffer it))
             = it_error it)).

(** [n] pulls in a row: the iterator after them, when no assertion
    failed. *)
Fixpoint pulls (n : nat) (it : argdata_seq_iterator_t)
  : option argdata_seq_iterator_t :=
  match n with
  | O => Some it
  | S n' =>
      match argdata_seq_next it with
      | Some p => pulls n' (after p)
      | None => None
      end
  end.

End SequenceIterator.

(** ** random.c *)

(** How a function of random.c ends: it returns, it calls [abort], it
    divides by zero, or its loop was still running at the bound of the
    model. *)
Inductive drawn (S A : Type) :=
| Returns (a : A) (s : S)
| Aborts (s : S)
| Faults
| Spins.
Arguments Returns {S A} a s.
Arguments Aborts {S A} s.
Arguments Faults {S A}.
Arguments Spins {S A}.

(** The [uintmax_t] that eight bytes are, on a little-endian machine. *)
Fixpoint uintmax_of_bytes (bytes : list Byte.byte) : Z :=
  match bytes with
  | [] => 0
  | b :: rest => Z.of_N (Byte.to_N b) + 256 * uintmax_of_bytes rest
  end.

(** The sources of random bytes: [E] is their state.  [arc4random_buf]
    fills the buffer; [open] of /dev/urandom returns a descriptor, negative
    on failure; [read] returns a count together with the bytes it stored.
    [CONFIG_HAS_ARC4RANDOM_BUF] comes from config.h, which is not among
    the sources. *)
Class Entropy (E : Type) := {
  CONFIG_HAS_ARC4RANDOM_BUF : bool;
  arc4random_buf : E -> Z -> list Byte.byte * E;
  sys_open_urandom : E -> Z * E;
  sys_read : E -> Z -> Z -> Z * list Byte.byte * E
}.

Section Random.
Context {E : Type} {Src : Entropy E}.

(** The state of random.c: the sources, whether [open_once] has run, the
    static [urandom], and what was written to standard error. *)
Record random_state := {
  r_sources : E;
  r_open_once : bool;
  r_urandom : Z;
  r_stderr : string
}.

Definition r_with_sources (s : random_state) (e : E) : random_state :=
  {| r_sources := e; r_open_once := r_open_once s;
     r_urandom := r_urandom s; r_stderr := r_stderr s |}.

Definition r_fputs (message : string) (s : random_state) : random_state :=
  {| r_sources := r_sources s; r_open_once := r_open_once s;
     r_urandom := r_urandom s; r_stderr := r_stderr s ++ message |}.

Definition open_urandom (s : random_state) : drawn random_state unit :=
  let '(fd, e) := sys_open_urandom (r_sources s) in
  let s' := {| r_sources := e; r_open_once := r_open_once s;
               r_urandom := fd; r_stderr := r_stderr s |} in
  if fd <? 0 then
    Aborts (r_fputs ("Failed to open /dev/urandom" ++ newline) s')
  else Returns tt s'.

(** [pthread_once(&open_once, open_urandom)], in one thread. *)
Definition pthread_once_open_urandom (s : random_state)
  : drawn random_state unit :=
  if r_open_once s then Returns tt s
  else
    match open_urandom s with
    | Returns _ s' =>
        Returns tt {| r_sources := r_sources s'; r_open_once := true;
                      r_urandom := r_urandom s'; r_stderr := r_stderr s' |}
    | other => other
    end.

(** [random_buf(buf, len)]: the bytes left in [buf]. *)
Definition random_buf (len : Z) (s : random_state)
  : drawn random_state (list Byte.byte) :=
  if CONFIG_HAS_ARC4RANDOM_BUF then
    let '(bytes, e) := arc4random_buf (r_sources s) len in
    Returns bytes (r_with_sources s e)
  else
    match pthread_once_open_urandom s with
    | Returns _ s1 =>
        let '(n, bytes, e) := sys_read (r_sources s1) (r_urandom s1) len in
        let s2 := r_with_sources s1 e in
        if negb (wrap64 n =? len) then
          Aborts (r_fputs ("Short read on /dev/urandom" ++ newline) s2)
        else Returns bytes s2
    | Aborts s1 => Aborts s1
    | Faults => Faults
    | Spins => Spins
    end.

(** [-upper % upper] in [uintmax_t]. *)
Definition random_lower (upper : Z) : Z := wrap64 (- upper) mod upper.

(** The loop of [random_uniform]; [n] bounds the number of draws. *)
Fixpoint random_uniform_draws (n : nat) (upper lower : Z) (s : random_state)
  : drawn random_state Z :=
  match n with
  | O => Spins
  | S n' =>
      match random_buf 8 s with
      | Returns bytes s' =>
          let value := uintmax_of_bytes (firstn 8 bytes) in
          if lower <=? value then Returns (value mod upper) s'
          else random_uniform_draws n' upper lower s'
      | Aborts s' => Aborts s'
      | Faults => Faults
      | Spins => Spins
      end
  end.

(** Calculates a random number within the range [0, upper - 1] without
    any modulo bias. *)
Definition random_uniform (n : nat) (upper : Z) (s : random_state)
  : drawn random_state Z :=
  if upper =? 0 then Faults
  else random_uniform_draws n upper (random_lower upper) s.

End Random.

Arguments random_state E : clear implicits.

(** ** A small machine

    An instance of [Platform] to run the launcher on: a table of open
    descriptors, a list of files that can be opened, and a table of host
    names.  Descriptors are handed out in increasing order; the constants
    are those of Linux with glibc. *)

Module Sample.

Definition EBADF : Z := 9.
Definition ENOENT : Z := 2.
Definition EILSEQ : Z := 84.
Definition EAI_NONAME : Z := -2.

Record machine := {
  open_fds : list Z;
  files : list string;
  hosts : list (string * list addrinfo);
  next_fd : Z
}.

Definition is_open (m : machine) (fd : Z) : bool :=
  existsb (Z.eqb fd) (open_fds m).

Definition allocate (m : machine) : Z * Z * machine :=
  (next_fd m, 0,
   {| open_fds := next_fd m :: open_fds m; files := files m;
      hosts := hosts m; next_fd := next_fd m + 1 |}).

Fixpoint lookup_host (table : list (string * list addrinfo)) (name : string)
  : option (list addrinfo) :=
  match table with
  | [] => None
  | (n, l) :: rest => if String.eqb n name then Some l else lookup_host rest name
  end.

Fixpoint fds_of (ad : argdata_t) : list Z :=
  match ad with
  | AD_FD fd => [fd]
  | AD_MAP keys values =>
      (flat_map fds_of keys
       ++ flat_map (fun v => match v with
                             | Some v => fds_of v
                             | None => []
                             end) values)%list
  | AD_SEQ entries => flat_map fds_of entries
  | _ => []
  end.

(** [getopt] of glibc: an argument that starts with a dash and is more
    than a dash holds option characters, wherever it stands; a double dash
    ends the options; everything else is an operand, and the operands keep
    their order. *)
Fixpoint gnu_getopt_scan (args : list string) : list ascii * list string :=
  match args with
  | [] => ([], [])
  | arg :: rest =>
      match arg with
      | String "-" (String "-" EmptyString) => ([], rest)
      | String "-" (String c cluster) =>
          let '(chars, operands) := gnu_getopt_scan rest in
          ((c :: list_ascii_of_string cluster ++ chars)%list, operands)
      | _ =>
          let '(chars, operands) := gnu_getopt_scan rest in
          (chars, arg :: operands)
      end
  end.

#[export] Instance platform : Platform machine := {|
  noconv_errno := 0;
  EOPNOTSUPP := 95;
  sun_path_size := 108;
  strerror := fun e =>
    if e =? EBADF then "Bad file descriptor"
    else if e =? ENOENT then "No such file or directory"
    else if e =? EINVAL then "Invalid argument"
    else "Unknown error";
  gai_strerror := fun _ => "Name or service not known";
  getopt_scan := gnu_getopt_scan;
  getopt_message := fun argv0 c =>
    argv0 ++ ": invalid option -- '" ++ String c EmptyString ++ "'"
    ++ newline;
  sys_fstat := fun m fd => if is_open m fd then (0, 0) else (-1, EBADF);
  sys_open := fun m path _ =>
    if existsb (String.eqb path) (files m) then allocate m
    else (-1, ENOENT, m);
  sys_getaddrinfo := fun m hostname _ _ =>
    match lookup_host (hosts m) hostname with
    | Some (a :: l) => (0, a :: l)
    | _ => (EAI_NONAME, [])
    end;
  sys_socket := fun m _ _ _ => allocate m;
  sys_setsockopt := fun m _ => m;
  sys_bind := fun m _ _ _ => (0, 0, m);
  sys_listen := fun m _ _ => (0, 0, m);
  sys_malloc := fun _ _ => true;
  argdata_get_str_c := fun ad =>
    match ad with
    | AD_STR s => if has_nul s then (EILSEQ, EmptyString) else (0, s)
    | _ => (EINVAL, EmptyString)
    end;
  argdata_get_buffer_length := fun ad => (0, Z.of_nat (List.length (fds_of ad)));
  argdata_get_buffer := fun ad => ([], fds_of ad);
  fd_table_insert_existing := fun m _ fd => (is_open m fd, EBADF, m);
  emulate := fun _ _ _ _ => None;
  program_exec := fun _ _ _ => None
|}.

(** The launching process has its three standard descriptors open. *)
Definition boot : machine :=
  {| open_fds := [0; 1; 2]; files := ["/etc/motd"];
     hosts := [("localhost",
                [{| ai_addr := {| sa_family := 2; sa_data := "127.0.0.1" |};
                    ai_addrlen := 16 |}]);
               ("twice",
                [{| ai_addr := {| sa_family := 2; sa_data := "10.0.0.1" |};
                    ai_addrlen := 16 |};
                 {| ai_addr := {| sa_family := 10; sa_data := "fd00::1" |};
                    ai_addrlen := 28 |}])];
     next_fd := 3 |}.

Definition start (m : machine) (parser : yaml_parser_t) : world machine :=
  {| w_parser := parser; w_os := m; w_stderr := EmptyString;
     w_calls := [] |}.

(** Modelled from the spec: [parse_subfield] of argdata_impl.h is not among
    the sources, and the design document says only that a pull parses
    exactly one sub-value at the offset and moves past it, and that a
    truncated buffer is malformed.  This decoder does that for sub-values
    stored as one length byte followed by that many bytes. *)
Definition parse_subfield (buf : list Byte.byte) (len : Z) : subfield :=
  match buf with
  | [] => {| sf_error := EINVAL; sf_value := None; sf_buf := 0;
             sf_len := len |}
  | b :: rest =>
      let n := Z.of_N (Byte.to_N b) in
      if len - 1 <? n then
        {| sf_error := EINVAL; sf_value := None; sf_buf := 0;
           sf_len := len |}
      else
        {| sf_error := 0;
           sf_value := Some (AD_BUFFER (firstn (Z.to_nat n) rest));
           sf_buf := 1 + n; sf_len := len - 1 - n |}
  end.

Definition iterator (buffer : list Byte.byte) (offset : Z)
  : argdata_seq_iterator_t :=
  {| it_container := AD_BUFFER buffer; it_offset := offset;
     it_error := 0; it_value := AD_NULL |}.

Definition at_ (l c : Z) : yaml_mark_t := {| line := l; column := c |}.

Definition scalar (tag : option string) (value : string) (l c : Z)
  : yaml_step :=
  Produce (scalar_event tag value (at_ l c)).

Definition mark (t : yaml_event_type_t) (tag : option string) (l c : Z)
  : yaml_step :=
  Produce {| event_type := t; scalar_tag := tag;
             scalar_value := EmptyString; start_mark := at_ l c |}.

(** Inputs for the runs below. *)
Definition fd_tag : option string := Some (TAG_PREFIX ++ "fd").

(** [{ !!int 0: a }] *)
Definition integer_key_map : yaml_parser_t :=
  [mark YAML_MAPPING_START_EVENT None 0 0;
   scalar (Some YAML_INT_TAG) "0" 0 2;
   scalar None "a" 0 11;
   mark YAML_MAPPING_END_EVENT None 0 13].

(** [!!str { a: b }] *)
Definition string_tagged_map : yaml_parser_t :=
  [mark YAML_MAPPING_START_EVENT (Some YAML_STR_TAG) 0 0;
   scalar None "a" 0 8;
   scalar None "b" 0 11;
   mark YAML_MAPPING_END_EVENT None 0 13].

(** The bytes of [true], a NUL and [x], as a double-quoted scalar with an
    escaped NUL delivers them. *)
Definition true_nul_x : string := "true" ++ String NUL "x".

(** Two sub-values of two bytes and one byte, and the same buffer cut
    short by one byte. *)
Definition whole_buffer : list Byte.byte :=
  [Byte.x02; Byte.x61; Byte.x62; Byte.x01; Byte.x63].
Definition truncated_buffer : list Byte.byte :=
  [Byte.x02; Byte.x61; Byte.x62; Byte.x02; Byte.x63].

(** [{ out: !fd stdout }] as a whole stream. *)
Definition manifest : yaml_parser_t :=
  [mark YAML_STREAM_START_EVENT None 0 0;
   mark YAML_DOCUMENT_START_EVENT None 0 0;
   mark YAML_MAPPING_START_EVENT None 0 0;
   scalar None "out" 0 2;
   scalar fd_tag "stdout" 0 7;
   mark YAML_MAPPING_END_EVENT None 0 19;
   mark YAML_DOCUMENT_END_EVENT None 1 0;
   mark YAML_STREAM_END_EVENT None 1 0].

(** [!file { path: /etc/motd }] followed by more input. *)
Definition file_node : yaml_parser_t :=
  [mark YAML_MAPPING_START_EVENT (Some (TAG_PREFIX ++ "file")) 0 0;
   scalar None "path" 0 8;
   scalar None "/etc/motd" 0 14;
   mark YAML_MAPPING_END_EVENT None 0 24;
   mark YAML_DOCUMENT_END_EVENT None 1 0].

(** [!socket { bind: /tmp/sock }] *)
Definition socket_node : yaml_parser_t :=
  [mark YAML_MAPPING_START_EVENT (Some (TAG_PREFIX ++ "socket")) 0 0;
   scalar None "bind" 0 10;
   scalar None "/tmp/sock" 0 16;
   mark YAML_MAPPING_END_EVENT None 0 26].

(** The world that the launch of [manifest] leaves. *)
Definition launched : world machine :=
  {| w_parser := [mark YAML_DOCUMENT_END_EVENT None 1 0;
                  mark YAML_STREAM_END_EVENT None 1 0];
     w_os := {| open_fds := [3; 0; 1; 2]; files := files boot;
                hosts := hosts boot; next_fd := 4 |};
     w_stderr := EmptyString;
     w_calls := [Call_fstat 1; Call_open "/etc/motd" O_EXEC] |}.

(** The world that its launch under emulation leaves. *)
Definition emulated : world machine :=
  {| w_parser := w_parser launched;
     w_os := w_os launched;
     w_stderr := emulation_warning;
     w_calls := [Call_fstat 1; Call_open "/etc/motd" O_RDONLY] |}.

(** An iterator over a sequence node of two entries. *)
Definition seq_iterator (offset : Z) : argdata_seq_iterator_t :=
  {| it_container := AD_SEQ [AD_NULL; AD_BOOL true]; it_offset := offset;
     it_error := 0; it_value := AD_NULL |}.

(** A /dev/urandom that delivers the reads it holds in store, and comes
    short when none is left. *)
#[export] Instance stored_reads : Entropy (list (list Byte.byte)) := {|
  CONFIG_HAS_ARC4RANDOM_BUF := false;
  arc4random_buf := fun e _ => ([], e);
  sys_open_urandom := fun e => (3, e);
  sys_read := fun e _ _ =>
    match e with
    | [] => (0, [], [])
    | bytes :: rest => (Z.of_nat (List.length bytes), bytes, rest)
    end
|}.

(** The numbers 3 and 10, as eight bytes. *)
Definition three : list Byte.byte :=
  [Byte.x03; Byte.x00; Byte.x00; Byte.x00;
   Byte.x00; Byte.x00; Byte.x00; Byte.x00].

Definition ten : list Byte.byte :=
  [Byte.x0a; Byte.x00; Byte.x00; Byte.x00;
   Byte.x00; Byte.x00; Byte.x00; Byte.x00].

(** Two reads: the number 3, then the number 10; the state after the
    first read, and after the second. *)
Definition two_reads : random_state (list (list Byte.byte)) :=
  {| r_sources := [three; ten];
     r_open_once := false; r_urandom := 0; r_stderr := EmptyString |}.

Definition one_read : random_state (list (list Byte.byte)) :=
  {| r_sources := [ten];
     r_open_once := true; r_urandom := 3; r_stderr := EmptyString |}.

Definition drained : random_state (list (list Byte.byte)) :=
  {| r_sources := [];
     r_open_once := true; r_urandom := 3; r_stderr := EmptyString |}.

End Sample.

Import Sample.

(** ** Descriptor numerals

    What [strtoul] takes for a whole number in base 10, in the words of ISO
    C 7.22.1.4: white space, an optional sign, then decimal digits.  This is
    the other side of the comparison with [parse_fd_number]. *)

Definition is_decimal_digit (c : ascii) : bool :=
  let n := Z.of_nat (nat_of_ascii c) in
  (48 <=? n) && (n <=? 57).

Fixpoint all_chars (p : ascii -> bool) (s : string) : bool :=
  match s with
  | EmptyString => true
  | String c r => p c && all_chars p r
  end.

(** The character that starts [s], if there is one, satisfies [p]. *)
Definition starts_with (p : ascii -> bool) (s : string) : bool :=
  match s with
  | String c _ => p c
  | EmptyString => false
  end.

(** The number a string of decimal digits denotes, after the digits that
    gave [acc]. *)
Fixpoint decimal_value (s : string) (acc : Z) : Z :=
  match s with
  | EmptyString => acc
  | String c r => decimal_value r (acc * 10 + (Z.of_nat (nat_of_ascii c) - 48))
  end.

Inductive sign_t := NoSign | PlusSign | MinusSign.

Definition sign_text (sg : sign_t) : string :=
  match sg with
  | NoSign => EmptyString
  | PlusSign => "+"
  | MinusSign => "-"
  end.

Definition is_minus (sg : sign_t) : bool :=
  match sg with MinusSign => true | _ => false end.

(** What [scan_subject] makes of blanks, a sign and digits in base 10. *)
Definition numeral_subject (blanks : string) (sg : sign_t) (digits : string)
  : subject :=
  {| sub_neg := is_minus sg;
     sub_mag := decimal_value digits 0;
     sub_digits := String.length digits;
     sub_end := (String.length blanks + String.length (sign_text sg) + 0
                 + String.length digits)%nat |}.

(** [token] is a numeral for the descriptor [fd]: blanks, a sign, at least
    one digit and nothing else; the digits denote an [unsigned long], and
    [fd] is that number, negated in [unsigned long] after a minus sign, and
    at most [INT_MAX]. *)
Definition fd_numeral (token : string) (fd : Z) : Prop :=
  exists (blanks : string) (sg : sign_t) (digits : string),
    token = blanks ++ sign_text sg ++ digits
    /\ all_chars isspace blanks = true
    /\ digits <> EmptyString
    /\ all_chars is_decimal_digit digits = true
    /\ decimal_value digits 0 <= ULONG_MAX
    /\ fd = (if is_minus sg then wrap64 (- decimal_value digits 0)
             else decimal_value digits 0)
    /\ fd <= INT_MAX.

(** ** Integer tokens

    The decoding of an int-tagged scalar in the words of the design
    document: a prefix selects the base, then the rest is converted as a
    signed and, failing that, as an unsigned number; a conversion counts
    when it reports no error and reaches the end of the token. *)

Definition int_base (token : string) : Z * string :=
  if String.prefix "0o" token then (8, advance 2 token)
  else if String.prefix "0x" token then (16, advance 2 token)
  else (10, token).

Definition converts_whole (conv : conversion) (s : string) : bool :=
  (conv_errno conv =? 0) && Nat.eqb (conv_end conv) (String.length s).

Definition int_of_token (noconv : Z) (token : string) : option Z :=
  let '(base, rest) := int_base token in
  if converts_whole (strtoimax noconv rest base) rest then
    Some (conv_value (strtoimax noconv rest base))
  else if converts_whole (strtoumax noconv rest base) rest then
    Some (conv_value (strtoumax noconv rest base))
  else None.

(** ** What a run leaves behind

    The relations between the world before and the world after a piece of
    the launcher that the statements about whole runs are made of. *)

Section Traces.
Context {OS : Type} {P : Platform OS}.

(** [keeps undef I R E m]: started in a world that satisfies [I], [m]
    returns in a world that [R] relates to the first and that satisfies
    [I] again, or exits with status 127 in a world that [E] relates to the
    first; [undef] says whether undefined behaviour is put up with. *)
Definition keeps (undef : Prop) (I : world OS -> Prop)
    (R E : world OS -> world OS -> Prop)
    {A} (m : world OS -> outcome OS A) : Prop :=
  forall w,
    I w ->
    match m w with
    | Ok _ w' => R w w' /\ I w'
    | Exit status w' => status = 127 /\ E w w'
    | Undefined => undef
    | OutOfFuel => True
    end.

(** Nothing was written to standard error. *)
Definition silent (w w' : world OS) : Prop := w_stderr w' = w_stderr w.

(** The messages of the tree builder: what the formats of the calls of
    [exit_parse_error], and of the [fprintf] of [get_event], expand to.
    The text that a message quotes from the input, or gets from
    [strerror] or [gai_strerror], is any string. *)
Inductive diagnostic : string -> Prop :=
| said_parse_error : diagnostic "Parse error"
| said_unknown_boolean (value : string) :
    diagnostic ("Unknown boolean value: " ++ value)
| said_invalid_fd : diagnostic "Invalid file descriptor number"
| said_closed_fd (fd error : Z) :
    diagnostic ("File descriptor " ++ decimal fd ++ ": " ++ strerror error)
| said_invalid_integer : diagnostic "Invalid integer value"
| said_bad_attribute (error : Z) :
    diagnostic ("Bad attribute: " ++ strerror error)
| said_bad_path (error : Z) :
    diagnostic ("Bad path attribute: " ++ strerror error)
| said_unknown_file_attribute (key : string) :
    diagnostic ("Unknown file attribute: " ++ key)
| said_missing_path : diagnostic "Missing path attribute"
| said_failed_open (path : string) (error : Z) :
    diagnostic ("Failed to open " ++ dquote ++ path ++ dquote ++ ": "
                ++ strerror error)
| said_bad_type (error : Z) :
    diagnostic ("Bad type attribute: " ++ strerror error)
| said_bad_bind (error : Z) :
    diagnostic ("Bad bind attribute: " ++ strerror error)
| said_unknown_socket_attribute (key : string) :
    diagnostic ("Unknown socket attribute: " ++ key)
| said_unsupported_type (type : string) :
    diagnostic ("Unsupported type attribute: " ++ type)
| said_missing_bind : diagnostic "Missing bind attribute"
| said_path_too_long (path : string) :
    diagnostic ("Socket path " ++ path ++ " too long")
| said_no_port (address : string) :
    diagnostic ("Address " ++ address ++ " does not contain a port number")
| said_unresolved (address : string) (error : Z) :
    diagnostic ("Failed to resolve " ++ address ++ ": "
                ++ gai_strerror error)
| said_multiple_addresses (address : string) :
    diagnostic (address ++ " resolves to multiple addresses")
| said_no_socket (address : string) (error : Z) :
    diagnostic ("Failed to create socket for " ++ address ++ ": "
                ++ strerror error)
| said_not_bound (address : string) (error : Z) :
    diagnostic ("Failed to bind to " ++ address ++ ": " ++ strerror error)
| said_not_listening (address : string) (error : Z) :
    diagnostic ("Failed to listen on " ++ address ++ ": " ++ strerror error)
| said_unsupported_mapping (tag : string) :
    diagnostic ("Unsupported tag for mapping: " ++ tag)
| said_unsupported_scalar (tag : string) :
    diagnostic ("Unsupported tag for scalar: " ++ tag)
| said_unsupported_sequence (tag : string) :
    diagnostic ("Unsupported tag for sequence: " ++ tag)
| said_unsupported_event (type : Z) :
    diagnostic ("Unsupported event " ++ decimal type).

(** One diagnostic was written to standard error: a position in the
    input, one of the messages above, and the end of the line. *)
Definition diagnosed (w w' : world OS) : Prop :=
  exists (mark : yaml_mark_t) (message : string),
    diagnostic message
    /\ w_stderr w' = w_stderr w ++ position mark ++ message ++ newline.

(** No call reached the operating system, and the machine is as it was. *)
Definition untouched (w w' : world OS) : Prop :=
  w_os w' = w_os w /\ w_calls w' = w_calls w.

(** The tags that make [parse_object] acquire a descriptor. *)
Definition resource_tag (tag : option string) : bool :=
  tag_is tag (TAG_PREFIX ++ "fd")
  || tag_is tag (TAG_PREFIX ++ "file")
  || tag_is tag (TAG_PREFIX ++ "socket").

Definition plain_event (event : yaml_event_t) : bool :=
  negb (resource_tag (scalar_tag event)).

Definition plain_step (step : yaml_step) : bool :=
  match step with
  | Produce event => plain_event event
  | Fail _ => true
  end.

(** Input that is data only: no event carries one of those tags. *)
Definition plain_data (parser : yaml_parser_t) : bool :=
  forallb plain_step parser.

(** The events that [parse_object] passes over before a node. *)
Definition is_start_step (step : yaml_step) : bool :=
  match step with
  | Produce event =>
      match event_type event with
      | YAML_STREAM_START_EVENT | YAML_DOCUMENT_START_EVENT => true
      | _ => false
      end
  | Fail _ => false
  end.

(** The events that [get_event] passes over. *)
Definition is_end_step (step : yaml_step) : bool :=
  match step with
  | Produce event =>
      match event_type event with
      | YAML_DOCUMENT_END_EVENT | YAML_STREAM_END_EVENT => true
      | _ => false
      end
  | Fail _ => false
  end.

End Traces.

(** ** What data denotes

    The argument data that the events of a node stand for, when the node
    is data only: scalars that are strings, booleans, nulls or decimal
    integers, and sequences and mappings of such nodes.  A tag is read as
    a C string; strings, sequences and mappings may go without one. *)

Definition tagged (tag : option string) (name : string) : Prop :=
  exists t, tag = Some t /\ cstr t = name.

Definition generic (tag : option string) (name : string) : Prop :=
  tag = None \/ tagged tag name.

Inductive denotes : yaml_parser_t -> argdata_t -> Prop :=
| denotes_str (event : yaml_event_t) :
    event_type event = YAML_SCALAR_EVENT ->
    generic (scalar_tag event) YAML_STR_TAG ->
    denotes [Produce event] (AD_STR (scalar_value event))
| denotes_bool (event : yaml_event_t) (b : bool) :
    event_type event = YAML_SCALAR_EVENT ->
    tagged (scalar_tag event) YAML_BOOL_TAG ->
    cstr (scalar_value event) = (if b then "true" else "false") ->
    denotes [Produce event] (AD_BOOL b)
| denotes_int (event : yaml_event_t) :
    event_type event = YAML_SCALAR_EVENT ->
    tagged (scalar_tag event) YAML_INT_TAG ->
    scalar_value event <> EmptyString ->
    all_chars is_decimal_digit (scalar_value event) = true ->
    decimal_value (scalar_value event) 0 <= UINTMAX_MAX ->
    denotes [Produce event] (AD_INT (decimal_value (scalar_value event) 0))
| denotes_null (event : yaml_event_t) :
    event_type event = YAML_SCALAR_EVENT ->
    tagged (scalar_tag event) YAML_NULL_TAG ->
    denotes [Produce event] AD_NULL
| denotes_seq (start stop : yaml_event_t) (items : yaml_parser_t)
    (entries : list argdata_t) :
    event_type start = YAML_SEQUENCE_START_EVENT ->
    generic (scalar_tag start) YAML_SEQ_TAG ->
    event_type stop = YAML_SEQUENCE_END_EVENT ->
    items_denote items entries ->
    denotes (Produce start :: items ++ [Produce stop])%list (AD_SEQ entries)
| denotes_map (start stop : yaml_event_t) (pairs : yaml_parser_t)
    (keys : list argdata_t) (values : list (option argdata_t)) :
    event_type start = YAML_MAPPING_START_EVENT ->
    generic (scalar_tag start) YAML_MAP_TAG ->
    event_type stop = YAML_MAPPING_END_EVENT ->
    pairs_denote pairs keys values ->
    denotes (Produce start :: pairs ++ [Produce stop])%list
            (AD_MAP keys values)
with items_denote : yaml_parser_t -> list argdata_t -> Prop :=
| items_denote_none : items_denote [] []
| items_denote_more (node rest : yaml_parser_t) (ad : argdata_t)
    (entries : list argdata_t) :
    denotes node ad ->
    items_denote rest entries ->
    items_denote (node ++ rest)%list (ad :: entries)
with pairs_denote
  : yaml_parser_t -> list argdata_t -> list (option argdata_t) -> Prop :=
| pairs_denote_none : pairs_denote [] [] []
| pairs_denote_more (key value rest : yaml_parser_t) (k v : argdata_t)
    (keys : list argdata_t) (values : list (option argdata_t)) :
    denotes key k ->
    denotes value v ->
    pairs_denote rest keys values ->
    pairs_denote (key ++ value ++ rest)%list (k :: keys) (Some v :: values).

Scheme denotes_min := Minimality for denotes Sort Prop
  with items_denote_min := Minimality for items_denote Sort Prop
  with pairs_denote_min := Minimality for pairs_denote Sort Prop.

(** ** Where the launcher gives up

    One statement for each place where cloudabi-run.c leaves with status
    127, about the function that contains the place: under the condition
    that the source tests there, the function exits with that status,
    after the calls and the writes that precede the place and with the
    message of the place as the last thing written.  In the worlds below
    [failed event message w] is [w] after the line of [exit_parse_error],
    [printed w s] is [w] after [s] was written to standard error,
    [called w c] is [w] after the call [c], and [with_os w os] is [w] with
    the machine in the state [os]. *)

Section Failures.
Context {OS : Type} {P : Platform OS}.

(** [exit] does not return: when a step of a function calls it, the steps
    that follow are not run. *)
Definition exit_is_final : Prop :=
  forall (A B : Type) (m : M A) (k : A -> M B) (w : world OS)
         (status : Z) (w' : world OS),
    m w = Exit status w' -> bind m k w = Exit status w'.

(** [get_event]: the tokenizer fails. *)
Definition get_event_failures : Prop :=
  forall (w : world OS) (mark : yaml_mark_t),
    next_event (w_parser w) = inr mark ->
    get_event w
    = Exit 127 (printed w (position mark ++ "Parse error" ++ newline)).

(** [parse_object]: [get_event] exits; the event it returned starts no
    node; the tag of the event is none of those that the source knows for
    a scalar, a sequence or a mapping; the function that the event and its
    tag select exits. *)
Definition parse_object_failures : Prop :=
  forall (fuel : nat) (w : world OS),
    (forall status w',
        get_event w = Exit status w' ->
        parse_object (S fuel) w = Exit status w')
    /\ forall (event : yaml_event_t) (w0 : world OS),
        get_event w = Ok event w0 ->
        let tag := scalar_tag event in
        let kind := event_type event in
        (kind = YAML_NO_EVENT \/ kind = YAML_ALIAS_EVENT ->
         parse_object (S fuel) w
         = Exit 127
             (failed event
                ("Unsupported event " ++ decimal (event_type_number kind))
                w0))
        /\ (forall t,
              tag = Some t ->
              (kind = YAML_SCALAR_EVENT ->
               ~ In (cstr t)
                    [YAML_STR_TAG; YAML_BOOL_TAG; YAML_INT_TAG; YAML_NULL_TAG;
                     TAG_PREFIX ++ "fd"] ->
               parse_object (S fuel) w
               = Exit 127
                   (failed event ("Unsupported tag for scalar: " ++ cstr t)
                           w0))
              /\ (kind = YAML_SEQUENCE_START_EVENT ->
                  cstr t <> YAML_SEQ_TAG ->
                  parse_object (S fuel) w
                  = Exit 127
                      (failed event
                         ("Unsupported tag for sequence: " ++ cstr t) w0))
              /\ (kind = YAML_MAPPING_START_EVENT ->
                  ~ In (cstr t)
                       [YAML_MAP_TAG; TAG_PREFIX ++ "file";
                        TAG_PREFIX ++ "socket"] ->
                  parse_object (S fuel) w
                  = Exit 127
                      (failed event
                         ("Unsupported tag for mapping: " ++ cstr t) w0)))
        /\ forall status w',
            (kind = YAML_STREAM_START_EVENT
             \/ kind = YAML_DOCUMENT_START_EVENT ->
             parse_object fuel w0 = Exit status w' ->
             parse_object (S fuel) w = Exit status w')
            /\ (kind = YAML_SCALAR_EVENT ->
                (tagged tag YAML_BOOL_TAG ->
                 parse_bool event w0 = Exit status w' ->
                 parse_object (S fuel) w = Exit status w')
                /\ (tagged tag YAML_INT_TAG ->
                    parse_int event w0 = Exit status w' ->
                    parse_object (S fuel) w = Exit status w')
                /\ (tagged tag (TAG_PREFIX ++ "fd") ->
                    parse_fd event w0 = Exit status w' ->
                    parse_object (S fuel) w = Exit status w'))
            /\ (kind = YAML_SEQUENCE_START_EVENT ->
                generic tag YAML_SEQ_TAG ->
                parse_seq (parse_object fuel) fuel w0 = Exit status w' ->
                parse_object (S fuel) w = Exit status w')
            /\ (kind = YAML_MAPPING_START_EVENT ->
                (generic tag YAML_MAP_TAG ->
                 parse_map (parse_object fuel) fuel w0 = Exit status w' ->
                 parse_object (S fuel) w = Exit status w')
                /\ (tagged tag (TAG_PREFIX ++ "file") ->
                    parse_file (parse_object fuel) fuel event w0
                    = Exit status w' ->
                    parse_object (S fuel) w = Exit status w')
                /\ (tagged tag (TAG_PREFIX ++ "socket") ->
                    parse_socket (parse_object fuel) fuel event w0
                    = Exit status w' ->
                    parse_object (S fuel) w = Exit status w')).

(** [parse_bool], [parse_int] and [parse_fd]: the value is neither of the
    two booleans; neither conversion takes the whole integer; the
    descriptor is no name and no number up to [INT_MAX] that [strtoul]
    takes whole; [fstat] fails on the descriptor. *)
Definition scalar_failures : Prop :=
  forall (event : yaml_event_t) (w : world OS),
    let value := scalar_value event in
    (cstr value <> "true" ->
     cstr value <> "false" ->
     parse_bool event w
     = Exit 127
         (failed event ("Unknown boolean value: " ++ cstr value) w))
    /\ (int_of_token noconv_errno value = None ->
        parse_int event w
        = Exit 127 (failed event "Invalid integer value" w))
    /\ (cstr value <> "stdout" ->
        cstr value <> "stderr" ->
        let conv := strtoul noconv_errno value 10 in
        conv_errno conv <> 0
        \/ conv_end conv <> scalar_length event
        \/ INT_MAX < conv_value conv ->
        parse_fd event w
        = Exit 127 (failed event "Invalid file descriptor number" w))
    /\ (forall fd,
          parse_fd_number event w = Ok fd w ->
          fst (sys_fstat (w_os w) fd) <> 0 ->
          parse_fd event w
          = Exit 127
              (failed event
                 ("File descriptor " ++ decimal fd ++ ": "
                  ++ strerror (snd (sys_fstat (w_os w) fd)))
                 (called w (Call_fstat fd)))).

(** [parse_seq] and [parse_map] are their loops, begun with no entry.
    One round of the loops: the call of [parse_object] for an entry, a
    key or a value exits; otherwise the loop goes on after it. *)
Definition collection_failures : Prop :=
  forall (po : M (option argdata_t)) (n : nat) (w : world OS),
    parse_seq po n w = parse_seq_entries po n [] w
    /\ parse_map po n w = parse_map_entries po n [] [] w
    /\ (forall entries,
        (forall status w',
            po w = Exit status w' ->
            parse_seq_entries po (S n) entries w = Exit status w')
        /\ (forall ad w1,
              po w = Ok (Some ad) w1 ->
              parse_seq_entries po (S n) entries w
              = parse_seq_entries po n (entries ++ [ad])%list w1))
    /\ forall keys values,
        (forall status w',
            po w = Exit status w' ->
            parse_map_entries po (S n) keys values w = Exit status w')
        /\ forall key w1,
            po w = Ok (Some key) w1 ->
            (forall status w',
                po w1 = Exit status w' ->
                parse_map_entries po (S n) keys values w = Exit status w')
            /\ (forall value w2,
                  po w1 = Ok value w2 ->
                  parse_map_entries po (S n) keys values w
                  = parse_map_entries po n (keys ++ [key])%list
                                      (values ++ [value])%list w2).

(** [parse_file].  One round of its loop: a call of [parse_object] exits,
    the key is no string, the key is not [path], the path is no string;
    otherwise the loop goes on.  After the loop: the loop exited, no path
    was given, the file cannot be opened. *)
Definition file_failures : Prop :=
  forall (po : M (option argdata_t)) (n : nat) (event : yaml_event_t)
         (w : world OS),
    (forall path,
        let loop := parse_file_attributes po (S n) event path w in
        (forall status w', po w = Exit status w' -> loop = Exit status w')
        /\ forall key w1,
            po w = Ok (Some key) w1 ->
            let error := fst (argdata_get_str_c key) in
            let keystr := snd (argdata_get_str_c key) in
            (error <> 0 ->
             loop
             = Exit 127
                 (failed event ("Bad attribute: " ++ strerror error) w1))
            /\ (error = 0 ->
                (forall status w',
                    po w1 = Exit status w' -> loop = Exit status w')
                /\ forall value w2,
                    po w1 = Ok value w2 ->
                    (cstr keystr <> "path" ->
                     loop
                     = Exit 127
                         (failed event
                            ("Unknown file attribute: " ++ cstr keystr) w2))
                    /\ (cstr keystr = "path" ->
                        forall v,
                          value = Some v ->
                          let error' := fst (argdata_get_str_c v) in
                          (error' <> 0 ->
                           loop
                           = Exit 127
                               (failed event
                                  ("Bad path attribute: " ++ strerror error')
                                  w2))
                          /\ (error' = 0 ->
                              loop
                              = parse_file_attributes po n event
                                  (Some (snd (argdata_get_str_c v))) w2))))
    /\ (forall status w',
          parse_file_attributes po n event None w = Exit status w' ->
          parse_file po n event w = Exit status w')
    /\ (forall w1,
          parse_file_attributes po n event None w = Ok None w1 ->
          parse_file po n event w
          = Exit 127 (failed event "Missing path attribute" w1))
    /\ (forall path w1 fd error os',
          parse_file_attributes po n event None w = Ok (Some path) w1 ->
          sys_open (w_os w1) (cstr path) O_RDONLY = (fd, error, os') ->
          fd < 0 ->
          parse_file po n event w
          = Exit 127
              (failed event
                 ("Failed to open " ++ dquote ++ cstr path ++ dquote ++ ": "
                  ++ strerror error)
                 (with_os (called w1 (Call_open (cstr path) O_RDONLY))
                          os'))).

(** The loop of [parse_socket], one round: a call of [parse_object]
    exits, the key is no string, the key is neither [type] nor [bind], the
    type or the address is no string; otherwise the loop goes on.  After
    the loop [parse_socket] exits when the loop did, and goes on with what
    the loop returned. *)
Definition socket_attribute_failures : Prop :=
  forall (po : M (option argdata_t)) (n : nat) (event : yaml_event_t)
         (w : world OS),
    (forall typestr bindstr,
        let loop := parse_socket_attributes po (S n) event typestr bindstr w in
        (forall status w', po w = Exit status w' -> loop = Exit status w')
        /\ forall key w1,
            po w = Ok (Some key) w1 ->
            let error := fst (argdata_get_str_c key) in
            let keystr := snd (argdata_get_str_c key) in
            (error <> 0 ->
             loop
             = Exit 127
                 (failed event ("Bad attribute: " ++ strerror error) w1))
            /\ (error = 0 ->
                (forall status w',
                    po w1 = Exit status w' -> loop = Exit status w')
                /\ forall value w2,
                    po w1 = Ok value w2 ->
                    (cstr keystr <> "type" ->
                     cstr keystr <> "bind" ->
                     loop
                     = Exit 127
                         (failed event
                            ("Unknown socket attribute: " ++ cstr keystr)
                            w2))
                    /\ forall v,
                        value = Some v ->
                        let error' := fst (argdata_get_str_c v) in
                        let text := snd (argdata_get_str_c v) in
                        (cstr keystr = "type" ->
                         (error' <> 0 ->
                          loop
                          = Exit 127
                              (failed event
                                 ("Bad type attribute: " ++ strerror error')
                                 w2))
                         /\ (error' = 0 ->
                             loop
                             = parse_socket_attributes po n event text
                                 bindstr w2))
                        /\ (cstr keystr = "bind" ->
                            (error' <> 0 ->
                             loop
                             = Exit 127
                                 (failed event
                                    ("Bad bind attribute: "
                                     ++ strerror error')
                                    w2))
                            /\ (error' = 0 ->
                                loop
                                = parse_socket_attributes po n event typestr
                                    (Some text) w2))))
    /\ (forall status w',
          parse_socket_attributes po n event "stream" None w
          = Exit status w' ->
          parse_socket po n event w = Exit status w')
    /\ (forall typestr bindstr w1,
          parse_socket_attributes po n event "stream" None w
          = Ok (typestr, bindstr) w1 ->
          parse_socket po n event w
          = parse_socket_open event typestr bindstr w1).

(** [parse_socket] after its loop: the type is none of the three; no
    address was given; the path is too long for a socket address; the
    address has no port; the resolver fails or gives more than one
    address; the socket cannot be created, bound or listened on.  An exit
    while the address is parsed or the socket created is an exit of
    [parse_socket]. *)
Definition socket_failures : Prop :=
  forall (event : yaml_event_t) (w : world OS),
    (forall typestr bindstr,
        ~ In (cstr typestr) ["dgram"; "seqpacket"; "stream"] ->
        parse_socket_open event typestr bindstr w
        = Exit 127
            (failed event ("Unsupported type attribute: " ++ cstr typestr)
                    w))
    /\ (forall typestr,
          In (cstr typestr) ["dgram"; "seqpacket"; "stream"] ->
          parse_socket_open event typestr None w
          = Exit 127 (failed event "Missing bind attribute" w))
    /\ (forall typestr ty bindstr,
          parse_socket_type event typestr w = Ok ty w ->
          (forall status w',
              parse_socket_address event ty bindstr w = Exit status w' ->
              parse_socket_open event typestr (Some bindstr) w
              = Exit status w')
          /\ (forall sa sal w1,
                parse_socket_address event ty bindstr w = Ok (sa, sal) w1 ->
                parse_socket_open event typestr (Some bindstr) w
                = parse_socket_create event ty bindstr sa sal w1))
    /\ (forall ty bindstr,
          (char_at bindstr 0 = "/"%char ->
           (sun_path_size <= String.length (cstr bindstr))%nat ->
           parse_socket_address event ty bindstr w
           = Exit 127
               (failed event ("Socket path " ++ cstr bindstr ++ " too long")
                       w))
          /\ (char_at bindstr 0 <> "/"%char ->
              (split_address bindstr = None ->
               parse_socket_address event ty bindstr w
               = Exit 127
                   (failed event
                      ("Address " ++ cstr bindstr
                       ++ " does not contain a port number")
                      w))
              /\ forall hostname servname error res,
                  split_address bindstr = Some (hostname, servname) ->
                  let hint := {| ai_family := AF_UNSPEC; ai_socktype := ty |} in
                  sys_getaddrinfo (w_os w) hostname servname hint
                  = (error, res) ->
                  let w1 := called w (Call_getaddrinfo hostname servname hint) in
                  (error <> 0 ->
                   parse_socket_address event ty bindstr w
                   = Exit 127
                       (failed event
                          ("Failed to resolve " ++ cstr bindstr ++ ": "
                           ++ gai_strerror error)
                          w1))
                  /\ (error = 0 ->
                      (2 <= List.length res)%nat ->
                      parse_socket_address event ty bindstr w
                      = Exit 127
                          (failed event
                             (cstr bindstr
                              ++ " resolves to multiple addresses")
                             w1))))
    /\ forall ty bindstr sa sal fd e1 os1 b e2 os2 l e3 os3,
        sys_socket (w_os w) (sa_family sa) ty 0 = (fd, e1, os1) ->
        sys_bind (sys_setsockopt os1 fd) fd sa sal = (b, e2, os2) ->
        sys_listen os2 fd 0 = (l, e3, os3) ->
        let w1 := with_os (called w (Call_socket (sa_family sa) ty 0)) os1 in
        let w2 :=
          with_os
            (called (with_os (called w1 (Call_setsockopt fd))
                             (sys_setsockopt os1 fd))
                    (Call_bind fd sa sal))
            os2 in
        let w3 := with_os (called w2 (Call_listen fd 0)) os3 in
        (fd = -1 ->
         parse_socket_create event ty bindstr sa sal w
         = Exit 127
             (failed event
                ("Failed to create socket for " ++ cstr bindstr ++ ": "
                 ++ strerror e1)
                w1))
        /\ (fd <> -1 ->
            b = -1 ->
            parse_socket_create event ty bindstr sa sal w
            = Exit 127
                (failed event
                   ("Failed to bind to " ++ cstr bindstr ++ ": "
                    ++ strerror e2)
                   w2))
        /\ (fd <> -1 ->
            b <> -1 ->
            l = -1 ->
            e3 <> EOPNOTSUPP ->
            parse_socket_create event ty bindstr sa sal w
            = Exit 127
                (failed event
                   ("Failed to listen on " ++ cstr bindstr ++ ": "
                    ++ strerror e3)
                   w3)).

(** [main] after the configuration is parsed.  In direct mode: the
    executable cannot be opened; [program_exec] returns.  In emulated
    mode: the buffer cannot be allocated; a descriptor cannot be
    registered; the executable cannot be opened; [emulate] returns.  When
    none of this happens the launch hands over. *)
Definition dispatch_failures : Prop :=
  forall (executable : string) (ad : argdata_t) (w : world OS),
    (forall fd error os',
        sys_open (w_os w) executable O_EXEC = (fd, error, os') ->
        let w1 := with_os (called w (Call_open executable O_EXEC)) os' in
        (fd = -1 ->
         main_exec executable (Some ad) w
         = Exit 127
             (printed w1
                ("Failed to open executable: " ++ strerror error
                 ++ newline)))
        /\ (fd <> -1 ->
            (forall error',
                program_exec os' fd ad = Some error' ->
                main_exec executable (Some ad) w
                = Exit 127
                    (printed w1
                       ("Failed to start executable: " ++ strerror error'
                        ++ newline)))
            /\ (program_exec os' fd ad = None ->
                main_exec executable (Some ad) w = Ok Replaced w1)))
    /\ (let buflen := fst (argdata_get_buffer_length ad) in
        let fdslen := snd (argdata_get_buffer_length ad) in
        let buf := fst (argdata_get_buffer ad) in
        let fds := snd (argdata_get_buffer ad) in
        (sys_malloc (w_os w) (wrap64 (fdslen * 4 + buflen)) = false ->
         main_emulate executable (Some ad) w
         = Exit 127
             (printed w
                ("Cannot allocate argument data buffer: "
                 ++ strerror ENOMEM ++ newline)))
        /\ (sys_malloc (w_os w) (wrap64 (fdslen * 4 + buflen)) = true ->
            (forall status w',
                register_fds 0 fds w = Exit status w' ->
                main_emulate executable (Some ad) w = Exit status w')
            /\ forall w1 fd error os',
                register_fds 0 fds w = Ok tt w1 ->
                sys_open (w_os w1) executable O_RDONLY = (fd, error, os') ->
                let w2 :=
                  with_os (called w1 (Call_open executable O_RDONLY)) os' in
                (fd = -1 ->
                 main_emulate executable (Some ad) w
                 = Exit 127
                     (printed w2
                        ("Failed to open executable: " ++ strerror error
                         ++ newline)))
                /\ (fd <> -1 ->
                    (forall error',
                        emulate os' fd buf buflen = Some error' ->
                        main_emulate executable (Some ad) w
                        = Exit 127
                            (printed (printed w2 emulation_warning)
                               ("Failed to start executable: "
                                ++ strerror error' ++ newline)))
                    /\ (emulate os' fd buf buflen = None ->
                        main_emulate executable (Some ad) w
                        = Ok Emulating (printed w2 emulation_warning)))))
    /\ forall i fd rest ok error os',
        fd_table_insert_existing (w_os w) i fd = (ok, error, os') ->
        (ok = false ->
         register_fds i (fd :: rest) w
         = Exit 127
             (printed (with_os w os')
                ("Failed to register file descriptor in argument data: "
                 ++ strerror error ++ newline)))
        /\ (ok = true ->
            register_fds i (fd :: rest) w
            = register_fds (i + 1) rest (with_os w os')).

End Failures.

Arguments exit_is_final OS : clear implicits.
Arguments get_event_failures OS : clear implicits.
Arguments parse_object_failures OS {P}.
Arguments scalar_failures OS {P}.
Arguments collection_failures OS : clear implicits.
Arguments file_failures OS {P}.
Arguments socket_attribute_failures OS {P}.
Arguments socket_failures OS {P}.
Arguments dispatch_failures OS {P}.

(** ** Draining an iterator *)

(** The nodes that successive pulls hand out until a pull returns false,
    and the iterator left then.  The result is [None] when an assertion
    failed, or when [n] pulls were made and none returned false. *)
Fixpoint drain (parse_subfield : list Byte.byte -> Z -> subfield) (n : nat)
    (it : argdata_seq_iterator_t)
  : option (list (option argdata_t) * argdata_seq_iterator_t) :=
  match n with
  | O => None
  | S n' =>
      match argdata_seq_next parse_subfield it with
      | None => None
      | Some p =>
          if returned p then
            match drain parse_subfield n' (after p) with
            | Some (nodes, it') => Some (stored p :: nodes, it')
            | None => None
            end
          else Some ([], after p)
      end
  end.

(** ** What random.c says before it aborts *)

Definition random_buf_said {E} (s s' : random_state E) : Prop :=
  r_stderr s' = r_stderr s ++ "Failed to open /dev/urandom" ++ newline
  \/ r_stderr s' = r_stderr s ++ "Short read on /dev/urandom" ++ newline.

(** ** The draws that [random_uniform] discards *)

(** [rejected lower s k s']: from [s] on, [k] calls of [random_buf] in
    turn each returned eight bytes that make a number below [lower], and
    the last of them left [s']. *)
Inductive rejected {E} {Src : Entropy E} (lower : Z)
  : random_state E -> nat -> random_state E -> Prop :=
| rejected_none (s : random_state E) : rejected lower s 0 s
| rejected_more (s s1 s2 : random_state E) (bytes : list Byte.byte)
    (k : nat) :
    random_buf 8 s = Returns bytes s1 ->
    uintmax_of_bytes (firstn 8 bytes) < lower ->
    rejected lower s1 k s2 ->
    rejected lower s (S k) s2.

(** * Properties *)

(** ** The C library *)

Example cstr_stops_at_nul :
  cstr (String "a" (String NUL (String "b" EmptyString))) = "a".
Proof. reflexivity. Qed.

Example strtoul_plain : strtoul EINVAL "42" 10 =
  {| conv_value := 42; conv_end := 2; conv_errno := 0 |}.
Proof. reflexivity. Qed.

Example strtoimax_hex : strtoimax EINVAL "1F" 16 =
  {| conv_value := 31; conv_end := 2; conv_errno := 0 |}.
Proof. reflexivity. Qed.

Example strtoimax_range : strtoimax EINVAL "9223372036854775808" 10 =
  {| conv_value := INTMAX_MAX; conv_end := 19; conv_errno := ERANGE |}.
Proof. reflexivity. Qed.

Example strtoul_negated : strtoul EINVAL "-1" 10 =
  {| conv_value := ULONG_MAX; conv_end := 2; conv_errno := 0 |}.
Proof. reflexivity. Qed.

Example decimal_127 : decimal 127 = "127".
Proof. reflexivity. Qed.

Lemma cstr_without_nul (s : string) : has_nul s = false -> cstr s = s.
Proof.
  induction s as [|c r IH]; simpl; [reflexivity|].
  destruct (Ascii.eqb c NUL); simpl; [discriminate|].
  intros H. now rewrite IH.
Qed.

(** [strcmp] against a literal compares the bytes before the first NUL. *)
Lemma strcmp_eq_literal (s lit : string) :
  cstr lit = lit -> (strcmp_eq s lit = true <-> cstr s = lit).
Proof.
  intros H. unfold strcmp_eq. rewrite H. apply String.eqb_eq.
Qed.

Lemma strcmp_eq_false (s lit : string) :
  cstr lit = lit -> (strcmp_eq s lit = false <-> cstr s <> lit).
Proof.
  intros H. unfold strcmp_eq. rewrite H. apply String.eqb_neq.
Qed.

(** *** Scanning a number in base 10 *)

Lemma length_append (a b : string) :
  String.length (a ++ b) = (String.length a + String.length b)%nat.
Proof. induction a; simpl; congruence. Qed.

Lemma append_empty_r (a : string) : a ++ EmptyString = a.
Proof. induction a; simpl; congruence. Qed.

Lemma length_zero (a : string) : String.length a = O -> a = EmptyString.
Proof. destruct a; simpl; [reflexivity | discriminate]. Qed.

Lemma advance_append (a b : string) : advance (String.length a) (a ++ b) = b.
Proof. induction a; simpl; [now destruct b | assumption]. Qed.

Lemma digit_in_decimal (c : ascii) :
  digit_in 10 c
  = if is_decimal_digit c then Some (Z.of_nat (nat_of_ascii c) - 48) else None.
Proof.
  unfold digit_in, digit_of, is_decimal_digit.
  set (n := Z.of_nat (nat_of_ascii c)).
  destruct (48 <=? n) eqn:E1, (n <=? 57) eqn:E2; simpl;
    try (replace (n - 48 <? 10) with true by (symmetry; apply Z.ltb_lt; lia);
         reflexivity);
    destruct (97 <=? n) eqn:E3, (n <=? 122) eqn:E4; simpl;
    try (replace (n - 97 + 10 <? 10) with false
           by (symmetry; apply Z.ltb_ge; lia); reflexivity);
    destruct (65 <=? n) eqn:E5, (n <=? 90) eqn:E6; simpl;
    try (replace (n - 65 + 10 <? 10) with false
           by (symmetry; apply Z.ltb_ge; lia); reflexivity);
    reflexivity.
Qed.

Lemma scan_digits_decimal (digits rest : string) (acc : Z) :
  all_chars is_decimal_digit digits = true ->
  starts_with is_decimal_digit rest = false ->
  scan_digits 10 (digits ++ rest) acc
  = (decimal_value digits acc, String.length digits).
Proof.
  revert acc. induction digits as [|c r IH]; simpl; intros acc Hall Hrest.
  - destruct rest as [|d rest]; [reflexivity|]. simpl in Hrest.
    simpl. now rewrite digit_in_decimal, Hrest.
  - apply andb_prop in Hall as [Hc Hr].
    rewrite digit_in_decimal, Hc. now rewrite IH.
Qed.

Lemma scan_digits_split (s : string) (acc : Z) :
  exists digits rest,
    s = digits ++ rest
    /\ all_chars is_decimal_digit digits = true
    /\ starts_with is_decimal_digit rest = false
    /\ scan_digits 10 s acc = (decimal_value digits acc, String.length digits).
Proof.
  revert acc. induction s as [|c r IH]; intros acc.
  - exists EmptyString, EmptyString. repeat split.
  - destruct (is_decimal_digit c) eqn:Hc.
    + destruct (IH (acc * 10 + (Z.of_nat (nat_of_ascii c) - 48)))
        as (digits & rest & -> & Hall & Hrest & Hscan).
      exists (String c digits), rest. simpl.
      rewrite digit_in_decimal, Hc, Hall, Hscan. repeat split. assumption.
    + exists EmptyString, (String c r). simpl.
      rewrite digit_in_decimal, Hc. repeat split.
Qed.

Lemma skip_space_blanks (blanks rest : string) :
  all_chars isspace blanks = true ->
  starts_with isspace rest = false ->
  skip_space (blanks ++ rest) = String.length blanks.
Proof.
  induction blanks as [|c r IH]; simpl; intros Hall Hrest.
  - destruct rest as [|d rest]; [reflexivity|]. simpl in *. now rewrite Hrest.
  - apply andb_prop in Hall as [Hc Hr]. rewrite Hc. now rewrite IH.
Qed.

Lemma skip_space_split (s : string) :
  exists blanks rest,
    s = blanks ++ rest
    /\ all_chars isspace blanks = true
    /\ starts_with isspace rest = false
    /\ skip_space s = String.length blanks.
Proof.
  induction s as [|c r IH].
  - exists EmptyString, EmptyString. repeat split.
  - destruct (isspace c) eqn:Hc.
    + destruct IH as (blanks & rest & -> & Hall & Hrest & Hskip).
      exists (String c blanks), rest. simpl.
      rewrite Hc, Hall, Hskip. repeat split. assumption.
    + exists EmptyString, (String c r). simpl. rewrite Hc. repeat split.
Qed.

Lemma digit_is_no_space (c : ascii) :
  is_decimal_digit c = true -> isspace c = false.
Proof.
  unfold is_decimal_digit, isspace. intros H.
  apply andb_prop in H as [H1 H2].
  apply Z.leb_le in H1.
  destruct (Nat.eqb_spec (nat_of_ascii c) 32) as [E|_]; [lia|].
  destruct (Nat.leb_spec (nat_of_ascii c) 13) as [E|_]; [lia|].
  now rewrite andb_false_r.
Qed.

Lemma digit_is_no_sign (c : ascii) :
  is_decimal_digit c = true ->
  Ascii.eqb c "-" = false /\ Ascii.eqb c "+" = false.
Proof.
  intros H. split.
  - destruct (Ascii.eqb_spec c "-") as [->|_]; [discriminate | reflexivity].
  - destruct (Ascii.eqb_spec c "+") as [->|_]; [discriminate | reflexivity].
Qed.

(** Any string splits into the blanks, sign and digits that [scan_subject]
    reads in base 10, and what is left. *)
Lemma scan_subject_split (token : string) :
  exists blanks sg digits rest,
    token = blanks ++ sign_text sg ++ digits ++ rest
    /\ all_chars isspace blanks = true
    /\ all_chars is_decimal_digit digits = true
    /\ scan_subject token 10 = numeral_subject blanks sg digits.
Proof.
  destruct (skip_space_split token) as (blanks & r1 & -> & Hb & Hr1 & Hskip).
  unfold scan_subject. rewrite Hskip, advance_append.
  destruct r1 as [|c r].
  - exists blanks, NoSign, EmptyString, EmptyString. repeat split. assumption.
  - destruct (Ascii.eqb_spec c "-") as [->|Nm].
    + destruct (scan_digits_split r 0) as (digits & rest & -> & Hd & _ & Hs).
      exists blanks, MinusSign, digits, rest. simpl.
      rewrite Hs. repeat split; assumption.
    + destruct (Ascii.eqb_spec c "+") as [->|Np].
      * destruct (scan_digits_split r 0) as (digits & rest & -> & Hd & _ & Hs).
        exists blanks, PlusSign, digits, rest. simpl.
        rewrite Hs. repeat split; assumption.
      * destruct (scan_digits_split (String c r) 0)
          as (digits & rest & E & Hd & _ & Hs).
        exists blanks, NoSign, digits, rest. simpl advance. simpl sign_text.
        simpl append at 2. rewrite <- E.
        change ((10 =? 16) && has_hex_prefix (String c r)) with false.
        simpl advance. rewrite Hs. repeat split; assumption.
Qed.

(** Blanks, a sign and digits are read back as such. *)
Lemma scan_subject_numeral (blanks : string) (sg : sign_t) (digits : string) :
  all_chars isspace blanks = true ->
  digits <> EmptyString ->
  all_chars is_decimal_digit digits = true ->
  scan_subject (blanks ++ sign_text sg ++ digits) 10
  = numeral_subject blanks sg digits.
Proof.
  intros Hb Hne Hd.
  destruct digits as [|d digits]; [congruence|].
  simpl in Hd. apply andb_prop in Hd as [Hd0 Hd].
  assert (Hscan : scan_digits 10 (String d digits) 0
                  = (decimal_value (String d digits) 0,
                     String.length (String d digits))).
  { rewrite <- (append_empty_r (String d digits)) at 1.
    apply scan_digits_decimal; [|reflexivity].
    simpl. now rewrite Hd0, Hd. }
  unfold scan_subject.
  rewrite skip_space_blanks, advance_append; [|assumption|].
  - change (10 =? 16) with false. cbn [andb advance].
    destruct sg.
    + destruct (digit_is_no_sign d Hd0) as [Nm Np].
      change (sign_text NoSign ++ String d digits) with (String d digits).
      cbv iota beta. rewrite Nm, Np. cbn [advance]. rewrite Hscan.
      reflexivity.
    + change (sign_text PlusSign ++ String d digits)
        with (String "+" (String d digits)).
      cbv iota beta. change (Ascii.eqb "+" "-") with false.
      change (Ascii.eqb "+" "+") with true. cbn [advance]. rewrite Hscan.
      reflexivity.
    + change (sign_text MinusSign ++ String d digits)
        with (String "-" (String d digits)).
      cbv iota beta. change (Ascii.eqb "-" "-") with true.
      cbn [advance]. rewrite Hscan. reflexivity.
  - destruct sg; simpl; try reflexivity. now apply digit_is_no_space.
Qed.

(** [strtoul] in base 10 converts a whole token without error exactly when
    the token is a numeral, or is empty where the library reports no error
    for that. *)
Lemma strtoul_accepts (noconv : Z) (token : string) (fd : Z) :
  (conv_errno (strtoul noconv token 10) = 0
   /\ conv_end (strtoul noconv token 10) = String.length token
   /\ conv_value (strtoul noconv token 10) = fd
   /\ fd <= INT_MAX)
  <-> (fd_numeral token fd
       \/ (noconv = 0 /\ token = EmptyString /\ fd = 0)).
Proof.
  unfold strtoul, strtoumax. split.
  - destruct (scan_subject_split token)
      as (blanks & sg & digits & rest & E & Hb & Hd & Hs).
    rewrite Hs. unfold numeral_subject; cbn [sub_digits sub_mag sub_neg sub_end].
    destruct digits as [|d digits].
    + cbn [String.length no_conversion conv_errno conv_end conv_value].
      intros (He & Hend & Hv & _). right.
      repeat split; try congruence. symmetry in Hend. now apply length_zero.
    + cbn [String.length].
      destruct (UINTMAX_MAX <? decimal_value (String d digits) 0) eqn:Hmax;
        cbn [conv_errno conv_end conv_value];
        intros (He & Hend & Hv & Hfd); [discriminate|].
      left. exists blanks, sg, (String d digits).
      assert (rest = EmptyString) as ->.
      { apply length_zero. rewrite E in Hend.
        rewrite !length_append in Hend. cbn [String.length] in Hend. lia. }
      rewrite append_empty_r in E. apply Z.ltb_ge in Hmax.
      repeat split; try assumption; try discriminate; try exact Hmax.
      now rewrite <- Hv.
  - intros [(blanks & sg & digits & -> & Hb & Hne & Hd & Hmax & Hv & Hfd)
           |(-> & -> & ->)].
    + rewrite (scan_subject_numeral blanks sg digits Hb Hne Hd).
      unfold numeral_subject; cbn [sub_digits sub_mag sub_neg sub_end].
      destruct digits as [|d digits]; [congruence|].
      cbn [String.length].
      replace (UINTMAX_MAX <? decimal_value (String d digits) 0) with false
        by (symmetry; apply Z.ltb_ge; exact Hmax).
      cbn [conv_errno conv_end conv_value].
      repeat split; try (now rewrite Hv); try assumption.
      rewrite !length_append. cbn [String.length]. lia.
    + repeat split. unfold INT_MAX. lia.
Qed.

(** A plain decimal literal has no base prefix, and decodes to the number it
    denotes when that fits [uintmax_t]. *)
Lemma int_base_decimal (digits : string) :
  all_chars is_decimal_digit digits = true ->
  int_base digits = (10, digits).
Proof.
  intros H. unfold int_base.
  assert (P : forall c, is_decimal_digit c = false ->
              String.prefix (String "0" (String c EmptyString)) digits = false).
  { intros c Hc. destruct digits as [|c0 [|c1 r]]; cbn [String.prefix].
    - reflexivity.
    - now destruct (ascii_dec "0" c0).
    - destruct (ascii_dec "0" c0); [|reflexivity].
      destruct (ascii_dec c c1) as [<-|]; [|reflexivity].
      cbn [all_chars] in H. rewrite Hc in H.
      now rewrite andb_false_r in H. }
  now rewrite (P "o"%char eq_refl), (P "x"%char eq_refl).
Qed.

Lemma int_of_token_decimal (noconv : Z) (digits : string) :
  digits <> EmptyString ->
  all_chars is_decimal_digit digits = true ->
  int_of_token noconv digits
  = if decimal_value digits 0 <=? UINTMAX_MAX
    then Some (decimal_value digits 0)
    else None.
Proof.
  intros Hne Hd. unfold int_of_token.
  rewrite (int_base_decimal digits Hd).
  assert (Hs := scan_subject_numeral EmptyString NoSign digits eq_refl Hne Hd).
  change (EmptyString ++ sign_text NoSign ++ digits) with digits in Hs.
  unfold strtoimax, strtoumax, converts_whole. rewrite Hs.
  unfold numeral_subject.
  cbn [sub_digits sub_neg sub_mag sub_end sign_text is_minus String.length
       Nat.add].
  destruct digits as [|d digits]; [congruence|]. cbn [String.length].
  set (mag := decimal_value (String d digits) 0).
  destruct (Z.ltb_spec INTMAX_MAX mag) as [Big|Small];
    cbn [conv_errno conv_end conv_value].
  - change (ERANGE =? 0) with false. cbn [andb].
    destruct (Z.ltb_spec UINTMAX_MAX mag) as [Huge|Fits];
      cbn [conv_errno conv_end conv_value].
    + change (ERANGE =? 0) with false. cbn [andb].
      destruct (Z.leb_spec mag UINTMAX_MAX); [lia | reflexivity].
    + rewrite Nat.eqb_refl. change (0 =? 0) with true. cbn [andb].
      destruct (Z.leb_spec mag UINTMAX_MAX); [reflexivity | lia].
  - rewrite Nat.eqb_refl. change (0 =? 0) with true. cbn [andb].
    destruct (Z.leb_spec mag UINTMAX_MAX); [reflexivity|].
    unfold INTMAX_MAX, UINTMAX_MAX in *. lia.
Qed.

(** ** The launcher *)

(** *** Tags *)

Lemma tag_is_tagged (tag : option string) (name other : string) :
  tagged tag name ->
  cstr other = other ->
  is_null tag = false /\ tag_is tag other = String.eqb name other.
Proof.
  intros (t & -> & <-) H. split; [reflexivity|].
  cbn [tag_is]. unfold strcmp_eq. now rewrite H.
Qed.

Lemma generic_tag (tag : option string) (name : string) :
  generic tag name ->
  cstr name = name ->
  (is_null tag || tag_is tag name)%bool = true.
Proof.
  intros [->|T] H; [reflexivity|].
  destruct (tag_is_tagged tag name name T H) as [_ ->].
  rewrite String.eqb_refl. apply orb_true_r.
Qed.

Ltac settle_tags T :=
  repeat match goal with
         | |- context [tag_is ?tag ?other] =>
             rewrite (proj2 (tag_is_tagged tag _ other T eq_refl))
         end;
  rewrite ?(proj1 (tag_is_tagged _ _ EmptyString T eq_refl));
  repeat match goal with
         | |- context [String.eqb ?a ?b] =>
             let v := eval vm_compute in (String.eqb a b) in
             change (String.eqb a b) with v
         end;
  cbn [orb].

Section LauncherProperties.
Context {OS : Type} {P : Platform OS}.

Local Abbreviation M := (@M OS).
Local Abbreviation strict := (@sound OS False).
Local Abbreviation strictly_steady := (@steady OS False).
Local Abbreviation advancing := (@advancing OS).
Local Abbreviation extends := (@extends OS).

(** C7, as amended.  A bool-tagged scalar is compared as a C string: the
    bytes of the token before its first NUL decide.  They give the true
    node when they are [true], the false node when they are [false], and a
    fatal parse error with status 127 otherwise; decoding succeeds exactly
    when they are one of the two, which for a token that holds no NUL
    means that the token itself is [true] or [false]. *)
Theorem parse_bool_reads_c_string (event : yaml_event_t) (w : world OS) :
  let token := scalar_value event in
  (parse_bool event w = Ok (AD_BOOL true) w <-> cstr token = "true")
  /\ (parse_bool event w = Ok (AD_BOOL false) w <-> cstr token = "false")
  /\ (parse_bool event w
      = Exit 127 (failed event ("Unknown boolean value: " ++ cstr token) w)
      <-> cstr token <> "true" /\ cstr token <> "false")
  /\ ((exists ad w', parse_bool event w = Ok ad w')
      <-> cstr token = "true" \/ cstr token = "false")
  /\ (has_nul token = false ->
      ((exists ad w', parse_bool event w = Ok ad w')
       <-> token = "true" \/ token = "false")).
Proof.
  intros token.
  assert (Ht := strcmp_eq_literal token "true" eq_refl).
  assert (Hf := strcmp_eq_literal token "false" eq_refl).
  assert (shape :
    (cstr token = "true" /\ parse_bool event w = Ok (AD_BOOL true) w)
    \/ (cstr token = "false" /\ parse_bool event w = Ok (AD_BOOL false) w)
    \/ (cstr token <> "true" /\ cstr token <> "false"
        /\ parse_bool event w
           = Exit 127
               (failed event ("Unknown boolean value: " ++ cstr token) w))).
  { unfold parse_bool. fold token.
    destruct (strcmp_eq token "true") eqn:E1.
    - left. split; [now apply Ht | reflexivity].
    - destruct (strcmp_eq token "false") eqn:E2.
      + right; left. split; [now apply Hf | reflexivity].
      + right; right.
        apply (strcmp_eq_false token "true" eq_refl) in E1.
        apply (strcmp_eq_false token "false" eq_refl) in E2.
        repeat split; assumption. }
  assert (succeeds :
    (exists ad w', parse_bool event w = Ok ad w')
    <-> cstr token = "true" \/ cstr token = "false").
  { split.
    - intros (ad & w' & H).
      destruct shape as [[E _]|[[E _]|(_ & _ & E)]]; auto.
      rewrite E in H; discriminate.
    - intros [E|E];
        destruct shape as [[E1 H]|[[E1 H]|(N1 & N2 & _)]];
        try (eexists; eexists; exact H); congruence. }
  split; [|split; [|split; [|split]]].
  - split.
    + intros H. destruct shape as [[E _]|[[E H']|(_ & _ & H')]]; auto;
        rewrite H' in H; discriminate.
    + intros E. destruct shape as [[_ H]|[[E' _]|(N & _)]]; congruence.
  - split.
    + intros H. destruct shape as [[E H']|[[E _]|(_ & _ & H')]]; auto;
        rewrite H' in H; discriminate.
    + intros E. destruct shape as [[E' _]|[[_ H]|(_ & N & _)]]; congruence.
  - split.
    + intros H. destruct shape as [[E H']|[[E H']|(N1 & N2 & _)]];
        try (rewrite H' in H; discriminate); split; assumption.
    + intros [N1 N2].
      destruct shape as [[E _]|[[E _]|(_ & _ & H)]]; congruence.
  - exact succeeds.
  - intros NoNul. rewrite <- (cstr_without_nul token NoNul).
    exact succeeds.
Qed.

(** The symbolic names resolve without looking at the machine. *)
Lemma parse_fd_number_stdout (event : yaml_event_t) (w : world OS) :
  cstr (scalar_value event) = "stdout" ->
  parse_fd_number event w = Ok STDOUT_FILENO w.
Proof.
  intros H. unfold parse_fd_number.
  now rewrite (proj2 (strcmp_eq_literal _ "stdout" eq_refl) H).
Qed.

Lemma parse_fd_number_stderr (event : yaml_event_t) (w : world OS) :
  cstr (scalar_value event) = "stderr" ->
  parse_fd_number event w = Ok STDOUT_FILENO w.
Proof.
  intros H. unfold parse_fd_number.
  assert (N : strcmp_eq (scalar_value event) "stdout" = false).
  { apply (strcmp_eq_false _ "stdout" eq_refl). rewrite H. discriminate. }
  rewrite N.
  now rewrite (proj2 (strcmp_eq_literal _ "stderr" eq_refl) H).
Qed.

(** A number that resolves leaves the world as it was; a token that does
    not resolve ends the run before anything else happens. *)
Lemma parse_fd_number_cases (event : yaml_event_t) (w : world OS) :
  (exists fd, parse_fd_number event w = Ok fd w)
  \/ parse_fd_number event w
     = Exit 127 (failed event "Invalid file descriptor number" w).
Proof.
  unfold parse_fd_number.
  destruct (strcmp_eq _ "stdout"); [left; eexists; reflexivity|].
  destruct (strcmp_eq _ "stderr"); [left; eexists; reflexivity|].
  destruct (_ || _ || _); [right; reflexivity | left; eexists; reflexivity].
Qed.

Lemma parse_fd_after_number (event : yaml_event_t) (w : world OS) (fd : Z) :
  parse_fd_number event w = Ok fd w ->
  parse_fd event w
  = if fst (sys_fstat (w_os w) fd) =? 0
    then Ok (AD_FD fd) (called w (Call_fstat fd))
    else Exit 127
           (failed event
              ("File descriptor " ++ decimal fd ++ ": "
               ++ strerror (snd (sys_fstat (w_os w) fd)))
              (called w (Call_fstat fd))).
Proof.
  intros H. unfold parse_fd, bind. rewrite H.
  unfold fstat, observe. simpl.
  destruct (fst (sys_fstat (w_os w) fd) =? 0); reflexivity.
Qed.

(** C3.  The tokens [stdout] and [stderr] both resolve to the descriptor
    number of standard output, and where that descriptor is open in the
    launching process both produce an Fd node embedding it. *)
Theorem stdout_and_stderr_share_a_descriptor
    (out err : yaml_event_t) (w : world OS) :
  scalar_value out = "stdout" ->
  scalar_value err = "stderr" ->
  fst (sys_fstat (w_os w) STDOUT_FILENO) = 0 ->
  parse_fd_number out w = Ok STDOUT_FILENO w
  /\ parse_fd_number err w = Ok STDOUT_FILENO w
  /\ parse_fd out w
     = Ok (AD_FD STDOUT_FILENO) (called w (Call_fstat STDOUT_FILENO))
  /\ parse_fd err w
     = Ok (AD_FD STDOUT_FILENO) (called w (Call_fstat STDOUT_FILENO)).
Proof.
  intros Hout Herr Hopen.
  assert (N1 := parse_fd_number_stdout out w ltac:(now rewrite Hout)).
  assert (N2 := parse_fd_number_stderr err w ltac:(now rewrite Herr)).
  repeat split; try assumption.
  - rewrite (parse_fd_after_number out w _ N1), Hopen. reflexivity.
  - rewrite (parse_fd_after_number err w _ N2), Hopen. reflexivity.
Qed.

(** C6.  Once the token of an existing-descriptor reference has resolved
    to a number, the descriptor is probed with [fstat]: if the probe
    succeeds the result is the Fd node embedding exactly that number; if
    it fails the run ends with status 127 and a message naming the
    descriptor, and no node is produced. *)
Theorem parse_fd_probes_the_descriptor
    (event : yaml_event_t) (w : world OS) (fd : Z) :
  parse_fd_number event w = Ok fd w ->
  (fst (sys_fstat (w_os w) fd) = 0 ->
   parse_fd event w = Ok (AD_FD fd) (called w (Call_fstat fd)))
  /\ (fst (sys_fstat (w_os w) fd) <> 0 ->
      parse_fd event w
      = Exit 127
          (failed event
             ("File descriptor " ++ decimal fd ++ ": "
              ++ strerror (snd (sys_fstat (w_os w) fd)))
             (called w (Call_fstat fd)))
      /\ forall ad w', parse_fd event w <> Ok ad w').
Proof.
  intros H. rewrite (parse_fd_after_number event w fd H). split.
  - intros E. now rewrite E.
  - intros N. apply Z.eqb_neq in N. rewrite N. split; [reflexivity|].
    intros ad w'. discriminate.
Qed.

(** A token other than the two names is handed to [strtoul]. *)
Lemma parse_fd_number_converts (event : yaml_event_t) (w : world OS) (fd : Z) :
  cstr (scalar_value event) <> "stdout" ->
  cstr (scalar_value event) <> "stderr" ->
  parse_fd_number event w = Ok fd w
  <-> (conv_errno (strtoul noconv_errno (scalar_value event) 10) = 0
       /\ conv_end (strtoul noconv_errno (scalar_value event) 10)
          = String.length (scalar_value event)
       /\ conv_value (strtoul noconv_errno (scalar_value event) 10) = fd
       /\ fd <= INT_MAX).
Proof.
  intros Nout Nerr. unfold parse_fd_number, scalar_length.
  rewrite (proj2 (strcmp_eq_false _ "stdout" eq_refl) Nout).
  rewrite (proj2 (strcmp_eq_false _ "stderr" eq_refl) Nerr).
  set (conv := strtoul noconv_errno (scalar_value event) 10).
  destruct (Z.eqb_spec (conv_errno conv) 0) as [He|He]; cbn [negb orb];
    [|split; [discriminate | tauto]].
  destruct (Nat.eqb_spec (conv_end conv) (String.length (scalar_value event)))
    as [Hend|Hend]; cbn [negb orb]; [|split; [discriminate | tauto]].
  destruct (Z.ltb_spec INT_MAX (conv_value conv)) as [Hfd|Hfd].
  - split; [discriminate|]. intros (_ & _ & <- & H). lia.
  - split.
    + intros H. injection H as <-. tauto.
    + intros (_ & _ & <- & _). reflexivity.
Qed.

(** C9, as amended.  A token of an existing-descriptor reference that is
    not one of the names [stdout] and [stderr] (read as a C string) goes
    through [strtoul] in base 10.  It resolves to a number, and the probe
    is reached, exactly when it is a numeral in that syntax: optional
    white space, an optional plus or minus sign, one or more decimal
    digits denoting at most [ULONG_MAX], and a value (negated modulo 2^64
    after a minus sign) of at most [INT_MAX]; or when it is empty and the
    C library reports no error for an empty subject.  Every other token
    ends the run with status 127 and the message of an invalid descriptor
    number, and no call has been made by then. *)
Theorem parse_fd_number_takes_numerals (event : yaml_event_t) (w : world OS) :
  cstr (scalar_value event) <> "stdout" ->
  cstr (scalar_value event) <> "stderr" ->
  (forall fd,
      parse_fd_number event w = Ok fd w
      <-> (fd_numeral (scalar_value event) fd
           \/ (noconv_errno = 0 /\ scalar_value event = EmptyString
               /\ fd = 0)))
  /\ ((forall fd,
          ~ (fd_numeral (scalar_value event) fd
             \/ (noconv_errno = 0 /\ scalar_value event = EmptyString
                 /\ fd = 0))) ->
      parse_fd event w
      = Exit 127 (failed event "Invalid file descriptor number" w)
      /\ w_calls (failed event "Invalid file descriptor number" w)
         = w_calls w).
Proof.
  intros Nout Nerr.
  assert (iff : forall fd,
             parse_fd_number event w = Ok fd w
             <-> (fd_numeral (scalar_value event) fd
                  \/ (noconv_errno = 0 /\ scalar_value event = EmptyString
                      /\ fd = 0))).
  { intros fd. rewrite (parse_fd_number_converts event w fd Nout Nerr).
    apply strtoul_accepts. }
  split; [exact iff|].
  intros No. split; [|reflexivity].
  destruct (parse_fd_number_cases event w) as [[fd H]|H].
  - exfalso. apply (No fd). now apply iff.
  - unfold parse_fd, bind. now rewrite H.
Qed.

(** The base test of [parse_int] on the first two bytes is the prefix
    test. *)
Lemma parse_int_base (token : string) (c : ascii) :
  Ascii.eqb NUL c = false ->
  Ascii.eqb (char_at token 0) "0" && Ascii.eqb (char_at token 1) c
  = String.prefix (String "0" (String c EmptyString)) token.
Proof.
  intros Hc. unfold char_at.
  destruct token as [|c0 [|c1 r]]; cbn [String.get String.prefix].
  - reflexivity.
  - destruct (ascii_dec "0" c0) as [<-|N].
    + rewrite Hc. reflexivity.
    + destruct (Ascii.eqb_spec c0 "0"); [congruence | reflexivity].
  - destruct (ascii_dec "0" c0) as [<-|N].
    + rewrite Ascii.eqb_refl. cbn [andb].
      destruct (ascii_dec c c1) as [<-|N].
      * rewrite Ascii.eqb_refl. now destruct r.
      * destruct (Ascii.eqb_spec c1 c); [congruence | reflexivity].
    + destruct (Ascii.eqb_spec c0 "0"); [congruence | reflexivity].
Qed.

Lemma prefix_length (p token : string) :
  String.prefix p token = true ->
  String.length token
  = (String.length p + String.length (advance (String.length p) token))%nat.
Proof.
  revert token. induction p as [|a p IH]; intros token H.
  - now destruct token.
  - destruct token as [|b token]; [discriminate|].
    cbn [String.prefix] in H. destruct (ascii_dec a b); [|discriminate].
    cbn [String.length advance Nat.add]. f_equal. now apply IH.
Qed.

Lemma parse_int_decodes (event : yaml_event_t) (w : world OS) :
  parse_int event w
  = match int_of_token noconv_errno (scalar_value event) with
    | Some v => Ok (AD_INT v) w
    | None => Exit 127 (failed event "Invalid integer value" w)
    end.
Proof.
  unfold parse_int, int_of_token, int_base, converts_whole, scalar_length.
  set (token := scalar_value event).
  rewrite (parse_int_base token "o" eq_refl).
  rewrite (parse_int_base token "x" eq_refl).
  destruct (String.prefix "0o" token) eqn:Ho.
  - rewrite (prefix_length "0o" token Ho).
    cbn [String.length Nat.add Nat.eqb].
    destruct (_ && _); [reflexivity|]. destruct (_ && _); reflexivity.
  - destruct (String.prefix "0x" token) eqn:Hx.
    + rewrite (prefix_length "0x" token Hx).
      cbn [String.length Nat.add Nat.eqb].
      destruct (_ && _); [reflexivity|]. destruct (_ && _); reflexivity.
    + cbn [advance Nat.add].
      destruct (_ && _); [reflexivity|]. destruct (_ && _); reflexivity.
Qed.

(** C4.  An int-tagged scalar is decoded as the design document says: a
    leading [0o] selects base 8 and a leading [0x] base 16, otherwise the
    base is 10; the rest of the token is converted as a signed number, and
    that value is the result when the conversion reports no range error
    and reaches the end of the token; otherwise it is converted as an
    unsigned number under the same condition; when neither conversion
    qualifies the run ends with status 127 and the message of an invalid
    integer value.  The tokens 42, 0x1F, 0o17 and -5 give 42, 31, 15 and
    -5; a plain decimal literal gives the number it denotes when that is at
    most [UINTMAX_MAX], and is rejected when it exceeds both ranges. *)
Theorem parse_int_follows_the_design (event : yaml_event_t) (w : world OS) :
  parse_int event w
  = match int_of_token noconv_errno (scalar_value event) with
    | Some v => Ok (AD_INT v) w
    | None => Exit 127 (failed event "Invalid integer value" w)
    end
  /\ (forall tag mark,
        parse_int (scalar_event tag "42" mark) w = Ok (AD_INT 42) w
        /\ parse_int (scalar_event tag "0x1F" mark) w = Ok (AD_INT 31) w
        /\ parse_int (scalar_event tag "0o17" mark) w = Ok (AD_INT 15) w
        /\ parse_int (scalar_event tag "-5" mark) w = Ok (AD_INT (-5)) w)
  /\ (forall tag mark digits,
        digits <> EmptyString ->
        all_chars is_decimal_digit digits = true ->
        parse_int (scalar_event tag digits mark) w
        = if decimal_value digits 0 <=? UINTMAX_MAX
          then Ok (AD_INT (decimal_value digits 0)) w
          else Exit 127
                 (failed (scalar_event tag digits mark)
                         "Invalid integer value" w)).
Proof.
  split; [apply parse_int_decodes|].
  split; [intros tag mark; repeat split; reflexivity|].
  intros tag mark digits Hne Hd. rewrite parse_int_decodes.
  cbn [scalar_value scalar_event].
  rewrite (int_of_token_decimal noconv_errno digits Hne Hd).
  now destruct (decimal_value digits 0 <=? UINTMAX_MAX).
Qed.

(** *** Sockets *)

(** C5.  For a bind string that is not a path and splits into a host and
    a service, the host is resolved by one call of [getaddrinfo] whose
    hint carries the socket type chosen by the [type] attribute.  When the
    resolution fails, which is how a name without any address is
    reported, the run ends with status 127 and a message naming the bind
    string; when it yields two addresses or more, the run ends likewise,
    saying that the bind string resolves to multiple addresses; with
    exactly one address the socket is created for it. *)
Theorem parse_socket_requires_one_address
    (event : yaml_event_t) (typestr bindstr hostname servname : string)
    (ty : sock_type) (w : world OS) :
  parse_socket_type event typestr w = Ok ty w ->
  Ascii.eqb (char_at bindstr 0) "/" = false ->
  split_address bindstr = Some (hostname, servname) ->
  let hint := {| ai_family := AF_UNSPEC; ai_socktype := ty |} in
  let resolution := sys_getaddrinfo (w_os w) hostname servname hint in
  let w1 := called w (Call_getaddrinfo hostname servname hint) in
  (fst resolution <> 0 ->
   parse_socket_open event typestr (Some bindstr) w
   = Exit 127
       (failed event
          ("Failed to resolve " ++ cstr bindstr ++ ": "
           ++ gai_strerror (fst resolution)) w1))
  /\ (fst resolution = 0 ->
      (2 <= List.length (snd resolution))%nat ->
      parse_socket_open event typestr (Some bindstr) w
      = Exit 127
          (failed event (cstr bindstr ++ " resolves to multiple addresses")
                  w1))
  /\ (fst resolution = 0 ->
      forall res0, snd resolution = [res0] ->
      parse_socket_open event typestr (Some bindstr) w
      = parse_socket_create event ty bindstr (ai_addr res0)
                            (ai_addrlen res0) w1).
Proof.
  intros Hty Hpath Hsplit hint resolution w1.
  assert (E : parse_socket_open event typestr (Some bindstr) w
              = bind (parse_socket_address event ty bindstr)
                     (fun a => parse_socket_create event ty bindstr
                                 (fst a) (snd a)) w).
  { unfold parse_socket_open. unfold bind at 1. now rewrite Hty. }
  rewrite E. clear E.
  unfold parse_socket_address. rewrite Hpath, Hsplit.
  unfold bind, getaddrinfo, observe. cbn [w_os called].
  fold hint. fold resolution. fold w1.
  destruct resolution as [error res]. cbn [fst snd].
  repeat split.
  - intros N. apply Z.eqb_neq in N. now rewrite N.
  - intros -> L. destruct res as [|res0 [|res1 res]]; cbn in L; try lia.
    reflexivity.
  - intros -> res0 ->. reflexivity.
Qed.

(** *** Generic maps *)

Lemma parse_map_entries_collects (po : M (option argdata_t))
    (w w1 w2 : world OS) keys values :
  entries_parsed po w keys values w1 ->
  po w1 = Ok None w2 ->
  forall n keys0 values0,
    (List.length keys < n)%nat ->
    parse_map_entries po n keys0 values0 w
    = Ok (AD_MAP (keys0 ++ keys) (values0 ++ values))%list w2.
Proof.
  intros H Hend.
  induction H as [w|w wa wb w3 key value keys values Hk Hv _ IH];
    intros n keys0 values0 Hn;
    (destruct n as [|n]; [cbn in Hn; lia|]); cbn [parse_map_entries].
  - unfold bind. rewrite Hend. now rewrite !app_nil_r.
  - unfold bind. rewrite Hk, Hv. fold (@bind OS).
    rewrite (IH Hend n) by (cbn in Hn; lia).
    now rewrite <- !app_assoc.
Qed.

Lemma parse_map_entries_returns (po : M (option argdata_t)) (n : nat) :
  forall keys0 values0 w ad w2,
    parse_map_entries po n keys0 values0 w = Ok ad w2 ->
    exists keys values w1,
      ad = AD_MAP (keys0 ++ keys)%list (values0 ++ values)%list
      /\ entries_parsed po w keys values w1
      /\ po w1 = Ok None w2.
Proof.
  induction n as [|n IH]; intros keys0 values0 w ad w2;
    cbn [parse_map_entries]; [discriminate|].
  unfold bind.
  destruct (po w) as [[key|] wa| | |] eqn:Hk; try discriminate.
  - destruct (po wa) as [value wb| | |] eqn:Hv; try discriminate.
    intros H. apply IH in H as (keys & values & w1 & -> & Hp & Hend).
    exists (key :: keys), (value :: values), w1.
    rewrite <- !app_assoc. repeat split; [|assumption].
    now apply (parsed_more po w wa wb w1 key value).
  - intros H. injection H as <- <-.
    exists [], [], w. rewrite !app_nil_r.
    repeat split; [constructor | assumption].
Qed.

Lemma parse_map_entries_exits (po : M (option argdata_t)) (n : nat) :
  forall keys0 values0 w status w',
    parse_map_entries po n keys0 values0 w = Exit status w' ->
    exists w0, po w0 = Exit status w'.
Proof.
  induction n as [|n IH]; intros keys0 values0 w status w';
    cbn [parse_map_entries]; [discriminate|].
  unfold bind.
  destruct (po w) as [[key|] wa|st wa| |] eqn:Hk; try discriminate.
  - destruct (po wa) as [value wb|st wb| |] eqn:Hv; try discriminate.
    + apply IH.
    + intros H. injection H as <- <-. now exists wa.
  - intros H. injection H as <- <-. now exists w.
Qed.

Lemma parse_object_generic_map (fuel : nat) (event : yaml_event_t)
    (w w0 : world OS) :
  get_event w = Ok event w0 ->
  event_type event = YAML_MAPPING_START_EVENT ->
  (scalar_tag event = None
   \/ exists tag, scalar_tag event = Some tag /\ cstr tag = YAML_MAP_TAG) ->
  parse_object (S fuel) w
  = bind (parse_map (parse_object fuel) fuel) (fun ad => ret (Some ad)) w0.
Proof.
  intros Hev Hty Htag. cbn [parse_object]. unfold bind at 1.
  rewrite Hev, Hty.
  destruct Htag as [->|(tag & -> & Htag)]; [reflexivity|].
  cbn [is_null orb tag_is].
  now rewrite (proj2 (strcmp_eq_literal tag YAML_MAP_TAG eq_refl) Htag).
Qed.

(** C1, as amended.  For a generic mapping, one whose start event has no
    tag or the map tag, the builder parses a key node and then a value
    node until the end of the collection, and returns the Map of exactly
    those keys and values, in order.  The keys are not examined: the Map
    is returned whatever nodes the keys are, every returned Map arises
    this way, and a fatal exit can only be one raised while a key or a
    value was being parsed. *)
Theorem generic_map_keeps_every_key (fuel : nat) (event : yaml_event_t)
    (w w0 : world OS) :
  get_event w = Ok event w0 ->
  event_type event = YAML_MAPPING_START_EVENT ->
  (scalar_tag event = None
   \/ exists tag, scalar_tag event = Some tag /\ cstr tag = YAML_MAP_TAG) ->
  (forall keys values w1 w2,
      entries_parsed (parse_object fuel) w0 keys values w1 ->
      parse_object fuel w1 = Ok None w2 ->
      (List.length keys < fuel)%nat ->
      parse_object (S fuel) w = Ok (Some (AD_MAP keys values)) w2)
  /\ (forall ad w2,
        parse_object (S fuel) w = Ok ad w2 ->
        exists keys values w1,
          ad = Some (AD_MAP keys values)
          /\ entries_parsed (parse_object fuel) w0 keys values w1
          /\ parse_object fuel w1 = Ok None w2)
  /\ (forall status w',
        parse_object (S fuel) w = Exit status w' ->
        exists w1, parse_object fuel w1 = Exit status w').
Proof.
  intros Hev Hty Htag.
  rewrite (parse_object_generic_map fuel event w w0 Hev Hty Htag).
  unfold parse_map, bind. repeat split.
  - intros keys values w1 w2 Hp Hend Hn.
    now rewrite (parse_map_entries_collects _ _ _ _ _ _ Hp Hend fuel [] [] Hn).
  - intros ad w2.
    destruct (parse_map_entries _ _ _ _ _) as [m wm| | |] eqn:E;
      try discriminate.
    intros H. injection H as <- <-.
    apply parse_map_entries_returns in E as (keys & values & w1 & -> & Hp & He).
    now exists keys, values, w1.
  - intros status w'.
    destruct (parse_map_entries _ _ _ _ _) as [m wm|st wm| |] eqn:E;
      try discriminate.
    intros H. injection H as <- <-.
    now apply parse_map_entries_exits in E.
Qed.

(** *** No exit but with status 127, and no end of the bound *)

Section Dispositions.
Variable undef : Prop.

Local Abbreviation sound := (@sound OS undef).
Local Abbreviation steady := (@steady OS undef).

Lemma sound_bind {A B} (m : M A) (k : A -> M B) (w : world OS)
    (Q : A -> world OS -> Prop) (R : B -> world OS -> Prop) :
  sound (m w) Q ->
  (forall a w', Q a w' -> sound (k a w') R) ->
  sound (bind m k w) R.
Proof. unfold bind. destruct (m w); simpl; auto. Qed.

Lemma sound_weaken {A} (o : outcome OS A) (Q R : A -> world OS -> Prop) :
  sound o Q -> (forall a w, Q a w -> R a w) -> sound o R.
Proof. destruct o; simpl; auto. Qed.

Lemma sound_exit_parse_error {A} (event : yaml_event_t) (message : string)
    (w : world OS) (post : A -> world OS -> Prop) :
  sound (exit_parse_error event message w) post.
Proof. reflexivity. Qed.

Lemma steady_bind {A B} (m : M A) (k : A -> M B) :
  steady m -> (forall a, steady (k a)) -> steady (bind m k).
Proof.
  intros Hm Hk w. eapply sound_bind; [apply Hm|].
  intros a w' E. eapply sound_weaken; [apply Hk|].
  cbn beta. intros _ w'' E'. congruence.
Qed.

Lemma steady_ret {A} (a : A) : steady (ret (OS:=OS) a).
Proof. intros w. reflexivity. Qed.

Lemma steady_exit {A} : steady (exit (OS:=OS) (A:=A) 127).
Proof. intros w. reflexivity. Qed.

Lemma steady_undefined {A} : undef -> steady (undefined (OS:=OS) (A:=A)).
Proof. intros H w. exact H. Qed.

Lemma steady_eprint (s : string) : steady (eprint (OS:=OS) s).
Proof. intros w. reflexivity. Qed.

Lemma steady_exit_parse_error {A} (event : yaml_event_t) (message : string) :
  steady (exit_parse_error (OS:=OS) (A:=A) event message).
Proof. intros w. reflexivity. Qed.

Lemma steady_observe {A} (c : call) (f : OS -> A) : steady (observe c f).
Proof. intros w. reflexivity. Qed.

Lemma steady_syscall {A} (c : call) (f : OS -> A * OS) :
  steady (syscall c f).
Proof. intros w. unfold syscall. now destruct (f (w_os w)). Qed.

End Dispositions.

Ltac steady_step :=
  first
    [ apply steady_bind; [|intros ?]
    | apply steady_ret
    | apply steady_exit
    | apply steady_undefined; exact I
    | apply steady_eprint
    | apply steady_exit_parse_error
    | apply steady_observe
    | apply steady_syscall
    | match goal with
      | |- @steady _ _ _ (if ?b then _ else _) => destruct b
      | |- @steady _ _ _ (match ?x with _ => _ end) => destruct x
      | |- @steady _ _ _ (let '(_, _) := ?x in _) => destruct x
      end ].

Ltac steady_tac := repeat steady_step.

Ltac case_test :=
  match goal with
  | |- @sound _ _ _ ((if ?b then _ else _) _) _ => destruct b
  end.

Lemma next_event_shorter (parser rest : yaml_parser_t) (event : yaml_event_t) :
  next_event parser = inl (event, rest) ->
  (List.length rest < List.length parser)%nat
  \/ event_type event = YAML_NO_EVENT.
Proof.
  induction parser as [|step parser IH]; cbn [next_event].
  - intros H. injection H as <- <-. now right.
  - destruct step as [e|mark]; [|discriminate].
    destruct (event_type e) eqn:E;
      try (intros H; injection H as <- <-; left; cbn; lia);
      intros H; destruct (IH H) as [L|R];
      [left; cbn; lia | now right | left; cbn; lia | now right].
Qed.

Section Leaves.
Variable undef : Prop.

Local Abbreviation sound := (@sound OS undef).
Local Abbreviation steady := (@steady OS undef).

Lemma steady_parse_bool (event : yaml_event_t) : steady (parse_bool event).
Proof. unfold parse_bool. steady_tac. Qed.

Lemma steady_parse_fd (event : yaml_event_t) : steady (parse_fd event).
Proof. unfold parse_fd, parse_fd_number, fstat. steady_tac. Qed.

Lemma steady_parse_int (event : yaml_event_t) : steady (parse_int event).
Proof. unfold parse_int. steady_tac. Qed.

Lemma steady_parse_null (event : yaml_event_t) : steady (parse_null event).
Proof. unfold parse_null. steady_tac. Qed.

Lemma steady_parse_socket_create (event : yaml_event_t) (ty : sock_type)
    (bindstr : string) (sa : sockaddr) (sal : Z) :
  steady (parse_socket_create event ty bindstr sa sal).
Proof.
  unfold parse_socket_create, socket, setsockopt, bind_, listen. steady_tac.
Qed.

(** The address is parsed without undefined behaviour where the resolver
    never reports success with an empty list. *)
Lemma steady_parse_socket_address (event : yaml_event_t) (ty : sock_type)
    (bindstr : string) :
  (forall os hostname servname hint,
      sys_getaddrinfo os hostname servname hint = (0, []) -> undef) ->
  steady (parse_socket_address event ty bindstr).
Proof.
  intros Hres. unfold parse_socket_address.
  destruct (Ascii.eqb _ _); [steady_tac|].
  destruct (split_address bindstr) as [[hostname servname]|];
    [|steady_tac].
  intros w. unfold bind, getaddrinfo, observe.
  destruct (sys_getaddrinfo (w_os w) hostname servname _)
    as [error res] eqn:E.
  destruct (Z.eqb_spec error 0) as [->|N]; cbn [negb]; [|reflexivity].
  destruct res as [|res0 [|res1 res]]; [|reflexivity|reflexivity].
  exact (Hres _ _ _ _ E).
Qed.

Lemma steady_parse_socket_open (event : yaml_event_t) (typestr : string)
    (bindstr : option string) :
  (forall os hostname servname hint,
      sys_getaddrinfo os hostname servname hint = (0, []) -> undef) ->
  steady (parse_socket_open event typestr bindstr).
Proof.
  intros Hres. unfold parse_socket_open, parse_socket_type.
  repeat first
    [ apply steady_parse_socket_create
    | apply (steady_parse_socket_address _ _ _ Hres)
    | steady_step ].
Qed.

Lemma steady_open_file (event : yaml_event_t) (path : option string) :
  steady (match path with
          | None => exit_parse_error event "Missing path attribute"
          | Some path =>
              bind (open (cstr path) O_RDONLY)
                   (fun r =>
                      if fst r <? 0 then
                        exit_parse_error event
                          ("Failed to open " ++ dquote ++ cstr path ++ dquote
                           ++ ": " ++ strerror (snd r))
                      else ret (argdata_create_fd (fst r)))
          end).
Proof. unfold open. steady_tac. Qed.

Lemma steady_usage {A} : steady (usage (A:=A)).
Proof. unfold usage. steady_tac. Qed.

Lemma steady_perror (message : string) (error : Z) :
  steady (perror message error).
Proof. unfold perror. steady_tac. Qed.

Lemma steady_main_options (argv0 : string) (chars : list ascii)
    (do_emulate : bool) :
  steady (main_options argv0 chars do_emulate).
Proof.
  revert do_emulate.
  induction chars as [|c chars IH]; intros do_emulate; cbn [main_options].
  - steady_tac.
  - destruct (Ascii.eqb c "e"); [apply IH|].
    apply steady_bind; [apply steady_eprint | intros _; apply steady_usage].
Qed.

Lemma steady_fd_table_insert (i fd : Z) : steady (fd_table_insert i fd).
Proof.
  intros w. unfold fd_table_insert.
  now destruct (fd_table_insert_existing (w_os w) i fd) as [[ok error] os'].
Qed.

Lemma steady_register_fds (fds : list Z) (i : Z) :
  steady (register_fds i fds).
Proof.
  revert i. induction fds as [|fd fds IH]; intros i; cbn [register_fds].
  - steady_tac.
  - apply steady_bind; [apply steady_fd_table_insert|]. intros r.
    destruct (negb (fst r)); [|apply IH].
    apply steady_bind; [apply steady_perror | intros _; apply steady_exit].
Qed.

Lemma steady_malloc (size : Z) : steady (malloc size).
Proof. intros w. reflexivity. Qed.

Lemma steady_run_emulate (fd : Z) (buf : list Byte.byte) (buflen : Z) :
  steady (run_emulate fd buf buflen).
Proof. intros w. reflexivity. Qed.

Lemma steady_run_program_exec (fd : Z) (ad : argdata_t) :
  steady (run_program_exec fd ad).
Proof. intros w. reflexivity. Qed.

Lemma steady_main_emulate (executable : string) (ad : argdata_t) :
  steady (main_emulate executable (Some ad)).
Proof.
  unfold main_emulate, open.
  repeat first
    [ apply steady_perror | apply steady_register_fds | apply steady_malloc
    | apply steady_run_emulate | steady_step ].
Qed.

Lemma steady_main_exec (executable : string) (ad : argdata_t) :
  steady (main_exec executable (Some ad)).
Proof.
  unfold main_exec, open. cbv beta iota.
  repeat first
    [ apply steady_perror | apply steady_run_program_exec | steady_step ].
Qed.

Lemma sound_get_event (w : world OS) :
  sound (get_event w)
        (fun event w' =>
           (List.length (w_parser w') < List.length (w_parser w))%nat
           \/ event_type event = YAML_NO_EVENT).
Proof.
  unfold get_event.
  destruct (next_event (w_parser w)) as [[event rest]|mark] eqn:E.
  - cbn. exact (next_event_shorter _ _ _ E).
  - reflexivity.
Qed.

End Leaves.

Local Abbreviation sound := (@sound OS True).
Local Abbreviation steady := (@steady OS True).

Lemma advancing_then_steady {A B} (n : nat) (m : M A) (k : A -> M B) :
  advancing n m -> (forall a, steady (k a)) -> advancing n (bind m k).
Proof.
  intros Hm Hk w Hw. eapply sound_bind; [now apply Hm|].
  cbn beta. intros a w' L. eapply sound_weaken; [apply Hk|].
  cbn beta. intros _ w'' E. now rewrite E.
Qed.

Section Loops.
Variables (N : nat) (po : M (option argdata_t)).
Hypothesis po_advancing : advancing N po.

Lemma advancing_parse_map_entries (n : nat) :
  (n <= N)%nat ->
  forall keys values, advancing n (parse_map_entries po n keys values).
Proof.
  induction n as [|n IH]; intros Hn keys values w Hw; [lia|].
  cbn [parse_map_entries].
  eapply sound_bind; [apply po_advancing; lia|].
  cbn beta. intros [key|] w1 H1; [|exact H1].
  eapply sound_bind; [apply po_advancing; lia|].
  cbn beta. intros value w2 H2.
  eapply sound_weaken; [apply IH; lia|].
  cbn beta. intros _ w3 H3. lia.
Qed.

Lemma advancing_parse_seq_entries (n : nat) :
  (n <= N)%nat ->
  forall entries, advancing n (parse_seq_entries po n entries).
Proof.
  induction n as [|n IH]; intros Hn entries w Hw; [lia|].
  cbn [parse_seq_entries].
  eapply sound_bind; [apply po_advancing; lia|].
  cbn beta. intros [ad|] w1 H1; [|exact H1].
  eapply sound_weaken; [apply IH; lia|].
  cbn beta. intros _ w2 H2. lia.
Qed.

Lemma advancing_parse_file_attributes (n : nat) :
  (n <= N)%nat ->
  forall event path, advancing n (parse_file_attributes po n event path).
Proof.
  induction n as [|n IH]; intros Hn event path w Hw; [lia|].
  cbn [parse_file_attributes].
  eapply sound_bind; [apply po_advancing; lia|].
  cbn beta. intros [key|] w1 H1; [|exact H1].
  destruct (argdata_get_str_c key) as [error keystr].
  destruct (negb (error =? 0)); [reflexivity|].
  eapply sound_bind; [apply po_advancing; lia|].
  cbn beta. intros value w2 H2.
  destruct (strcmp_eq keystr "path"); [|reflexivity].
  destruct value as [value|]; [|exact I].
  destruct (argdata_get_str_c value) as [error' path'].
  destruct (negb (error' =? 0)); [reflexivity|].
  eapply sound_weaken; [apply IH; lia|].
  cbn beta. intros _ w3 H3. lia.
Qed.

Lemma advancing_parse_socket_attributes (n : nat) :
  (n <= N)%nat ->
  forall event typestr bindstr,
    advancing n (parse_socket_attributes po n event typestr bindstr).
Proof.
  induction n as [|n IH]; intros Hn event typestr bindstr w Hw; [lia|].
  cbn [parse_socket_attributes].
  eapply sound_bind; [apply po_advancing; lia|].
  cbn beta. intros [key|] w1 H1; [|exact H1].
  destruct (argdata_get_str_c key) as [error keystr].
  destruct (negb (error =? 0)); [reflexivity|].
  eapply sound_bind; [apply po_advancing; lia|].
  cbn beta. intros value w2 H2.
  destruct (strcmp_eq keystr "type").
  - destruct value as [value|]; [|exact I].
    destruct (argdata_get_str_c value) as [error' typestr'].
    destruct (negb (error' =? 0)); [reflexivity|].
    eapply sound_weaken; [apply IH; lia|].
    cbn beta. intros _ w3 H3. lia.
  - destruct (strcmp_eq keystr "bind"); [|reflexivity].
    destruct value as [value|]; [|exact I].
    destruct (argdata_get_str_c value) as [error' bindstr'].
    destruct (negb (error' =? 0)); [reflexivity|].
    eapply sound_weaken; [apply IH; lia|].
    cbn beta. intros _ w3 H3. lia.
Qed.

Lemma advancing_parse_file (event : yaml_event_t) :
  advancing N (parse_file po N event).
Proof.
  unfold parse_file. apply advancing_then_steady.
  - now apply advancing_parse_file_attributes.
  - intros path. unfold open. steady_tac.
Qed.

Lemma advancing_parse_socket (event : yaml_event_t) :
  advancing N (parse_socket po N event).
Proof.
  unfold parse_socket. apply advancing_then_steady.
  - now apply advancing_parse_socket_attributes.
  - intros attrs. apply steady_parse_socket_open. trivial.
Qed.
End Loops.

(** [parse_object] with more fuel than there are pending steps never
    reaches the bound, exits with status 127 only, and has consumed at
    least one step when it returns. *)
Lemma advancing_parse_object (fuel : nat) : advancing fuel (parse_object fuel).
Proof.
  induction fuel as [|fuel IH]; intros w Hw; [lia|].
  cbn [parse_object].
  eapply sound_bind; [apply sound_get_event|].
  cbn beta. intros event w0 H0.
  destruct (event_type event) eqn:E;
    try (apply sound_exit_parse_error);
    destruct H0 as [H0|H0]; try discriminate.
  - (* stream start *)
    eapply sound_weaken; [apply IH; lia|]. cbn beta. intros _ w1 H1. lia.
  - (* document start *)
    eapply sound_weaken; [apply IH; lia|]. cbn beta. intros _ w1 H1. lia.
  - (* scalar *)
    assert (S0 : forall m : M (option argdata_t), steady m ->
              sound (m w0)
                (fun _ w' => (List.length (w_parser w')
                              < List.length (w_parser w))%nat)).
    { intros m Hm. eapply sound_weaken; [apply Hm|].
      cbn beta. intros _ w1 E1. rewrite E1. exact H0. }
    apply S0.
    repeat first
      [ apply steady_parse_bool | apply steady_parse_int
      | apply steady_parse_null | apply steady_parse_fd | steady_step ].
  - (* sequence start *)
    case_test; [|apply sound_exit_parse_error].
    eapply sound_bind.
    + apply (advancing_parse_seq_entries fuel _ IH fuel (le_n _)). lia.
    + cbn beta. intros ad w1 H1. cbn. lia.
  - (* sequence end *) cbn. exact H0.
  - (* mapping start *)
    case_test; [|case_test; [|case_test; [|apply sound_exit_parse_error]]].
    + eapply sound_bind.
      * apply (advancing_parse_map_entries fuel _ IH fuel (le_n _)). lia.
      * cbn beta. intros ad w1 H1. cbn. lia.
    + eapply sound_bind.
      * apply (advancing_parse_file fuel _ IH). lia.
      * cbn beta. intros ad w1 H1. cbn. lia.
    + eapply sound_bind.
      * apply (advancing_parse_socket fuel _ IH). lia.
      * cbn beta. intros ad w1 H1. cbn. lia.
  - (* mapping end *) cbn. exact H0.
Qed.

(** The bound that [main] uses is enough for any input. *)
Lemma sound_parse_object_top (w : world OS) :
  sound (parse_object_top w)
    (fun _ w' => (List.length (w_parser w') < List.length (w_parser w))%nat).
Proof. apply advancing_parse_object. lia. Qed.

(** *** Input as the tokenizer nests it *)

Lemma node_events_nonempty (node : yaml_parser_t) :
  node_events node -> (0 < List.length node)%nat.
Proof. intros H. destruct H; cbn; lia. Qed.

Lemma get_event_produce (w : world OS) (event : yaml_event_t)
    (rest : yaml_parser_t) :
  w_parser w = Produce event :: rest ->
  event_type event <> YAML_DOCUMENT_END_EVENT ->
  event_type event <> YAML_STREAM_END_EVENT ->
  get_event w = Ok event (with_parser w rest).
Proof.
  intros Hw N1 N2. unfold get_event. rewrite Hw. cbn [next_event].
  destruct (event_type event); congruence.
Qed.

Lemma get_event_fail (w : world OS) (mark : yaml_mark_t)
    (rest : yaml_parser_t) :
  w_parser w = Fail mark :: rest ->
  exists w', get_event w = Exit 127 w'.
Proof.
  intros Hw. unfold get_event. rewrite Hw. cbn [next_event].
  eexists. reflexivity.
Qed.

Section Conforming.
(** POSIX: [getaddrinfo] does not report success with an empty list. *)
Hypothesis resolver_conforms :
  forall os hostname servname hint,
    sys_getaddrinfo os hostname servname hint = (0, []) -> False.

Section Nesting.
Variables (N : nat) (po : M (option argdata_t)).

Hypothesis po_node :
  forall node rest w,
    node_events node ->
    w_parser w = (node ++ rest)%list ->
    (List.length (w_parser w) < N)%nat ->
    strict (po w) (lands rest).
Hypothesis po_cut :
  forall inner w,
    cut_events inner ->
    w_parser w = inner ->
    (List.length (w_parser w) < N)%nat ->
    strict (po w) (fun _ _ => False).
Hypothesis po_stop :
  forall stop rest w,
    event_type stop = YAML_SEQUENCE_END_EVENT
    \/ event_type stop = YAML_MAPPING_END_EVENT ->
    w_parser w = Produce stop :: rest ->
    (List.length (w_parser w) < N)%nat ->
    po w = Ok None (with_parser w rest).

(** One call of [po] on a node that is followed by [after]. *)
Lemma po_takes_node (node after : yaml_parser_t) (w : world OS) {B}
    (k : option argdata_t -> M B) (post : B -> world OS -> Prop) :
  node_events node ->
  w_parser w = (node ++ after)%list ->
  (List.length (w_parser w) < N)%nat ->
  (forall ad w1, w_parser w1 = after -> strict (k (Some ad) w1) post) ->
  strict (bind po k w) post.
Proof.
  intros Hnode Hw Hlen Hk.
  eapply sound_bind; [exact (po_node node after w Hnode Hw Hlen)|].
  intros [ad|] w1 [Hsome Hw1]; [now apply Hk | congruence].
Qed.

Lemma po_takes_cut (inner : yaml_parser_t) (w : world OS) {B}
    (k : option argdata_t -> M B) (post : B -> world OS -> Prop) :
  cut_events inner ->
  w_parser w = inner ->
  (List.length (w_parser w) < N)%nat ->
  strict (bind po k w) post.
Proof.
  intros Hcut Hw Hlen.
  eapply sound_bind; [exact (po_cut inner w Hcut Hw Hlen)|].
  intros ad w1 [].
Qed.

Ltac split_checks :=
  repeat (cbv beta iota;
          match goal with
          | |- strict ((match ?x with _ => _ end) _) _ => destruct x
          | |- strict (exit_parse_error _ _ _) _ =>
              apply sound_exit_parse_error
          end).

Lemma strict_seq_at_cut (inner : yaml_parser_t) (n : nat) entries
    (w : world OS) :
  cut_events inner ->
  w_parser w = inner ->
  (List.length (w_parser w) < n)%nat ->
  (n <= N)%nat ->
  strict (parse_seq_entries po n entries w) (leaves None).
Proof.
  intros Hcut Hw Hlen Hn. destruct n as [|n]; [lia|].
  cbn [parse_seq_entries].
  apply (po_takes_cut inner); [assumption | assumption | lia].
Qed.

Lemma strict_parse_seq_entries (items : yaml_parser_t) :
  items_events items ->
  forall tail rest n entries w,
    entries_tail tail rest ->
    w_parser w = (items ++ tail)%list ->
    (List.length (w_parser w) < n)%nat ->
    (n <= N)%nat ->
    strict (parse_seq_entries po n entries w) (leaves rest).
Proof.
  induction 1 as [|node items Hnode Hitems IH];
    intros tail rest n entries w Htail Hw Hlen Hn.
  - cbn [app] in Hw.
    destruct Htail as [stop rest Hstop|inner Hcut|key inner Hkey Hcut].
    + destruct n as [|n]; [lia|]. cbn [parse_seq_entries].
      unfold bind. rewrite (po_stop stop rest w Hstop Hw) by lia. reflexivity.
    + now apply (strict_seq_at_cut inner).
    + destruct n as [|n]; [lia|]. cbn [parse_seq_entries].
      apply (po_takes_node key inner); [assumption | assumption | lia |].
      intros ad w1 Hw1. cbv beta iota.
      assert (L := node_events_nonempty key Hkey).
      rewrite Hw, length_app in Hlen.
      apply (strict_seq_at_cut inner); [assumption | assumption | | lia].
      rewrite Hw1. lia.
  - destruct n as [|n]; [lia|]. cbn [parse_seq_entries].
    rewrite <- app_assoc in Hw.
    apply (po_takes_node node (items ++ tail)%list);
      [assumption | assumption | lia |].
    intros ad w1 Hw1. cbv beta iota.
    assert (L := node_events_nonempty node Hnode).
    rewrite Hw, length_app in Hlen.
    apply (IH tail rest n _ w1 Htail Hw1); [rewrite Hw1; lia | lia].
Qed.

Lemma strict_parse_map_entries (pairs : yaml_parser_t) :
  pairs_events pairs ->
  forall tail rest n keys values w,
    entries_tail tail rest ->
    w_parser w = (pairs ++ tail)%list ->
    (List.length (w_parser w) < n)%nat ->
    (n <= N)%nat ->
    strict (parse_map_entries po n keys values w) (leaves rest).
Proof.
  induction 1 as [|key value pairs Hkey Hvalue Hpairs IH];
    intros tail rest n keys values w Htail Hw Hlen Hn;
    (destruct n as [|n]; [lia|]); cbn [parse_map_entries].
  - cbn [app] in Hw.
    destruct Htail as [stop rest Hstop|inner Hcut|key inner Hkey Hcut].
    + unfold bind. rewrite (po_stop stop rest w Hstop Hw) by lia. reflexivity.
    + apply (po_takes_cut inner); [assumption | assumption | lia].
    + apply (po_takes_node key inner); [assumption | assumption | lia |].
      intros ad w1 Hw1. cbv beta iota.
      assert (L := node_events_nonempty key Hkey).
      rewrite Hw, length_app in Hlen.
      apply (po_takes_cut inner); [assumption | assumption |].
      rewrite Hw1. lia.
  - rewrite <- !app_assoc in Hw.
    assert (Lk := node_events_nonempty key Hkey).
    assert (Lv := node_events_nonempty value Hvalue).
    rewrite Hw, !length_app in Hlen.
    apply (po_takes_node key (value ++ pairs ++ tail)%list);
      [assumption | assumption | rewrite Hw, !length_app; lia |].
    intros ad w1 Hw1. cbv beta iota.
    apply (po_takes_node value (pairs ++ tail)%list);
      [assumption | assumption | rewrite Hw1, !length_app; lia |].
    intros ad' w2 Hw2.
    apply (IH tail rest n _ _ w2 Htail Hw2);
      [rewrite Hw2, !length_app; lia | lia].
Qed.

Lemma strict_parse_file_attributes (pairs : yaml_parser_t) :
  pairs_events pairs ->
  forall tail rest n event path w,
    entries_tail tail rest ->
    w_parser w = (pairs ++ tail)%list ->
    (List.length (w_parser w) < n)%nat ->
    (n <= N)%nat ->
    strict (parse_file_attributes po n event path w) (leaves rest).
Proof.
  induction 1 as [|key value pairs Hkey Hvalue Hpairs IH];
    intros tail rest n event path w Htail Hw Hlen Hn;
    (destruct n as [|n]; [lia|]); cbn [parse_file_attributes].
  - cbn [app] in Hw.
    destruct Htail as [stop rest Hstop|inner Hcut|key inner Hkey Hcut].
    + unfold bind. rewrite (po_stop stop rest w Hstop Hw) by lia. reflexivity.
    + apply (po_takes_cut inner); [assumption | assumption | lia].
    + apply (po_takes_node key inner); [assumption | assumption | lia |].
      intros ad w1 Hw1. split_checks.
      assert (L := node_events_nonempty key Hkey).
      rewrite Hw, length_app in Hlen.
      apply (po_takes_cut inner); [assumption | assumption |].
      rewrite Hw1. lia.
  - rewrite <- !app_assoc in Hw.
    assert (Lk := node_events_nonempty key Hkey).
    assert (Lv := node_events_nonempty value Hvalue).
    rewrite Hw, !length_app in Hlen.
    apply (po_takes_node key (value ++ pairs ++ tail)%list);
      [assumption | assumption | rewrite Hw, !length_app; lia |].
    intros ad w1 Hw1. split_checks.
    apply (po_takes_node value (pairs ++ tail)%list);
      [assumption | assumption | rewrite Hw1, !length_app; lia |].
    intros ad' w2 Hw2. split_checks.
    apply (IH tail rest n _ _ w2 Htail Hw2);
      [rewrite Hw2, !length_app; lia | lia].
Qed.

Lemma strict_parse_socket_attributes (pairs : yaml_parser_t) :
  pairs_events pairs ->
  forall tail rest n event typestr bindstr w,
    entries_tail tail rest ->
    w_parser w = (pairs ++ tail)%list ->
    (List.length (w_parser w) < n)%nat ->
    (n <= N)%nat ->
    strict (parse_socket_attributes po n event typestr bindstr w)
           (leaves rest).
Proof.
  induction 1 as [|key value pairs Hkey Hvalue Hpairs IH];
    intros tail rest n event typestr bindstr w Htail Hw Hlen Hn;
    (destruct n as [|n]; [lia|]); cbn [parse_socket_attributes].
  - cbn [app] in Hw.
    destruct Htail as [stop rest Hstop|inner Hcut|key inner Hkey Hcut].
    + unfold bind. rewrite (po_stop stop rest w Hstop Hw) by lia. reflexivity.
    + apply (po_takes_cut inner); [assumption | assumption | lia].
    + apply (po_takes_node key inner); [assumption | assumption | lia |].
      intros ad w1 Hw1. split_checks.
      assert (L := node_events_nonempty key Hkey).
      rewrite Hw, length_app in Hlen.
      apply (po_takes_cut inner); [assumption | assumption |].
      rewrite Hw1. lia.
  - rewrite <- !app_assoc in Hw.
    assert (Lk := node_events_nonempty key Hkey).
    assert (Lv := node_events_nonempty value Hvalue).
    rewrite Hw, !length_app in Hlen.
    apply (po_takes_node key (value ++ pairs ++ tail)%list);
      [assumption | assumption | rewrite Hw, !length_app; lia |].
    intros ad w1 Hw1. split_checks.
    apply (po_takes_node value (pairs ++ tail)%list);
      [assumption | assumption | rewrite Hw1, !length_app; lia |].
    intros ad' w2 Hw2. split_checks;
      apply (IH tail rest n _ _ _ w2 Htail Hw2);
      solve [rewrite Hw2, !length_app; lia | lia].
Qed.

Lemma leaves_steady {A B} (m : M B) (rest : option yaml_parser_t)
    (w : world OS) (a : A) :
  @strictly_steady B m ->
  leaves rest a w ->
  strict (m w) (leaves rest).
Proof.
  intros Hm Hw. eapply sound_weaken; [apply Hm|].
  cbn beta. intros b w' E. destruct rest; cbn in *; congruence.
Qed.

Lemma strict_parse_file (pairs tail : yaml_parser_t)
    (rest : option yaml_parser_t) (event : yaml_event_t) (w : world OS) :
  pairs_events pairs ->
  entries_tail tail rest ->
  w_parser w = (pairs ++ tail)%list ->
  (List.length (w_parser w) < N)%nat ->
  strict (parse_file po N event w) (leaves rest).
Proof.
  intros Hpairs Htail Hw Hlen. unfold parse_file.
  eapply sound_bind.
  - exact (strict_parse_file_attributes pairs Hpairs tail rest N event None w
             Htail Hw Hlen (le_n N)).
  - intros path w1 H1. apply (leaves_steady _ rest w1 path); [|exact H1].
    apply steady_open_file.
Qed.

Lemma strict_parse_socket (pairs tail : yaml_parser_t)
    (rest : option yaml_parser_t) (event : yaml_event_t) (w : world OS) :
  pairs_events pairs ->
  entries_tail tail rest ->
  w_parser w = (pairs ++ tail)%list ->
  (List.length (w_parser w) < N)%nat ->
  strict (parse_socket po N event w) (leaves rest).
Proof.
  intros Hpairs Htail Hw Hlen. unfold parse_socket.
  eapply sound_bind.
  - exact (strict_parse_socket_attributes pairs Hpairs tail rest N event
             "stream" None w Htail Hw Hlen (le_n N)).
  - intros attrs w1 H1. apply (leaves_steady _ rest w1 attrs); [|exact H1].
    apply steady_parse_socket_open. exact resolver_conforms.
Qed.

End Nesting.

Lemma parse_object_stop (fuel : nat) (stop : yaml_event_t)
    (rest : yaml_parser_t) (w : world OS) :
  event_type stop = YAML_SEQUENCE_END_EVENT
  \/ event_type stop = YAML_MAPPING_END_EVENT ->
  w_parser w = Produce stop :: rest ->
  (List.length (w_parser w) < fuel)%nat ->
  parse_object fuel w = Ok None (with_parser w rest).
Proof.
  intros Hstop Hw Hlen. destruct fuel as [|fuel]; [lia|].
  cbn [parse_object]. unfold bind.
  rewrite (get_event_produce w stop rest Hw)
    by (destruct Hstop as [E|E]; rewrite E; discriminate).
  destruct Hstop as [E|E]; rewrite E; reflexivity.
Qed.

Lemma lands_steady (m : M argdata_t) (rest : yaml_parser_t) (w : world OS) :
  strictly_steady m ->
  w_parser w = rest ->
  strict (bind m (fun ad => ret (Some ad)) w) (lands rest).
Proof.
  intros Hm Hw. eapply sound_bind; [apply Hm|].
  cbn beta. intros ad w' E. split; [discriminate | congruence].
Qed.

Lemma lands_collection (m : M argdata_t) (rest : yaml_parser_t)
    (w : world OS) :
  strict (m w) (leaves (Some rest)) ->
  strict (bind m (fun ad => ret (Some ad)) w) (lands rest).
Proof.
  intros Hm. eapply sound_bind; [exact Hm|].
  cbn. intros ad w' E. split; [discriminate | exact E].
Qed.

Lemma fails_collection (m : M argdata_t) (w : world OS) :
  strict (m w) (leaves None) ->
  strict (bind m (fun ad => ret (Some ad)) w) (fun _ _ => False).
Proof.
  intros Hm. eapply sound_bind; [exact Hm|]. cbn. intros ad w' [].
Qed.

Ltac case_strict :=
  match goal with
  | |- strict ((if ?b then _ else _) _) _ => destruct b
  end.

(** On the events of a node [parse_object] returns a node and leaves the
    parser behind them, or exits with status 127; on a cut beginning it
    exits with status 127.  Neither reaches undefined behaviour. *)
Lemma strict_parse_object (fuel : nat) :
  (forall node rest w,
      node_events node ->
      w_parser w = (node ++ rest)%list ->
      (List.length (w_parser w) < fuel)%nat ->
      strict (parse_object fuel w) (lands rest))
  /\ (forall inner w,
        cut_events inner ->
        w_parser w = inner ->
        (List.length (w_parser w) < fuel)%nat ->
        strict (parse_object fuel w) (fun _ _ => False)).
Proof.
  induction fuel as [|fuel [IHnode IHcut]]; [split; intros; lia|].
  assert (IHstop := parse_object_stop fuel).
  split.
  - intros node rest w Hnode Hw Hlen.
    destruct Hnode as [event Hty|event Hty|start stop items Hty Hstop Hitems
                      |start stop pairs Hty Hstop Hpairs];
      cbn [app] in Hw; try rewrite <- app_assoc in Hw; cbn [app] in Hw;
      cbn [parse_object]; unfold bind at 1;
      rewrite (get_event_produce w _ _ Hw) by (rewrite Hty; discriminate);
      rewrite Hty.
    + (* scalar *)
      repeat case_strict;
        try apply sound_exit_parse_error;
        try (apply lands_steady; [|reflexivity]);
        try apply steady_parse_bool; try apply steady_parse_int;
        try apply steady_parse_null; try apply steady_parse_fd.
      split; [discriminate | reflexivity].
    + (* alias *) apply sound_exit_parse_error.
    + (* sequence *)
      rewrite Hw in Hlen. cbn [List.length] in Hlen.
      case_strict; [|apply sound_exit_parse_error].
      apply lands_collection.
      eapply (strict_parse_seq_entries fuel _ IHnode IHcut IHstop items Hitems);
        [ exact (tail_stop stop rest (or_introl Hstop)) | reflexivity
        | cbn [w_parser with_parser]; lia | lia ].
    + (* mapping *)
      rewrite Hw in Hlen. cbn [List.length] in Hlen.
      assert (T := tail_stop stop rest (or_intror Hstop)).
      case_strict; [|case_strict; [|case_strict;
                                     [|apply sound_exit_parse_error]]];
        apply lands_collection.
      * eapply (strict_parse_map_entries fuel _ IHnode IHcut IHstop pairs
                  Hpairs);
          [ exact T | reflexivity | cbn [w_parser with_parser]; lia | lia ].
      * eapply (strict_parse_file fuel _ IHnode IHcut IHstop pairs);
          [ exact Hpairs | exact T | reflexivity
          | cbn [w_parser with_parser]; lia ].
      * eapply (strict_parse_socket fuel _ IHnode IHcut IHstop pairs);
          [ exact Hpairs | exact T | reflexivity
          | cbn [w_parser with_parser]; lia ].
  - intros inner w Hcut Hw Hlen.
    destruct Hcut as [mark rest|start items inner Hty Hitems Hcut
                     |start pairs inner Hty Hpairs Hcut
                     |start pairs key inner Hty Hpairs Hkey Hcut];
      cbn [parse_object]; unfold bind at 1.
    + destruct (get_event_fail w mark rest Hw) as [w' E]. now rewrite E.
    + rewrite (get_event_produce w _ _ Hw) by (rewrite Hty; discriminate).
      rewrite Hty. rewrite Hw in Hlen. cbn [List.length] in Hlen.
      case_strict; [|apply sound_exit_parse_error].
      apply fails_collection.
      eapply (strict_parse_seq_entries fuel _ IHnode IHcut IHstop items Hitems);
        [ exact (tail_cut inner Hcut) | reflexivity
        | cbn [w_parser with_parser]; lia | lia ].
    + rewrite (get_event_produce w _ _ Hw) by (rewrite Hty; discriminate).
      rewrite Hty. rewrite Hw in Hlen. cbn [List.length] in Hlen.
      assert (T := tail_cut inner Hcut).
      case_strict; [|case_strict; [|case_strict;
                                     [|apply sound_exit_parse_error]]];
        apply fails_collection.
      * eapply (strict_parse_map_entries fuel _ IHnode IHcut IHstop pairs
                  Hpairs);
          [ exact T | reflexivity | cbn [w_parser with_parser]; lia | lia ].
      * eapply (strict_parse_file fuel _ IHnode IHcut IHstop pairs);
          [ exact Hpairs | exact T | reflexivity
          | cbn [w_parser with_parser]; lia ].
      * eapply (strict_parse_socket fuel _ IHnode IHcut IHstop pairs);
          [ exact Hpairs | exact T | reflexivity
          | cbn [w_parser with_parser]; lia ].
    + rewrite (get_event_produce w _ _ Hw) by (rewrite Hty; discriminate).
      rewrite Hty. rewrite Hw in Hlen. cbn [List.length] in Hlen.
      assert (T := tail_cut_value key inner Hkey Hcut).
      case_strict; [|case_strict; [|case_strict;
                                     [|apply sound_exit_parse_error]]];
        apply fails_collection.
      * eapply (strict_parse_map_entries fuel _ IHnode IHcut IHstop pairs
                  Hpairs);
          [ exact T | reflexivity | cbn [w_parser with_parser]; lia | lia ].
      * eapply (strict_parse_file fuel _ IHnode IHcut IHstop pairs);
          [ exact Hpairs | exact T | reflexivity
          | cbn [w_parser with_parser]; lia ].
      * eapply (strict_parse_socket fuel _ IHnode IHcut IHstop pairs);
          [ exact Hpairs | exact T | reflexivity
          | cbn [w_parser with_parser]; lia ].
Qed.

Lemma strict_document (parser : yaml_parser_t) :
  document_events parser ->
  forall fuel w,
    w_parser w = parser ->
    (List.length (w_parser w) < fuel)%nat ->
    strict (parse_object fuel w) (fun ad _ => ad <> None).
Proof.
  induction 1 as [node rest Hnode|inner Hcut|parser Hover|event rest Hty _ IH];
    intros fuel w Hw Hlen.
  - eapply sound_weaken;
      [exact (proj1 (strict_parse_object fuel) node rest w Hnode Hw Hlen)|].
    cbn beta. intros ad w' [Hsome _]. exact Hsome.
  - eapply sound_weaken;
      [exact (proj2 (strict_parse_object fuel) inner w Hcut Hw Hlen)|].
    cbn beta. intros ad w' [].
  - destruct fuel as [|fuel]; [lia|].
    cbn [parse_object]. unfold bind, get_event. rewrite Hw, Hover.
    reflexivity.
  - destruct fuel as [|fuel]; [lia|].
    cbn [parse_object]. unfold bind at 1.
    rewrite (get_event_produce w event rest Hw)
      by (destruct Hty as [E|E]; rewrite E; discriminate).
    rewrite Hw in Hlen. cbn [List.length] in Hlen.
    destruct Hty as [E|E]; rewrite E;
      (apply IH; [reflexivity | cbn [w_parser with_parser]; lia]).
Qed.

(** On the input of a conforming tokenizer, with a conforming resolver, a
    launch never reaches undefined behaviour. *)
Lemma strict_main (argv0 : string) (args : list string) (w : world OS) :
  document_events (w_parser w) ->
  strict (main argv0 args w) (fun _ _ => True).
Proof.
  intros Hdoc. unfold main. destruct (getopt_scan args) as [chars operands].
  eapply sound_bind; [apply (steady_main_options False)|].
  cbn beta. intros do_emulate w1 Hw1.
  assert (U : forall m : M handoff, strictly_steady m ->
            forall w', strict (m w') (fun _ _ => True)).
  { intros m Hm w'. eapply sound_weaken; [apply Hm | trivial]. }
  destruct operands as [|executable [|more operands]];
    try (apply U; apply steady_usage).
  eapply sound_bind.
  - unfold parse_object_top.
    apply (strict_document (w_parser w1)); [now rewrite Hw1 | reflexivity | lia].
  - cbn beta. intros [ad|] w2 Hsome; [|congruence].
    destruct do_emulate; apply U;
      [apply steady_main_emulate | apply steady_main_exec].
Qed.

End Conforming.


(** *** More fuel changes nothing *)

Lemma extends_refl {A} (m : M A) : extends m m.
Proof. intros w _. reflexivity. Qed.

Lemma extends_bind {A B} (m m' : M A) (k k' : A -> M B) :
  extends m m' -> (forall a, extends (k a) (k' a)) ->
  extends (bind m k) (bind m' k').
Proof.
  intros Hm Hk w. unfold bind. intros H.
  rewrite Hm by (intros E; now rewrite E in H).
  destruct (m w) as [a w'| | |]; try reflexivity.
  now apply Hk.
Qed.

Lemma extends_out_of_fuel {A} (m' : M A) : extends out_of_fuel m'.
Proof. intros w H. now contradiction H. Qed.

Section MoreFuel.
Variables po po' : M (option argdata_t).
Hypothesis po_extends : extends po po'.

Lemma extends_parse_map_entries (n n' : nat) :
  (n <= n')%nat ->
  forall keys values,
    extends (parse_map_entries po n keys values)
            (parse_map_entries po' n' keys values).
Proof.
  revert n'. induction n as [|n IH]; intros n' Hn keys values;
    [apply extends_out_of_fuel|].
  destruct n' as [|n']; [lia|]. cbn [parse_map_entries].
  apply extends_bind; [assumption|]. intros [key|]; [|apply extends_refl].
  apply extends_bind; [assumption|]. intros value. apply IH. lia.
Qed.

Lemma extends_parse_seq_entries (n n' : nat) :
  (n <= n')%nat ->
  forall entries,
    extends (parse_seq_entries po n entries)
            (parse_seq_entries po' n' entries).
Proof.
  revert n'. induction n as [|n IH]; intros n' Hn entries;
    [apply extends_out_of_fuel|].
  destruct n' as [|n']; [lia|]. cbn [parse_seq_entries].
  apply extends_bind; [assumption|]. intros [ad|]; [|apply extends_refl].
  apply IH. lia.
Qed.

Lemma extends_parse_file_attributes (n n' : nat) :
  (n <= n')%nat ->
  forall event path,
    extends (parse_file_attributes po n event path)
            (parse_file_attributes po' n' event path).
Proof.
  revert n'. induction n as [|n IH]; intros n' Hn event path;
    [apply extends_out_of_fuel|].
  destruct n' as [|n']; [lia|]. cbn [parse_file_attributes].
  apply extends_bind; [assumption|]. intros [key|]; [|apply extends_refl].
  destruct (argdata_get_str_c key) as [error keystr].
  destruct (negb (error =? 0)); [apply extends_refl|].
  apply extends_bind; [assumption|]. intros value.
  destruct (strcmp_eq keystr "path"); [|apply extends_refl].
  destruct value as [value|]; [|apply extends_refl].
  destruct (argdata_get_str_c value) as [error' path'].
  destruct (negb (error' =? 0)); [apply extends_refl|].
  apply IH. lia.
Qed.

Lemma extends_parse_socket_attributes (n n' : nat) :
  (n <= n')%nat ->
  forall event typestr bindstr,
    extends (parse_socket_attributes po n event typestr bindstr)
            (parse_socket_attributes po' n' event typestr bindstr).
Proof.
  revert n'. induction n as [|n IH]; intros n' Hn event typestr bindstr;
    [apply extends_out_of_fuel|].
  destruct n' as [|n']; [lia|]. cbn [parse_socket_attributes].
  apply extends_bind; [assumption|]. intros [key|]; [|apply extends_refl].
  destruct (argdata_get_str_c key) as [error keystr].
  destruct (negb (error =? 0)); [apply extends_refl|].
  apply extends_bind; [assumption|]. intros value.
  destruct (strcmp_eq keystr "type").
  - destruct value as [value|]; [|apply extends_refl].
    destruct (argdata_get_str_c value) as [error' typestr'].
    destruct (negb (error' =? 0)); [apply extends_refl|].
    apply IH. lia.
  - destruct (strcmp_eq keystr "bind"); [|apply extends_refl].
    destruct value as [value|]; [|apply extends_refl].
    destruct (argdata_get_str_c value) as [error' bindstr'].
    destruct (negb (error' =? 0)); [apply extends_refl|].
    apply IH. lia.
Qed.
End MoreFuel.

Ltac case_extends :=
  match goal with
  | |- extends (if ?b then _ else _) (if ?b then _ else _) => destruct b
  end.

Lemma extends_parse_object (fuel fuel' : nat) :
  (fuel <= fuel')%nat -> extends (parse_object fuel) (parse_object fuel').
Proof.
  revert fuel'. induction fuel as [|fuel IH]; intros fuel' Hf;
    [apply extends_out_of_fuel|].
  destruct fuel' as [|fuel']; [lia|]. cbn [parse_object].
  assert (Hpo : extends (parse_object fuel) (parse_object fuel'))
    by (apply IH; lia).
  assert (Hle : (fuel <= fuel')%nat) by lia.
  apply extends_bind; [apply extends_refl|]. intros event.
  destruct (event_type event); try apply extends_refl; try exact Hpo.
  - case_extends; [|apply extends_refl].
    apply extends_bind; [|intros ?; apply extends_refl].
    now apply extends_parse_seq_entries.
  - case_extends; [|case_extends; [|case_extends; [|apply extends_refl]]].
    + apply extends_bind; [|intros ?; apply extends_refl].
      now apply extends_parse_map_entries.
    + apply extends_bind; [|intros ?; apply extends_refl].
      unfold parse_file.
      apply extends_bind; [|intros ?; apply extends_refl].
      now apply extends_parse_file_attributes.
    + apply extends_bind; [|intros ?; apply extends_refl].
      unfold parse_socket.
      apply extends_bind; [|intros ?; apply extends_refl].
      now apply extends_parse_socket_attributes.
Qed.

(** Any bound that does not run out gives what [parse_object_top] gives. *)
Lemma parse_object_top_agrees (fuel : nat) (w : world OS) :
  parse_object fuel w <> OutOfFuel ->
  parse_object fuel w = parse_object_top w.
Proof.
  intros H. unfold parse_object_top.
  set (top := S (List.length (w_parser w))).
  destruct (Nat.le_ge_cases fuel top) as [L|G].
  - symmetry. now apply (extends_parse_object fuel top L).
  - apply (extends_parse_object top fuel G).
    intros E. assert (S := advancing_parse_object top w (Nat.lt_succ_diag_r _)).
    now rewrite E in S.
Qed.

(** *** Where the launcher gives up *)

Lemma exit_parse_error_fails {A} (event : yaml_event_t) (message : string)
    (w : world OS) :
  exit_parse_error (A:=A) event message w = Exit 127 (failed event message w).
Proof. reflexivity. Qed.

Lemma exit_is_final_holds : exit_is_final OS.
Proof. intros A B m k w status w' E. unfold bind. now rewrite E. Qed.

Lemma get_event_failures_hold : get_event_failures OS.
Proof. intros w mark E. unfold get_event. now rewrite E. Qed.

Lemma strcmp_eq_differs (s lit : string) :
  cstr lit = lit -> lit <> cstr s -> strcmp_eq s lit = false.
Proof.
  intros H N. apply strcmp_eq_false; [exact H|]. intros E. now apply N.
Qed.

Ltac other_tags H :=
  cbn [In] in H;
  repeat match goal with
         | |- context [strcmp_eq ?t ?lit] =>
             rewrite (strcmp_eq_differs t lit eq_refl)
               by first [tauto | congruence]
         end;
  cbn [orb].

Lemma parse_object_failures_hold : parse_object_failures OS.
Proof.
  intros fuel w. split.
  - intros status w' E. cbn [parse_object]. unfold bind at 1. now rewrite E.
  - intros event w0 E tag kind.
    assert (U : forall k : yaml_event_t -> M (option argdata_t),
              bind get_event k w = k event w0).
    { intros k. unfold bind. now rewrite E. }
    cbn [parse_object]. rewrite !U. fold tag kind.
    split; [|split].
    + intros [K|K]; rewrite K; reflexivity.
    + intros t T. split; [|split]; intros K N; rewrite K, T;
        cbn [is_null tag_is tag_text orb]; other_tags N; reflexivity.
    + intros status w'. split; [|split; [|split]].
      * intros [K|K] X; now rewrite K.
      * intros K. rewrite K. split; [|split]; intros T X;
          settle_tags T; unfold bind; now rewrite X.
      * intros K [T|T] X; rewrite K.
        -- rewrite T. cbn [is_null orb]. unfold bind. now rewrite X.
        -- settle_tags T. unfold bind. now rewrite X.
      * intros K. rewrite K. split; [|split].
        -- intros [T|T] X.
           ++ rewrite T. cbn [is_null orb]. unfold bind. now rewrite X.
           ++ settle_tags T. unfold bind. now rewrite X.
        -- intros T X. settle_tags T. unfold bind. now rewrite X.
        -- intros T X. settle_tags T. unfold bind. now rewrite X.
Qed.

Lemma scalar_failures_hold : scalar_failures OS.
Proof.
  intros event w value. split; [|split; [|split]].
  - intros T F. unfold parse_bool. fold value.
    rewrite (proj2 (strcmp_eq_false value "true" eq_refl) T).
    now rewrite (proj2 (strcmp_eq_false value "false" eq_refl) F).
  - intros N. rewrite parse_int_decodes. fold value. now rewrite N.
  - intros O E conv C. unfold parse_fd, parse_fd_number, bind. fold value.
    rewrite (proj2 (strcmp_eq_false value "stdout" eq_refl) O).
    rewrite (proj2 (strcmp_eq_false value "stderr" eq_refl) E).
    cbv zeta. fold conv.
    assert (B : (negb (conv_errno conv =? 0)
                 || negb (Nat.eqb (conv_end conv) (scalar_length event))
                 || (INT_MAX <? conv_value conv))%bool = true).
    { destruct C as [C|[C|C]].
      - apply Z.eqb_neq in C. now rewrite C.
      - apply Nat.eqb_neq in C. rewrite C. apply orb_true_iff. left.
        apply orb_true_r.
      - apply Z.ltb_lt in C. rewrite C. apply orb_true_r. }
    now rewrite B.
  - intros fd N F. unfold parse_fd, bind. rewrite N.
    unfold fstat, observe. apply Z.eqb_neq in F. now rewrite F.
Qed.

Lemma collection_failures_hold : collection_failures OS.
Proof.
  intros po n w. split; [reflexivity|]. split; [reflexivity|]. split.
  - intros entries. split.
    + intros status w' E. cbn [parse_seq_entries]. unfold bind.
      now rewrite E.
    + intros ad w1 E. cbn [parse_seq_entries]. unfold bind. now rewrite E.
  - intros keys values. split.
    + intros status w' E. cbn [parse_map_entries]. unfold bind.
      now rewrite E.
    + intros key w1 E. split.
      * intros status w' X. cbn [parse_map_entries]. unfold bind.
        now rewrite E, X.
      * intros value w2 X. cbn [parse_map_entries]. unfold bind.
        now rewrite E, X.
Qed.

Lemma file_failures_hold : file_failures OS.
Proof.
  intros po n event w. split; [|split; [|split]].
  - intros path loop. subst loop. split.
    + intros status w' E. cbn [parse_file_attributes]. unfold bind.
      now rewrite E.
    + intros key w1 E error keystr. subst error keystr.
      cbn [parse_file_attributes]. unfold bind at 1 3 5 7 9. rewrite E.
      destruct (argdata_get_str_c key) as [error keystr]. cbn [fst snd].
      split.
      * intros N. apply Z.eqb_neq in N. now rewrite N.
      * intros Z0. subst error. cbn [Z.eqb negb]. split.
        -- intros status w' X. unfold bind. now rewrite X.
        -- intros value w2 X. unfold bind at 1 2 3. rewrite X. split.
           ++ intros N.
              now rewrite (proj2 (strcmp_eq_false keystr "path" eq_refl) N).
           ++ intros Y v V. subst value. cbv zeta.
              rewrite (proj2 (strcmp_eq_literal keystr "path" eq_refl) Y).
              destruct (argdata_get_str_c v) as [error' path'].
              cbn [fst snd]. split.
              ** intros N. apply Z.eqb_neq in N. now rewrite N.
              ** now intros ->.
  - intros status w' E. unfold parse_file, bind. now rewrite E.
  - intros w1 E. unfold parse_file, bind. now rewrite E.
  - intros path w1 fd error os' E O L. unfold parse_file, bind. rewrite E.
    unfold open, syscall. rewrite O. cbn [fst snd].
    apply Z.ltb_lt in L. now rewrite L.
Qed.

Lemma socket_attribute_failures_hold : socket_attribute_failures OS.
Proof.
  intros po n event w. split; [|split].
  - intros typestr bindstr loop. subst loop. split.
    + intros status w' E. cbn [parse_socket_attributes]. unfold bind.
      now rewrite E.
    + intros key w1 E error keystr. subst error keystr.
      cbn [parse_socket_attributes]. unfold bind at 1 3 5 7 9 11 13.
      rewrite E.
      destruct (argdata_get_str_c key) as [error keystr]. cbn [fst snd].
      split.
      * intros N. apply Z.eqb_neq in N. now rewrite N.
      * intros Z0. subst error. cbn [Z.eqb negb]. split.
        -- intros status w' X. unfold bind. now rewrite X.
        -- intros value w2 X. unfold bind. rewrite X. split.
           ++ intros N1 N2.
              rewrite (proj2 (strcmp_eq_false keystr "type" eq_refl) N1).
              now rewrite (proj2 (strcmp_eq_false keystr "bind" eq_refl) N2).
           ++ intros v V. subst value. cbv zeta.
              destruct (argdata_get_str_c v) as [error' text].
              cbn [fst snd]. split.
              ** intros Y.
                 rewrite (proj2 (strcmp_eq_literal keystr "type" eq_refl) Y).
                 split.
                 --- intros N. apply Z.eqb_neq in N. now rewrite N.
                 --- now intros ->.
              ** intros Y.
                 assert (N : cstr keystr <> "type") by (rewrite Y; discriminate).
                 rewrite (proj2 (strcmp_eq_false keystr "type" eq_refl) N).
                 rewrite (proj2 (strcmp_eq_literal keystr "bind" eq_refl) Y).
                 split.
                 --- intros N'. apply Z.eqb_neq in N'. now rewrite N'.
                 --- now intros ->.
  - intros status w' E. unfold parse_socket, bind. now rewrite E.
  - intros typestr bindstr w1 E. unfold parse_socket, bind. now rewrite E.
Qed.

Lemma parse_socket_create_outcome (event : yaml_event_t) (ty : sock_type)
    (bindstr : string) (sa : sockaddr) (sal : Z) (w : world OS)
    (fd e1 : Z) (os1 : OS) (b e2 : Z) (os2 : OS) (l e3 : Z) (os3 : OS) :
  sys_socket (w_os w) (sa_family sa) ty 0 = (fd, e1, os1) ->
  sys_bind (sys_setsockopt os1 fd) fd sa sal = (b, e2, os2) ->
  sys_listen os2 fd 0 = (l, e3, os3) ->
  let w1 := with_os (called w (Call_socket (sa_family sa) ty 0)) os1 in
  let w2 :=
    with_os
      (called (with_os (called w1 (Call_setsockopt fd))
                       (sys_setsockopt os1 fd))
              (Call_bind fd sa sal))
      os2 in
  let w3 := with_os (called w2 (Call_listen fd 0)) os3 in
  parse_socket_create event ty bindstr sa sal w
  = if fd =? -1 then
      Exit 127
        (failed event
           ("Failed to create socket for " ++ cstr bindstr ++ ": "
            ++ strerror e1)
           w1)
    else if b =? -1 then
      Exit 127
        (failed event
           ("Failed to bind to " ++ cstr bindstr ++ ": " ++ strerror e2) w2)
    else if (l =? -1) && negb (e3 =? EOPNOTSUPP) then
      Exit 127
        (failed event
           ("Failed to listen on " ++ cstr bindstr ++ ": " ++ strerror e3)
           w3)
    else Ok (argdata_create_fd fd) w3.
Proof.
  intros S B L w1 w2 w3.
  subst w1 w2 w3.
  unfold parse_socket_create, bind, socket, syscall. rewrite S.
  cbn [fst snd]. destruct (fd =? -1); [reflexivity|].
  unfold setsockopt, bind_, syscall.
  cbn [w_os with_os called]. rewrite B. cbn [fst snd].
  destruct (b =? -1); [reflexivity|].
  unfold listen, syscall. cbn [w_os with_os called]. rewrite L.
  cbn [fst snd]. now destruct ((l =? -1) && negb (e3 =? EOPNOTSUPP)).
Qed.

Lemma parse_socket_type_known (event : yaml_event_t) (typestr : string)
    (w : world OS) :
  In (cstr typestr) ["dgram"; "seqpacket"; "stream"] ->
  exists ty, parse_socket_type event typestr w = Ok ty w.
Proof.
  intros I. unfold parse_socket_type, strcmp_eq.
  destruct I as [I|[I|[I|[]]]]; rewrite <- I;
    [exists SOCK_DGRAM | exists SOCK_SEQPACKET | exists SOCK_STREAM];
    reflexivity.
Qed.

Lemma socket_failures_hold : socket_failures OS.
Proof.
  intros event w. split; [|split; [|split; [|split]]].
  - intros typestr bindstr N. unfold parse_socket_open, bind.
    unfold parse_socket_type. other_tags N. reflexivity.
  - intros typestr I.
    destruct (parse_socket_type_known event typestr w I) as [ty E].
    unfold parse_socket_open, bind. now rewrite E.
  - intros typestr ty bindstr E. split.
    + intros status w' X. unfold parse_socket_open, bind. now rewrite E, X.
    + intros sa sal w1 X. unfold parse_socket_open, bind. now rewrite E, X.
  - intros ty bindstr. split.
    + intros C L. unfold parse_socket_address. rewrite C.
      apply Nat.leb_le in L. now rewrite L.
    + intros C. apply Ascii.eqb_neq in C.
      unfold parse_socket_address. rewrite C. split.
      * now intros ->.
      * intros hostname servname error res S G. rewrite S.
        unfold bind, getaddrinfo, observe. rewrite G.
        split.
        -- intros N. apply Z.eqb_neq in N. now rewrite N.
        -- intros -> M. destruct res as [|r0 [|r1 res]]; cbn in M; try lia.
           reflexivity.
  - intros ty bindstr sa sal fd e1 os1 b e2 os2 l e3 os3 S B L w1 w2 w3.
    rewrite (parse_socket_create_outcome event ty bindstr sa sal w
               fd e1 os1 b e2 os2 l e3 os3 S B L).
    cbv zeta. fold w1 w2 w3. split; [|split].
    + now intros ->.
    + intros F ->. apply Z.eqb_neq in F. now rewrite F.
    + intros F N -> X. apply Z.eqb_neq in F, N, X. now rewrite F, N, X.
Qed.

Lemma register_fds_step (i fd : Z) (rest : list Z) (w : world OS)
    (ok : bool) (error : Z) (os' : OS) :
  fd_table_insert_existing (w_os w) i fd = (ok, error, os') ->
  register_fds i (fd :: rest) w
  = if ok then register_fds (i + 1) rest (with_os w os')
    else Exit 127
           (printed (with_os w os')
              ("Failed to register file descriptor in argument data: "
               ++ strerror error ++ newline)).
Proof.
  intros E. cbn [register_fds]. unfold bind at 1, fd_table_insert.
  rewrite E. cbn [fst snd]. now destruct ok.
Qed.

Lemma main_exec_outcome (executable : string) (ad : argdata_t)
    (w : world OS) (fd error : Z) (os' : OS) :
  sys_open (w_os w) executable O_EXEC = (fd, error, os') ->
  let w1 := with_os (called w (Call_open executable O_EXEC)) os' in
  main_exec executable (Some ad) w
  = if fd =? -1 then
      Exit 127
        (printed w1
           ("Failed to open executable: " ++ strerror error ++ newline))
    else
      match program_exec os' fd ad with
      | Some error' =>
          Exit 127
            (printed w1
               ("Failed to start executable: " ++ strerror error'
                ++ newline))
      | None => Ok Replaced w1
      end.
Proof.
  intros O w1. subst w1. unfold main_exec, bind, open, syscall. rewrite O.
  cbn [fst snd]. destruct (fd =? -1); [reflexivity|].
  unfold run_program_exec. cbn [w_os with_os called].
  now destruct (program_exec os' fd ad).
Qed.

Lemma main_emulate_outcome (executable : string) (ad : argdata_t)
    (w w1 : world OS) (fd error : Z) (os' : OS) :
  let buflen := fst (argdata_get_buffer_length ad) in
  let fdslen := snd (argdata_get_buffer_length ad) in
  let buf := fst (argdata_get_buffer ad) in
  let fds := snd (argdata_get_buffer ad) in
  sys_malloc (w_os w) (wrap64 (fdslen * 4 + buflen)) = true ->
  register_fds 0 fds w = Ok tt w1 ->
  sys_open (w_os w1) executable O_RDONLY = (fd, error, os') ->
  let w2 := with_os (called w1 (Call_open executable O_RDONLY)) os' in
  main_emulate executable (Some ad) w
  = if fd =? -1 then
      Exit 127
        (printed w2
           ("Failed to open executable: " ++ strerror error ++ newline))
    else
      match emulate os' fd buf buflen with
      | Some error' =>
          Exit 127
            (printed (printed w2 emulation_warning)
               ("Failed to start executable: " ++ strerror error'
                ++ newline))
      | None => Ok Emulating (printed w2 emulation_warning)
      end.
Proof.
  intros buflen fdslen buf fds A R O w2. subst buflen fdslen buf fds w2.
  unfold main_emulate.
  destruct (argdata_get_buffer_length ad) as [buflen fdslen].
  destruct (argdata_get_buffer ad) as [buf fds]. cbn [fst snd] in *.
  unfold bind at 1, malloc. rewrite A. cbn [negb].
  unfold bind at 1. rewrite R.
  unfold bind at 1, open, syscall. rewrite O. cbn [fst snd].
  destruct (fd =? -1); [reflexivity|].
  unfold bind, eprint, run_emulate. cbn [w_os printed with_os called].
  now destruct (emulate os' fd buf buflen).
Qed.

Lemma dispatch_failures_hold : dispatch_failures OS.
Proof.
  intros executable ad w. split; [|split].
  - intros fd error os' O w1.
    rewrite (main_exec_outcome executable ad w fd error os' O).
    cbv zeta. fold w1. split.
    + now intros ->.
    + intros N. apply Z.eqb_neq in N. rewrite N. split.
      * now intros error' ->.
      * now intros ->.
  - intros buflen fdslen buf fds. split.
    + intros A. subst buflen fdslen buf fds. unfold main_emulate.
      destruct (argdata_get_buffer_length ad) as [buflen fdslen].
      cbn [fst snd] in A. unfold bind at 1, malloc. now rewrite A.
    + intros A. split.
      * intros status w' R. subst buflen fdslen buf fds.
        unfold main_emulate.
        destruct (argdata_get_buffer_length ad) as [buflen fdslen].
        destruct (argdata_get_buffer ad) as [buf fds]. cbn [fst snd] in *.
        unfold bind at 1, malloc. rewrite A. cbn [negb].
        unfold bind at 1. now rewrite R.
      * intros w1 fd error os' R O w2.
        rewrite (main_emulate_outcome executable ad w w1 fd error os' A R O).
        cbv zeta. fold w2. split.
        -- now intros ->.
        -- intros N. apply Z.eqb_neq in N. rewrite N. fold buf buflen.
           split.
           ++ now intros error' ->.
           ++ now intros ->.
  - intros i fd rest ok error os' E.
    rewrite (register_fds_step i fd rest w ok error os' E). split.
    + now intros ->.
    + now intros ->.
Qed.

(** *** [main] *)

Lemma sound_main (argv0 : string) (args : list string) (w : world OS) :
  sound (main argv0 args w) (fun _ _ => True).
Proof.
  unfold main. destruct (getopt_scan args) as [chars operands].
  eapply sound_bind; [apply steady_main_options|].
  cbn beta. intros do_emulate w1 _.
  assert (U : forall m : M handoff, steady m ->
            forall w', sound (m w') (fun _ _ => True)).
  { intros m Hm w'. eapply sound_weaken; [apply Hm | trivial]. }
  destruct operands as [|executable [|more operands]];
    try (apply U; apply steady_usage).
  eapply sound_bind; [apply sound_parse_object_top|].
  cbn beta. intros [ad|] w2 _.
  - destruct do_emulate; apply U;
      [apply steady_main_emulate | apply steady_main_exec].
  - destruct do_emulate; [exact I|].
    apply U. unfold main_exec, open.
    repeat first [ apply steady_perror | steady_step ].
Qed.

Lemma main_options_accepts (argv0 : string) (chars : list ascii)
    (do_emulate : bool) (w : world OS) :
  forallb (fun c => Ascii.eqb c "e") chars = true ->
  exists flag, main_options argv0 chars do_emulate w = Ok flag w.
Proof.
  revert do_emulate.
  induction chars as [|c chars IH]; intros do_emulate H; cbn [main_options].
  - now exists do_emulate.
  - cbn [forallb] in H. apply andb_prop in H as [Hc H].
    rewrite Hc. now apply IH.
Qed.

Lemma main_options_rejects (argv0 : string) (accepted rest : list ascii)
    (c : ascii) (do_emulate : bool) (w : world OS) :
  forallb (fun c => Ascii.eqb c "e") accepted = true ->
  Ascii.eqb c "e" = false ->
  main_options argv0 (accepted ++ c :: rest)%list do_emulate w
  = Exit 127
      (printed (printed w (getopt_message argv0 c))
               ("usage: cloudabi-run [-e] executable" ++ newline)).
Proof.
  revert do_emulate.
  induction accepted as [|a accepted IH]; intros do_emulate H Hc;
    cbn [main_options app].
  - now rewrite Hc.
  - cbn [forallb] in H. apply andb_prop in H as [Ha H].
    rewrite Ha. now apply IH.
Qed.

Lemma main_options_flag (argv0 : string) (chars : list ascii)
    (do_emulate : bool) (w : world OS) :
  forallb (fun c => Ascii.eqb c "e") chars = true ->
  main_options argv0 chars do_emulate w
  = Ok (match chars with [] => do_emulate | _ :: _ => true end) w.
Proof.
  revert do_emulate.
  induction chars as [|c chars IH]; intros do_emulate H; cbn [main_options].
  - reflexivity.
  - cbn [forallb] in H. apply andb_prop in H as [Hc H].
    rewrite Hc, (IH true H). now destruct chars.
Qed.

Lemma main_dispatches (argv0 : string) (args : list string) (w : world OS)
    (chars : list ascii) (executable : string) :
  getopt_scan args = (chars, [executable]) ->
  forallb (fun c => Ascii.eqb c "e") chars = true ->
  main argv0 args w
  = bind parse_object_top
      (fun ad =>
         match chars with
         | [] => main_exec executable ad
         | _ :: _ => main_emulate executable ad
         end)
      w.
Proof.
  intros G Hc. unfold main. rewrite G.
  unfold bind at 1. rewrite (main_options_flag argv0 chars false w Hc).
  now destruct chars.
Qed.

Lemma register_fds_returns (fds : list Z) :
  forall (i : Z) (w w' : world OS),
    register_fds i fds w = Ok tt w' ->
    w_stderr w' = w_stderr w /\ w_calls w' = w_calls w.
Proof.
  induction fds as [|fd fds IH]; intros i w w'; cbn [register_fds].
  - intros H. injection H as <-. split; reflexivity.
  - unfold bind at 1, fd_table_insert.
    destruct (fd_table_insert_existing (w_os w) i fd) as [[ok error] os'].
    cbn [fst snd]. destruct ok; cbn [negb]; [|discriminate].
    intros H. apply IH in H. exact H.
Qed.

Lemma register_fds_fails_at (pre post : list Z) (fd : Z) :
  forall (i : Z) (w w1 : world OS) (error : Z) (os' : OS),
    register_fds i pre w = Ok tt w1 ->
    fd_table_insert_existing (w_os w1) (i + Z.of_nat (List.length pre)) fd
    = (false, error, os') ->
    register_fds i (pre ++ fd :: post)%list w
    = Exit 127
        (printed (with_os w1 os')
           ("Failed to register file descriptor in argument data: "
            ++ strerror error ++ newline)).
Proof.
  induction pre as [|a pre IH]; intros i w w1 error os' R F.
  - cbn [register_fds] in R. injection R as <-.
    cbn [List.length Z.of_nat] in F. rewrite Z.add_0_r in F.
    cbn [app]. now rewrite (register_fds_step i fd post w false error os' F).
  - cbn [app].
    destruct (fd_table_insert_existing (w_os w) i a) as [[ok e] os1] eqn:I.
    rewrite (register_fds_step i a pre w ok e os1 I) in R.
    rewrite (register_fds_step i a _ w ok e os1 I).
    destruct ok; [|discriminate].
    apply (IH (i + 1) (with_os w os1) w1 error os' R).
    rewrite <- F. f_equal. cbn [List.length]. lia.
Qed.

(** C8.  Whatever the command line, the input and the machine, when the
    launcher exits it exits with status 127; this covers the usage
    errors and every error met while parsing, resolving and dispatching,
    inside [parse_object] as well.  The model's recursion bound is never
    reached.  A command line whose options are all accepted and that does
    not leave exactly one operand prints the usage line and exits with
    that status; so does one with an option other than [e], after the
    message [getopt] prints for it.  On what a conforming tokenizer
    delivers, well nested events or the beginning of them up to a failure,
    with a resolver that never reports success without an address, there
    is nothing else: the launch hands over to the program or exits with
    status 127.

    And no error is passed over.  With one operand and accepted options,
    an exit while the configuration is parsed is the exit of the launch,
    in the same world: nothing is opened or started after it; and when a
    node was parsed, the launch is [main_emulate] on it if [-e] was
    given and [main_exec] if not; the configuration is parsed by
    [parse_object], with any bound that is not reached.  Inside these,
    every place where the source gives up exits with status 127 under
    the condition the source tests, after the message of that place:
    [exit] ends the function that calls it and its callers
    ([exit_is_final]); the tokenizer fails
    ([get_event_failures]); an event starts no node or has a tag that is
    not known, or the function chosen for it exits
    ([parse_object_failures]); a boolean, an integer or a descriptor is
    not valid, or the descriptor is not open ([scalar_failures]); an
    entry of a sequence or of a mapping exits ([collection_failures]); a
    file has a bad attribute, no path, or cannot be opened
    ([file_failures]); a socket has a bad attribute
    ([socket_attribute_failures]), a type that is not known, no address,
    an address that cannot be used or resolved, or it cannot be created,
    bound or listened on ([socket_failures]); the executable cannot be
    opened or started, the buffer cannot be allocated, or a descriptor
    cannot be registered ([dispatch_failures]). *)
Theorem every_failure_exits_with_127
    (argv0 : string) (args : list string) (w : world OS) :
  (forall status w', main argv0 args w = Exit status w' -> status = 127)
  /\ main argv0 args w <> OutOfFuel
  /\ (forall fuel w0 status w',
        parse_object fuel w0 = Exit status w' -> status = 127)
  /\ (forall chars operands,
        getopt_scan args = (chars, operands) ->
        forallb (fun c => Ascii.eqb c "e") chars = true ->
        List.length operands <> 1%nat ->
        main argv0 args w
        = Exit 127
            (printed w ("usage: cloudabi-run [-e] executable" ++ newline)))
  /\ (forall accepted c rest operands,
        getopt_scan args = ((accepted ++ c :: rest)%list, operands) ->
        forallb (fun c => Ascii.eqb c "e") accepted = true ->
        Ascii.eqb c "e" = false ->
        main argv0 args w
        = Exit 127
            (printed (printed w (getopt_message argv0 c))
                     ("usage: cloudabi-run [-e] executable" ++ newline)))
  /\ ((forall os hostname servname hint,
         sys_getaddrinfo os hostname servname hint = (0, []) -> False) ->
      document_events (w_parser w) ->
      (exists h w', main argv0 args w = Ok h w')
      \/ (exists w', main argv0 args w = Exit 127 w'))
  /\ (forall chars executable,
        getopt_scan args = (chars, [executable]) ->
        forallb (fun c => Ascii.eqb c "e") chars = true ->
        (forall status w',
            parse_object_top w = Exit status w' ->
            main argv0 args w = Exit 127 w')
        /\ (forall ad w1,
              parse_object_top w = Ok (Some ad) w1 ->
              main argv0 args w
              = match chars with
                | [] => main_exec executable (Some ad) w1
                | _ :: _ => main_emulate executable (Some ad) w1
                end))
  /\ (forall fuel w0,
        parse_object fuel w0 <> OutOfFuel ->
        parse_object fuel w0 = parse_object_top w0)
  /\ exit_is_final OS
  /\ get_event_failures OS
  /\ parse_object_failures OS
  /\ scalar_failures OS
  /\ collection_failures OS
  /\ file_failures OS
  /\ socket_attribute_failures OS
  /\ socket_failures OS
  /\ dispatch_failures OS.
Proof.
  assert (S := sound_main argv0 args w).
  split; [|split; [|split; [|split; [|split; [|split; [|split]]]]]].
  - intros status w' E. now rewrite E in S.
  - intros E. now rewrite E in S.
  - intros fuel w0 status w' E.
    assert (T := sound_parse_object_top w0).
    rewrite <- (parse_object_top_agrees fuel w0) in T
      by (rewrite E; discriminate).
    now rewrite E in T.
  - intros chars operands G Hc Hn. unfold main. rewrite G.
    destruct (main_options_accepts argv0 chars false w Hc) as [flag E].
    unfold bind at 1. rewrite E.
    destruct operands as [|executable [|more operands]];
      try reflexivity. cbn in Hn. congruence.
  - intros accepted c rest operands G Ha Hc. unfold main. rewrite G.
    unfold bind at 1. now rewrite (main_options_rejects _ _ _ _ _ _ Ha Hc).
  - intros Hres Hdoc. assert (T := strict_main Hres argv0 args w Hdoc).
    destruct (main argv0 args w) as [h w'|status w'| |].
    + left. now exists h, w'.
    + right. exists w'. now rewrite T.
    + contradiction.
    + contradiction.
  - intros chars executable G Hc.
    rewrite (main_dispatches argv0 args w chars executable G Hc).
    split.
    + intros status w' E. unfold bind. rewrite E.
      assert (T := sound_parse_object_top w). rewrite E in T.
      cbn in T. now rewrite T.
    + intros ad w1 E. unfold bind. rewrite E. now destruct chars.
  - split; [exact parse_object_top_agrees|].
    split; [exact exit_is_final_holds|].
    split; [exact get_event_failures_hold|].
    split; [exact parse_object_failures_hold|].
    split; [exact scalar_failures_hold|].
    split; [exact collection_failures_hold|].
    split; [exact file_failures_hold|].
    split; [exact socket_attribute_failures_hold|].
    split; [exact socket_failures_hold|].
    exact dispatch_failures_hold.
Qed.

End LauncherProperties.

(** ** Splitting a bind address *)

Lemma cstr_cons (c : ascii) (r : string) :
  Ascii.eqb c NUL = false -> cstr (String c r) = String c (cstr r).
Proof. intros H. cbn [cstr]. now rewrite H. Qed.

Lemma prefix_split (p t : string) :
  String.prefix p t = true <-> t = p ++ advance (String.length p) t.
Proof.
  revert t. induction p as [|a p IH]; intros t.
  - split; [now destruct t | intros _; now destruct t].
  - destruct t as [|b t]; [split; discriminate|].
    cbn [String.prefix String.length advance append].
    destruct (ascii_dec a b) as [<-|N].
    + rewrite IH. split; [now intros <- | intros H; now injection H].
    + split; [discriminate | intros H; injection H; congruence].
Qed.

Lemma prefix_append (p b : string) : String.prefix p (p ++ b) = true.
Proof.
  apply prefix_split. now rewrite advance_append.
Qed.

Lemma advance_cstr (k : nat) :
  forall s,
    (k <= String.length (cstr s))%nat ->
    advance k (cstr s) = cstr (advance k s).
Proof.
  induction k as [|k IH]; intros s H; [reflexivity|].
  destruct s as [|c r]; [reflexivity|].
  cbn [cstr] in *. destruct (Ascii.eqb c NUL); cbn [String.length] in H;
    [lia|].
  cbn [advance]. apply IH. lia.
Qed.

Lemma strchr_some (c : ascii) :
  Ascii.eqb c NUL = false ->
  forall s n,
    strchr s c = Some n ->
    cstr s = strndup s n ++ String c (cstr (advance (n + 1) s))
    /\ String.length (strndup s n) = n
    /\ forall a b, cstr s = a ++ String c b -> (n <= String.length a)%nat.
Proof.
  intros Hc. unfold strndup.
  induction s as [|d r IH]; intros n; cbn [strchr]; [discriminate|].
  destruct (Ascii.eqb d NUL) eqn:Hd; [discriminate|].
  rewrite (cstr_cons d r Hd).
  destruct (Ascii.eqb_spec d c) as [->|N].
  - intros H. injection H as <-. cbn. repeat split. intros a b _. lia.
  - destruct (strchr r c) as [m|]; [|discriminate].
    intros H. injection H as <-.
    destruct (IH m eq_refl) as (E & L & Min).
    cbn [Nat.add advance String.substring append String.length].
    split; [now rewrite <- E|]. split; [now rewrite L|].
    intros [|x a] b; cbn [append String.length].
    + intros H. injection H. congruence.
    + intros H. injection H as _ H. apply Min in H. lia.
Qed.

Lemma strchr_none (c : ascii) :
  forall s,
    strchr s c = None ->
    forall a b, cstr s <> a ++ String c b.
Proof.
  induction s as [|d r IH]; cbn [strchr cstr].
  - intros _ [|x a] b; discriminate.
  - destruct (Ascii.eqb d NUL) eqn:Hd; [intros _ [|x a] b; discriminate|].
    destruct (Ascii.eqb_spec d c) as [->|N]; [discriminate|].
    destruct (strchr r c) as [m|] eqn:E; [discriminate|].
    intros _ [|x a] b; cbn [append]; intros H; injection H.
    + congruence.
    + intros H' _. exact (IH eq_refl a b H').
Qed.

Lemma substring_none (t : string) : String.substring 0 0 t = EmptyString.
Proof. now destruct t. Qed.

Lemma strstr_some (needle : string) :
  has_nul needle = false ->
  forall s n,
    strstr s needle = Some n ->
    cstr s
    = strndup s n ++ needle ++ cstr (advance (n + String.length needle) s)
    /\ String.length (strndup s n) = n
    /\ forall a b, cstr s = a ++ needle ++ b -> (n <= String.length a)%nat.
Proof.
  intros Hneedle. unfold strndup.
  induction s as [|d r IH]; intros n; cbn [strstr]; [discriminate|].
  destruct (Ascii.eqb d NUL) eqn:Hd; [discriminate|].
  destruct (String.prefix needle (cstr (String d r))) eqn:Hp.
  - intros H. injection H as <-.
    cbn [Nat.add String.substring append String.length].
    assert (L := prefix_length _ _ Hp).
    apply prefix_split in Hp.
    rewrite advance_cstr in Hp by lia.
    rewrite substring_none. cbn [append String.length].
    repeat split; [exact Hp|]. intros a b _. lia.
  - destruct (strstr r needle) as [m|]; [|discriminate].
    intros H. injection H as <-.
    destruct (IH m eq_refl) as (E & L & Min).
    rewrite (cstr_cons d r Hd) in *.
    cbn [Nat.add advance String.substring append String.length].
    split; [now rewrite <- E|]. split; [now rewrite L|].
    intros [|x a] b; cbn [append String.length].
    + intros H. rewrite H, prefix_append in Hp. discriminate.
    + intros H. injection H as _ H. apply Min in H. lia.
Qed.

Lemma append_is_empty (a b : string) :
  a ++ b = EmptyString -> a = EmptyString /\ b = EmptyString.
Proof. destruct a; cbn; [now intros -> | discriminate]. Qed.

Lemma strstr_none (needle : string) :
  needle <> EmptyString ->
  forall s,
    strstr s needle = None ->
    forall a b, cstr s <> a ++ needle ++ b.
Proof.
  intros Hne.
  assert (Empty : forall a b, EmptyString <> a ++ needle ++ b).
  { intros a b H. symmetry in H. apply append_is_empty in H as [_ H].
    apply append_is_empty in H as [H _]. contradiction. }
  induction s as [|d r IH]; cbn [strstr]; [intros _; exact Empty|].
  destruct (Ascii.eqb d NUL) eqn:Hd.
  - intros _. cbn [cstr]. rewrite Hd. exact Empty.
  - destruct (String.prefix needle (cstr (String d r))) eqn:Hp;
      [discriminate|].
    destruct (strstr r needle) as [m|] eqn:E; [discriminate|].
    intros _ [|x a] b; cbn [append]; intros H.
    + rewrite H, prefix_append in Hp. discriminate.
    + rewrite (cstr_cons d r Hd) in H. injection H as _ H.
      exact (IH eq_refl a b H).
Qed.

(** X1.  How [parse_socket] cuts a bind address that is no path.  The
    separator is the first colon, or the first bracket followed by a colon
    when the address starts with an opening bracket.  The address, read as
    a C string, is the host name, the separator and the service name put
    together, and the host name is the shortest start of the address that
    the separator follows.  The host name of an address that starts with
    an opening bracket keeps that bracket.  An address without the
    separator has no port number. *)
Theorem split_address_cuts_at_the_first_separator (bindstr : string) :
  let separator :=
    if Ascii.eqb (char_at bindstr 0) "[" then "]:" else ":" in
  match split_address bindstr with
  | Some (hostname, servname) =>
      cstr bindstr = hostname ++ separator ++ servname
      /\ (forall a b,
             cstr bindstr = a ++ separator ++ b ->
             (String.length hostname <= String.length a)%nat)
      /\ (Ascii.eqb (char_at bindstr 0) "[" = true ->
          exists host, hostname = "[" ++ host)
  | None => forall a b, cstr bindstr <> a ++ separator ++ b
  end.
Proof.
  unfold split_address.
  destruct (Ascii.eqb (char_at bindstr 0) "[") eqn:Hb; cbv zeta beta iota.
  - destruct (strstr bindstr "]:") as [n|] eqn:E.
    + destruct (strstr_some "]:" eq_refl bindstr n E) as (Hs & L & Min).
      split; [exact Hs|]. split; [now rewrite L|].
      intros _. destruct (strndup bindstr n) as [|x host] eqn:Eh.
      * exfalso. destruct bindstr as [|c r]; [discriminate|].
        cbn [char_at String.get] in Hb. apply Ascii.eqb_eq in Hb.
        subst c. cbn in Hs. discriminate.
      * exists host. destruct bindstr as [|c r]; [discriminate|].
        cbn [char_at String.get] in Hb. apply Ascii.eqb_eq in Hb.
        subst c. cbn in Hs. injection Hs as <- _. reflexivity.
    + exact (strstr_none "]:" ltac:(discriminate) bindstr E).
  - destruct (strchr bindstr ":") as [n|] eqn:E.
    + destruct (strchr_some ":" eq_refl bindstr n E) as (Hs & L & Min).
      split; [exact Hs|]. split; [now rewrite L|]. discriminate.
    + exact (strchr_none ":" bindstr E).
Qed.

(** ** What a run leaves behind *)

Section LauncherTraces.
Context {OS : Type} {P : Platform OS}.

Local Abbreviation M := (@M OS).

Lemma append_assoc (a b c : string) : (a ++ b) ++ c = a ++ b ++ c.
Proof. induction a as [|x a IH]; cbn; [reflexivity | now rewrite IH]. Qed.

(** *** One induction for the relations that runs keep *)

Section Keeping.
Variable undef : Prop.
Variables (I : world OS -> Prop) (R E : world OS -> world OS -> Prop).
Variable live : yaml_event_t -> Prop.

Hypothesis R_refl : forall w, R w w.
Hypothesis R_trans : forall w1 w2 w3, R w1 w2 -> R w2 w3 -> R w1 w3.
Hypothesis R_then_E : forall w1 w2 w3, R w1 w2 -> E w2 w3 -> E w1 w3.

Local Abbreviation keeps := (@keeps OS undef I R E).

Lemma keeps_ret {A} (a : A) : keeps (ret a).
Proof. intros w Hw. cbn. auto. Qed.

Lemma keeps_out_of_fuel {A} : keeps (out_of_fuel (A:=A)).
Proof. intros w Hw. exact Logic.I. Qed.

Lemma keeps_bind {A B} (m : M A) (k : A -> M B) :
  keeps m -> (forall a, keeps (k a)) -> keeps (bind m k).
Proof.
  intros Hm Hk w Hw. unfold bind. generalize (Hm w Hw).
  destruct (m w) as [a w1|status w1| |]; trivial.
  intros [R1 I1]. generalize (Hk a w1 I1).
  destruct (k a w1) as [b w2|status w2| |]; trivial.
  - intros [R2 I2]. eauto.
  - intros [S2 E2]. eauto.
Qed.

Hypothesis keeps_get_event :
  forall w,
    I w ->
    match get_event w with
    | Ok event w' => R w w' /\ I w' /\ live event
    | Exit status w' => status = 127 /\ E w w'
    | Undefined => undef
    | OutOfFuel => True
    end.
Hypothesis keeps_exit_parse_error :
  forall A event message,
    diagnostic message ->
    keeps (exit_parse_error (A:=A) event message).
Hypothesis keeps_parse_fd :
  forall event,
    live event ->
    tag_is (scalar_tag event) (TAG_PREFIX ++ "fd") = true ->
    keeps (parse_fd event).
Hypothesis keeps_open_file :
  forall event,
    live event ->
    tag_is (scalar_tag event) (TAG_PREFIX ++ "file") = true ->
    undef /\ forall path, keeps (open path O_RDONLY).
Hypothesis keeps_parse_socket_open :
  forall event,
    live event ->
    tag_is (scalar_tag event) (TAG_PREFIX ++ "socket") = true ->
    undef
    /\ forall typestr bindstr,
        keeps (parse_socket_open event typestr bindstr).

Lemma keeps_bind_event {B} (k : yaml_event_t -> M B) :
  (forall event, live event -> keeps (k event)) -> keeps (bind get_event k).
Proof.
  intros Hk w Hw. unfold bind. generalize (keeps_get_event w Hw).
  destruct (get_event w) as [event w1|status w1| |]; trivial.
  intros (R1 & I1 & L). generalize (Hk event L w1 I1).
  destruct (k event w1) as [b w2|status w2| |]; trivial.
  - intros [R2 I2]. eauto.
  - intros [S2 E2]. eauto.
Qed.

Ltac keeps_step :=
  first
    [ apply keeps_exit_parse_error; constructor
    | apply keeps_ret
    | apply keeps_out_of_fuel
    | apply keeps_bind; [|intros ?]
    | progress cbv zeta
    | match goal with
      | |- keeps (if ?b then _ else _) => destruct b
      | |- keeps (match ?x with _ => _ end) => destruct x
      end ].

Lemma keeps_parse_bool (event : yaml_event_t) : keeps (parse_bool event).
Proof. unfold parse_bool. repeat keeps_step. Qed.

Lemma keeps_parse_int (event : yaml_event_t) : keeps (parse_int event).
Proof. unfold parse_int. repeat keeps_step. Qed.

Lemma keeps_parse_null (event : yaml_event_t) : keeps (parse_null event).
Proof. unfold parse_null. repeat keeps_step. Qed.

Section KeptLoops.
Variable po : M (option argdata_t).
Hypothesis keeps_po : keeps po.

Lemma keeps_parse_map_entries (n : nat) :
  forall keys values, keeps (parse_map_entries po n keys values).
Proof.
  induction n as [|n IH]; intros keys values; cbn [parse_map_entries];
    [apply keeps_out_of_fuel|].
  apply keeps_bind; [exact keeps_po|]. intros [ad|]; [|apply keeps_ret].
  apply keeps_bind; [exact keeps_po|]. intros value. apply IH.
Qed.

Lemma keeps_parse_seq_entries (n : nat) :
  forall entries, keeps (parse_seq_entries po n entries).
Proof.
  induction n as [|n IH]; intros entries; cbn [parse_seq_entries];
    [apply keeps_out_of_fuel|].
  apply keeps_bind; [exact keeps_po|]. intros [ad|]; [|apply keeps_ret].
  apply IH.
Qed.

Lemma keeps_parse_file_attributes (n : nat) (event : yaml_event_t) :
  undef ->
  forall path, keeps (parse_file_attributes po n event path).
Proof.
  intros U.
  induction n as [|n IH]; intros path; cbn [parse_file_attributes];
    [apply keeps_out_of_fuel|].
  apply keeps_bind; [exact keeps_po|]. intros [key|]; [|apply keeps_ret].
  destruct (argdata_get_str_c key) as [error keystr].
  destruct (negb (error =? 0)); [apply keeps_exit_parse_error; constructor|].
  apply keeps_bind; [exact keeps_po|]. intros value.
  destruct (strcmp_eq keystr "path"); [|apply keeps_exit_parse_error; constructor].
  destruct value as [value|]; [|intros w _; exact U].
  destruct (argdata_get_str_c value) as [error' path'].
  destruct (negb (error' =? 0)); [apply keeps_exit_parse_error; constructor|].
  apply IH.
Qed.

Lemma keeps_parse_socket_attributes (n : nat) (event : yaml_event_t) :
  undef ->
  forall typestr bindstr,
    keeps (parse_socket_attributes po n event typestr bindstr).
Proof.
  intros U.
  induction n as [|n IH]; intros typestr bindstr;
    cbn [parse_socket_attributes]; [apply keeps_out_of_fuel|].
  apply keeps_bind; [exact keeps_po|]. intros [key|]; [|apply keeps_ret].
  destruct (argdata_get_str_c key) as [error keystr].
  destruct (negb (error =? 0)); [apply keeps_exit_parse_error; constructor|].
  apply keeps_bind; [exact keeps_po|]. intros value.
  destruct (strcmp_eq keystr "type").
  - destruct value as [value|]; [|intros w _; exact U].
    destruct (argdata_get_str_c value) as [error' typestr'].
    destruct (negb (error' =? 0)); [apply keeps_exit_parse_error; constructor|].
    apply IH.
  - destruct (strcmp_eq keystr "bind"); [|apply keeps_exit_parse_error; constructor].
    destruct value as [value|]; [|intros w _; exact U].
    destruct (argdata_get_str_c value) as [error' bindstr'].
    destruct (negb (error' =? 0)); [apply keeps_exit_parse_error; constructor|].
    apply IH.
Qed.

Lemma keeps_parse_file (n : nat) (event : yaml_event_t) :
  live event ->
  tag_is (scalar_tag event) (TAG_PREFIX ++ "file") = true ->
  keeps (parse_file po n event).
Proof.
  intros L T. destruct (keeps_open_file event L T) as [U Hopen].
  unfold parse_file.
  apply keeps_bind; [now apply keeps_parse_file_attributes|].
  intros [path|]; [|apply keeps_exit_parse_error; constructor].
  apply keeps_bind; [apply Hopen|]. intros r.
  destruct (fst r <? 0); [apply keeps_exit_parse_error; constructor | apply keeps_ret].
Qed.

Lemma keeps_parse_socket (n : nat) (event : yaml_event_t) :
  live event ->
  tag_is (scalar_tag event) (TAG_PREFIX ++ "socket") = true ->
  keeps (parse_socket po n event).
Proof.
  intros L T. destruct (keeps_parse_socket_open event L T) as [U Hopen].
  unfold parse_socket.
  apply keeps_bind; [now apply keeps_parse_socket_attributes|].
  intros attrs. apply Hopen.
Qed.

End KeptLoops.

Ltac keeps_test :=
  match goal with
  | |- keeps (if ?b then _ else _) => destruct b eqn:?
  end.

Lemma keeps_parse_object (fuel : nat) : keeps (parse_object fuel).
Proof.
  induction fuel as [|fuel IH]; [apply keeps_out_of_fuel|].
  cbn [parse_object]. apply keeps_bind_event. intros event L. cbv zeta.
  destruct (event_type event); try (apply keeps_exit_parse_error; constructor);
    try apply keeps_ret; try exact IH.
  - (* scalar *)
    keeps_test; [apply keeps_ret|].
    keeps_test; [apply keeps_bind; [apply keeps_parse_bool|];
                 intros ad; apply keeps_ret|].
    keeps_test; [apply keeps_bind; [apply keeps_parse_int|];
                 intros ad; apply keeps_ret|].
    keeps_test; [apply keeps_bind; [apply keeps_parse_null|];
                 intros ad; apply keeps_ret|].
    keeps_test; [|apply keeps_exit_parse_error; constructor].
    apply keeps_bind; [now apply keeps_parse_fd|].
    intros ad; apply keeps_ret.
  - (* sequence start *)
    keeps_test; [|apply keeps_exit_parse_error; constructor].
    apply keeps_bind; [now apply keeps_parse_seq_entries|].
    intros ad; apply keeps_ret.
  - (* mapping start *)
    keeps_test; [apply keeps_bind; [now apply keeps_parse_map_entries|];
                 intros ad; apply keeps_ret|].
    keeps_test; [apply keeps_bind; [now apply keeps_parse_file|];
                 intros ad; apply keeps_ret|].
    keeps_test; [|apply keeps_exit_parse_error; constructor].
    apply keeps_bind; [now apply keeps_parse_socket|].
    intros ad; apply keeps_ret.
Qed.

End Keeping.

(** *** Standard error *)

Lemma silent_trans (w1 w2 w3 : world OS) :
  silent w1 w2 -> silent w2 w3 -> silent w1 w3.
Proof. unfold silent. congruence. Qed.

Lemma silent_then_diagnosed (w1 w2 w3 : world OS) :
  silent w1 w2 -> diagnosed w2 w3 -> diagnosed w1 w3.
Proof.
  unfold silent. intros H (mark & message & D & H'). exists mark, message.
  split; [exact D | congruence].
Qed.

Local Abbreviation reports :=
  (@keeps OS True (fun _ => True) silent diagnosed).

Lemma reports_bind {A B} (m : M A) (k : A -> M B) :
  reports m -> (forall a, reports (k a)) -> reports (bind m k).
Proof.
  apply (keeps_bind True (fun _ => True) silent diagnosed
           silent_trans silent_then_diagnosed).
Qed.

Lemma reports_ret {A} (a : A) : reports (ret a).
Proof. intros w _. cbn. split; reflexivity || exact Logic.I. Qed.

Lemma reports_exit_parse_error {A} (event : yaml_event_t) (message : string) :
  diagnostic message ->
  reports (exit_parse_error (A:=A) event message).
Proof.
  intros D w _. change (exit_parse_error event message w)
    with (Exit (A:=A) 127 (failed event message w)).
  split; [reflexivity|].
  exists (start_mark event), message. split; [exact D|].
  unfold failed, printed. cbn [w_stderr]. now rewrite !append_assoc.
Qed.

Lemma reports_observe {A} (c : call) (f : OS -> A) : reports (observe c f).
Proof. intros w _. cbn. split; reflexivity || exact Logic.I. Qed.

Lemma reports_syscall {A} (c : call) (f : OS -> A * OS) :
  reports (syscall c f).
Proof.
  intros w _. unfold syscall. destruct (f (w_os w)). cbn.
  split; reflexivity || exact Logic.I.
Qed.

Ltac reports_step :=
  first
    [ apply reports_exit_parse_error; constructor
    | apply reports_ret
    | apply reports_observe
    | apply reports_syscall
    | exact (fun _ _ => Logic.I)
    | apply reports_bind; [|intros ?]
    | progress cbv zeta
    | match goal with
      | |- keeps _ _ _ _ (if ?b then _ else _) => destruct b
      | |- keeps _ _ _ _ (match ?x with _ => _ end) => destruct x
      end ].

Lemma reports_get_event (w : world OS) :
  match get_event w with
  | Ok event w' => silent w w' /\ True /\ True
  | Exit status w' => status = 127 /\ diagnosed w w'
  | Undefined => True
  | OutOfFuel => True
  end.
Proof.
  unfold get_event.
  destruct (next_event (w_parser w)) as [[event rest]|mark]; cbn.
  - repeat split.
  - split; [reflexivity|]. exists mark, "Parse error".
    split; [constructor | reflexivity].
Qed.

Lemma reports_parse_fd (event : yaml_event_t) : reports (parse_fd event).
Proof.
  unfold parse_fd, parse_fd_number, fstat. repeat reports_step.
Qed.

Lemma reports_open (path : string) (oflag : open_flag) :
  reports (open path oflag).
Proof. apply reports_syscall. Qed.

Lemma reports_parse_socket_open (event : yaml_event_t) (typestr : string)
    (bindstr : option string) :
  reports (parse_socket_open event typestr bindstr).
Proof.
  unfold parse_socket_open, parse_socket_type, parse_socket_address,
    parse_socket_create, getaddrinfo, socket, setsockopt, bind_, listen.
  repeat reports_step.
Qed.

Lemma reports_parse_object (fuel : nat) : reports (parse_object fuel).
Proof.
  apply (keeps_parse_object True (fun _ => True) silent diagnosed
           (fun _ => True)).
  - intros w. reflexivity.
  - exact silent_trans.
  - exact silent_then_diagnosed.
  - intros w _. apply reports_get_event.
  - intros A event message. apply reports_exit_parse_error.
  - intros event _ _. apply reports_parse_fd.
  - intros event _ _. split; [exact Logic.I|].
    intros path. apply reports_open.
  - intros event _ _. split; [exact Logic.I|].
    intros typestr bindstr. apply reports_parse_socket_open.
Qed.

(** X2.  The tree builder writes to standard error only when it gives up,
    and then one diagnostic.  When [parse_object] returns, nothing was
    written.  When it ends the run, the status is 127 and standard error
    holds what it held before followed by the position
    [stdin:line:column: ], one of the messages of the source
    ([diagnostic]) and a newline, and by nothing else.  A message quotes
    text of the input as it is: the diagnostic is one line unless that
    text holds a newline.  The bound of the model is not reached. *)
Theorem parse_object_reports_each_failure_once (w : world OS) :
  match parse_object_top w with
  | Ok _ w' => w_stderr w' = w_stderr w
  | Exit status w' =>
      status = 127
      /\ exists (mark : yaml_mark_t) (message : string),
          diagnostic message
          /\ w_stderr w'
             = w_stderr w ++ "stdin:" ++ decimal (wrap64 (line mark + 1))
               ++ ":" ++ decimal (wrap64 (column mark + 1)) ++ ": "
               ++ message ++ newline
  | Undefined => True
  | OutOfFuel => False
  end.
Proof.
  assert (B := sound_parse_object_top w).
  assert (K := reports_parse_object (S (List.length (w_parser w))) w Logic.I).
  unfold parse_object_top in *.
  destruct (parse_object (S (List.length (w_parser w))) w)
    as [ad w'|status w'| |]; cbn in B.
  - exact (proj1 K).
  - split; [exact (proj1 K)|].
    destruct (proj2 K) as (mark & message & D & H). exists mark, message.
    split; [exact D|].
    rewrite H. unfold position. now rewrite !append_assoc.
  - exact Logic.I.
  - exact B.
Qed.

(** *** Input that is data only *)

Lemma untouched_trans (w1 w2 w3 : world OS) :
  untouched w1 w2 -> untouched w2 w3 -> untouched w1 w3.
Proof. unfold untouched. intros [A1 B1] [A2 B2]. split; congruence. Qed.

Lemma next_event_plain (parser rest : yaml_parser_t) (event : yaml_event_t) :
  plain_data parser = true ->
  next_event parser = inl (event, rest) ->
  plain_event event = true /\ plain_data rest = true.
Proof.
  induction parser as [|step parser IH]; cbn [next_event plain_data forallb].
  - intros _ H. injection H as <- <-. split; reflexivity.
  - intros H. apply andb_prop in H. destruct H as [Hstep Hrest].
    destruct step as [e|mark]; [|discriminate].
    cbn [plain_step] in Hstep.
    destruct (event_type e);
      try (intros H; injection H as <- <-; split; assumption);
      now apply IH.
Qed.

Lemma plain_event_has_no_resource_tag (event : yaml_event_t) (name : string) :
  plain_event event = true ->
  tag_is (scalar_tag event) (TAG_PREFIX ++ name) = true ->
  name = "fd" \/ name = "file" \/ name = "socket" ->
  False.
Proof.
  unfold plain_event, resource_tag. intros Hplain Htag Hname.
  apply negb_true_iff in Hplain.
  apply orb_false_elim in Hplain. destruct Hplain as [Hplain Hsocket].
  apply orb_false_elim in Hplain. destruct Hplain as [Hfd Hfile].
  destruct Hname as [->|[->| ->]]; congruence.
Qed.

Local Abbreviation aloof :=
  (@keeps OS False (fun w => plain_data (w_parser w) = true)
          untouched untouched).

Lemma aloof_parse_object (fuel : nat) : aloof (parse_object fuel).
Proof.
  apply (keeps_parse_object False
           (fun w => plain_data (w_parser w) = true) untouched untouched
           (fun event => plain_event event = true)).
  - intros w. split; reflexivity.
  - exact untouched_trans.
  - exact untouched_trans.
  - intros w Hw. unfold get_event.
    destruct (next_event (w_parser w)) as [[event rest]|mark] eqn:E; cbn.
    + destruct (next_event_plain _ _ _ Hw E) as [He Hrest].
      repeat split; assumption.
    + repeat split.
  - intros A event message w Hw. repeat split.
  - intros event L T. exfalso.
    apply (plain_event_has_no_resource_tag event "fd" L T). tauto.
  - intros event L T. exfalso.
    apply (plain_event_has_no_resource_tag event "file" L T). tauto.
  - intros event L T. exfalso.
    apply (plain_event_has_no_resource_tag event "socket" L T). tauto.
Qed.

(** X3.  Input that is data only reaches no system call.  When no event
    of the input carries the fd, file or socket tag, [parse_object] makes
    no call to the operating system and leaves the machine as it was,
    whether it returns or ends the run with status 127; it meets no
    undefined behaviour, and the bound of the model is not reached. *)
Theorem plain_data_reaches_no_system_call (w : world OS) :
  plain_data (w_parser w) = true ->
  match parse_object_top w with
  | Ok _ w' => w_os w' = w_os w /\ w_calls w' = w_calls w
  | Exit status w' =>
      status = 127 /\ w_os w' = w_os w /\ w_calls w' = w_calls w
  | Undefined => False
  | OutOfFuel => False
  end.
Proof.
  intros Hw.
  assert (B := sound_parse_object_top w).
  assert (K := aloof_parse_object (S (List.length (w_parser w))) w Hw).
  unfold parse_object_top in *.
  destruct (parse_object (S (List.length (w_parser w))) w)
    as [ad w'|status w'| |]; cbn in B.
  - exact (proj1 K).
  - exact K.
  - exact K.
  - exact B.
Qed.

(** *** A launch that succeeds *)

Lemma main_options_returns (argv0 : string) (chars : list ascii)
    (do_emulate flag : bool) (w w' : world OS) :
  main_options argv0 chars do_emulate w = Ok flag w' ->
  w' = w
  /\ Forall (eq "e"%char) chars
  /\ flag = (do_emulate || negb (Nat.eqb (List.length chars) 0))%bool.
Proof.
  revert do_emulate. induction chars as [|c chars IH]; intros do_emulate;
    cbn [main_options List.length Nat.eqb negb].
  - intros H. injection H as <- <-.
    repeat split; [constructor | now rewrite orb_false_r].
  - destruct (Ascii.eqb_spec c "e") as [->|N]; [|discriminate].
    intros H. destruct (IH _ H) as (-> & F & ->).
    repeat split; [now constructor | now rewrite orb_true_r].
Qed.

Lemma main_exec_returns (executable : string) (ad : option argdata_t)
    (h : handoff) (w w' : world OS) :
  main_exec executable ad w = Ok h w' ->
  h = Replaced
  /\ w_stderr w' = w_stderr w
  /\ w_calls w' = (w_calls w ++ [Call_open executable O_EXEC])%list.
Proof.
  unfold main_exec, bind, open, syscall, run_program_exec.
  destruct (sys_open (w_os w) executable O_EXEC) as [[fd error] os'].
  cbn [fst snd]. destruct (fd =? -1); [discriminate|].
  destruct ad as [ad|]; [|discriminate].
  cbn [w_os with_os called].
  destruct (program_exec os' fd ad); [discriminate|].
  intros H. injection H as <- <-. repeat split.
Qed.

Lemma main_emulate_returns (executable : string) (ad : option argdata_t)
    (h : handoff) (w w' : world OS) :
  main_emulate executable ad w = Ok h w' ->
  h = Emulating
  /\ w_stderr w' = w_stderr w ++ emulation_warning
  /\ w_calls w' = (w_calls w ++ [Call_open executable O_RDONLY])%list.
Proof.
  unfold main_emulate. destruct ad as [ad|]; [|discriminate].
  destruct (argdata_get_buffer_length ad) as [buflen fdslen].
  unfold bind at 1, malloc.
  destruct (sys_malloc (w_os w) (wrap64 (fdslen * 4 + buflen)));
    cbn [negb]; [|discriminate].
  destruct (argdata_get_buffer ad) as [buf fds].
  unfold bind at 1.
  destruct (register_fds 0 fds w) as [[] w1|status w1| |] eqn:Hreg;
    try discriminate.
  destruct (register_fds_returns fds 0 w w1 Hreg) as [E1 C1].
  unfold bind, open, syscall, run_emulate, eprint.
  destruct (sys_open (w_os w1) executable O_RDONLY) as [[fd error] os'].
  cbn [fst snd]. destruct (fd =? -1); [discriminate|].
  cbn [w_os with_os called printed].
  destruct (emulate os' fd buf buflen); [discriminate|].
  intros H. injection H as <- <-. unfold printed, with_os, called.
  cbn [w_stderr w_calls]. rewrite E1, C1. repeat split.
Qed.

(** X4.  What a launch that succeeds has done.  When [main] hands over,
    the calls of [getopt] went through nothing but [e] options and left
    exactly one operand, the executable; which arguments [getopt] takes
    for options is the C library's matter ([getopt_scan]), so that with
    glibc the operand may come before the option.  It hands over to the
    emulator when an [-e] was given and to the operating system
    otherwise.  In direct mode it
    wrote nothing to standard error; in emulated mode it wrote the
    warning about emulation and nothing else.  The last call it made to
    the operating system opened the executable: for execution in direct
    mode, for reading in emulated mode. *)
Theorem successful_launch_opens_the_executable_last
    (argv0 : string) (args : list string) (w w' : world OS) (h : handoff) :
  main argv0 args w = Ok h w' ->
  exists executable,
    snd (getopt_scan args) = [executable]
    /\ Forall (eq "e"%char) (fst (getopt_scan args))
    /\ (h = Emulating <-> fst (getopt_scan args) <> [])
    /\ (h = Replaced <-> fst (getopt_scan args) = [])
    /\ w_stderr w'
       = w_stderr w ++ match h with
                       | Replaced => EmptyString
                       | Emulating => emulation_warning
                       end
    /\ exists calls,
        w_calls w'
        = (calls ++ [Call_open executable
                               match h with
                               | Replaced => O_EXEC
                               | Emulating => O_RDONLY
                               end])%list.
Proof.
  unfold main. destruct (getopt_scan args) as [chars operands].
  cbn [fst snd]. unfold bind at 1.
  destruct (main_options argv0 chars false w) as [flag w0|status w0| |] eqn:Ho;
    try discriminate.
  destruct (main_options_returns _ _ _ _ _ _ Ho) as (-> & Hchars & ->).
  destruct operands as [|executable [|more operands]]; try discriminate.
  unfold bind at 1.
  assert (K := reports_parse_object (S (List.length (w_parser w))) w Logic.I).
  unfold parse_object_top.
  destruct (parse_object (S (List.length (w_parser w))) w)
    as [ad w1|status w1| |]; try discriminate.
  destruct K as [K _]. unfold silent in K.
  intros H. exists executable. split; [reflexivity|]. split; [exact Hchars|].
  destruct chars as [|c chars]; cbn [orb negb List.length Nat.eqb] in H.
  - destruct (main_exec_returns _ _ _ _ _ H) as (-> & E & C).
    split; [split; [discriminate | congruence]|].
    split; [split; reflexivity|].
    split; [rewrite E, K; now rewrite append_empty_r|].
    now exists (w_calls w1).
  - destruct (main_emulate_returns _ _ _ _ _ H) as (-> & E & C).
    split; [split; [discriminate | reflexivity]|].
    split; [split; discriminate|].
    split; [now rewrite E, K|].
    now exists (w_calls w1).
Qed.

(** *** The events that reach the tree builder *)

Lemma next_event_skips (parser : yaml_parser_t) :
  exists skipped,
    forallb is_end_step skipped = true
    /\ match next_event parser with
       | inl (event, rest) =>
           is_end_step (Produce event) = false
           /\ (parser = (skipped ++ Produce event :: rest)%list
               \/ (parser = skipped /\ event = empty_event /\ rest = []))
       | inr mark =>
           exists rest, parser = (skipped ++ Fail mark :: rest)%list
       end.
Proof.
  induction parser as [|step parser (skipped & Hs & IH)]; cbn [next_event].
  - exists []. repeat split. now right.
  - destruct step as [e|mark].
    + destruct (event_type e) eqn:Ety;
        try (exists []; split; [reflexivity|];
             split; [cbn; now rewrite Ety | now left]);
        exists (Produce e :: skipped);
        (split; [cbn; now rewrite Ety, Hs|]);
        (destruct (next_event parser) as [[event rest]|mark];
         [ destruct IH as [He [->|(-> & -> & ->)]];
           (split; [exact He|]); [now left | now right]
         | destruct IH as (rest & ->); now exists rest ]).
    + exists []. split; [reflexivity|]. now exists parser.
Qed.

(** X5.  [get_event] hands the tree builder the next event that is not
    the end of a document or of the stream.  It passes over nothing but
    such ends; what follows the event stays in the parser, and nothing
    else changes.  After the last event it hands out the empty event.
    When the tokenizer fails first, the run ends with status 127 and the
    one line [stdin:line:column: Parse error], built from the tokenizer's
    mark with line and column counted from one. *)
Theorem get_event_passes_over_the_ends (w : world OS) :
  exists skipped,
    forallb is_end_step skipped = true
    /\ match get_event w with
       | Ok event w' =>
           event_type event <> YAML_DOCUMENT_END_EVENT
           /\ event_type event <> YAML_STREAM_END_EVENT
           /\ w' = with_parser w (w_parser w')
           /\ (w_parser w = (skipped ++ Produce event :: w_parser w')%list
               \/ (w_parser w = skipped /\ event = empty_event
                   /\ w_parser w' = []))
       | Exit status w' =>
           status = 127
           /\ exists mark rest,
               w_parser w = (skipped ++ Fail mark :: rest)%list
               /\ w' = printed w ("stdin:" ++ decimal (wrap64 (line mark + 1))
                                  ++ ":"
                                  ++ decimal (wrap64 (column mark + 1))
                                  ++ ": Parse error" ++ newline)
       | Undefined => False
       | OutOfFuel => False
       end.
Proof.
  destruct (next_event_skips (w_parser w)) as (skipped & Hs & H).
  exists skipped. split; [exact Hs|]. unfold get_event.
  destruct (next_event (w_parser w)) as [[event rest]|mark].
  - destruct H as [He H]. cbn [is_end_step] in He.
    split; [intros E; now rewrite E in He|].
    split; [intros E; now rewrite E in He|].
    split; [reflexivity|]. exact H.
  - destruct H as (rest & H).
    change (bind (eprint (position mark ++ "Parse error" ++ newline))
                 (fun _ => exit 127) w)
      with (Exit (A:=yaml_event_t) 127
              (printed w (position mark ++ "Parse error" ++ newline))).
    split; [reflexivity|].
    exists mark, rest. split; [exact H|].
    unfold position. rewrite !append_assoc. reflexivity.
Qed.

(** *** One node at a time *)

(** X6.  [parse_object] reads one node and no more.  When the input
    starts with the events of one node, well nested as the tokenizer
    delivers them, and the resolver never reports success without an
    address, [parse_object] either returns a node and leaves the parser
    exactly behind the events of that node, or ends the run with status
    127.  When the input is the beginning of a node cut short by a failure
    of the tokenizer, it ends the run with status 127. *)
Theorem parse_object_reads_exactly_one_node
    (node rest : yaml_parser_t) (w : world OS) :
  (forall os hostname servname hint,
      sys_getaddrinfo os hostname servname hint = (0, []) -> False) ->
  w_parser w = (node ++ rest)%list ->
  (node_events node ->
   (exists ad w', parse_object_top w = Ok (Some ad) w' /\ w_parser w' = rest)
   \/ (exists w', parse_object_top w = Exit 127 w'))
  /\ (cut_events node ->
      rest = [] ->
      exists w', parse_object_top w = Exit 127 w').
Proof.
  intros Hres Hw. unfold parse_object_top. split.
  - intros Hnode.
    assert (T := proj1 (strict_parse_object Hres (S (List.length (w_parser w))))
                   node rest w Hnode Hw (Nat.lt_succ_diag_r _)).
    destruct (parse_object (S (List.length (w_parser w))) w)
      as [[ad|] w'|status w'| |]; cbn in T; try contradiction.
    + left. exists ad, w'. split; [reflexivity | exact (proj2 T)].
    + now destruct T.
    + right. exists w'. now rewrite T.
  - intros Hcut ->. rewrite app_nil_r in Hw.
    assert (T := proj2 (strict_parse_object Hres (S (List.length (w_parser w))))
                   node w Hcut Hw (Nat.lt_succ_diag_r _)).
    destruct (parse_object (S (List.length (w_parser w))) w)
      as [ad w'|status w'| |]; cbn in T; try contradiction.
    exists w'. now rewrite T.
Qed.

(** *** What the tree builder makes of data *)

Lemma substring_whole (s : string) : String.substring 0 (String.length s) s = s.
Proof. induction s as [|c s IH]; cbn; [reflexivity | now rewrite IH]. Qed.

Lemma denotes_nonempty (node : yaml_parser_t) (ad : argdata_t) :
  denotes node ad -> (0 < List.length node)%nat.
Proof. intros H. destruct H; cbn; lia. Qed.

Lemma get_event_scalar (w : world OS) (event : yaml_event_t)
    (rest : yaml_parser_t) (ty : yaml_event_type_t) :
  w_parser w = Produce event :: rest ->
  event_type event = ty ->
  ty <> YAML_DOCUMENT_END_EVENT ->
  ty <> YAML_STREAM_END_EVENT ->
  get_event w = Ok event (with_parser w rest).
Proof. intros Hw <- N1 N2. now apply get_event_produce. Qed.

Lemma parse_object_denotes :
  (forall node ad,
      denotes node ad ->
      forall fuel (w : world OS) rest,
        w_parser w = (node ++ rest)%list ->
        (List.length node < fuel)%nat ->
        parse_object fuel w = Ok (Some ad) (with_parser w rest)).
Proof.
  apply (denotes_min
    (fun node ad =>
       forall fuel (w : world OS) rest,
         w_parser w = (node ++ rest)%list ->
         (List.length node < fuel)%nat ->
         parse_object fuel w = Ok (Some ad) (with_parser w rest))
    (fun items entries =>
       forall fuel n (w : world OS) stop rest entries0,
         w_parser w = (items ++ Produce stop :: rest)%list ->
         event_type stop = YAML_SEQUENCE_END_EVENT ->
         (List.length items < fuel)%nat ->
         (List.length items < n)%nat ->
         parse_seq_entries (parse_object fuel) n entries0 w
         = Ok (AD_SEQ (entries0 ++ entries)%list) (with_parser w rest))
    (fun pairs keys values =>
       forall fuel n (w : world OS) stop rest keys0 values0,
         w_parser w = (pairs ++ Produce stop :: rest)%list ->
         event_type stop = YAML_MAPPING_END_EVENT ->
         (List.length pairs < fuel)%nat ->
         (List.length pairs < n)%nat ->
         parse_map_entries (parse_object fuel) n keys0 values0 w
         = Ok (AD_MAP (keys0 ++ keys)%list (values0 ++ values)%list)
              (with_parser w rest))).
  - (* string *)
    intros event Hty Htag fuel w rest Hw Hfuel.
    destruct fuel as [|fuel]; [lia|]. cbn [parse_object]. unfold bind at 1.
    rewrite (get_event_scalar w event rest _ Hw Hty) by discriminate.
    rewrite Hty. cbv zeta. rewrite (generic_tag _ _ Htag eq_refl).
    unfold ret, argdata_create_str, scalar_length.
    now rewrite substring_whole.
  - (* boolean *)
    intros event b Hty Htag Hval fuel w rest Hw Hfuel.
    destruct fuel as [|fuel]; [lia|]. cbn [parse_object]. unfold bind at 1.
    rewrite (get_event_scalar w event rest _ Hw Hty) by discriminate.
    rewrite Hty. cbv zeta. settle_tags Htag.
    unfold bind, parse_bool, strcmp_eq. rewrite Hval.
    now destruct b.
  - (* integer *)
    intros event Hty Htag Hne Hdigits Hfits fuel w rest Hw Hfuel.
    destruct fuel as [|fuel]; [lia|]. cbn [parse_object]. unfold bind at 1.
    rewrite (get_event_scalar w event rest _ Hw Hty) by discriminate.
    rewrite Hty. cbv zeta. settle_tags Htag.
    unfold bind. rewrite parse_int_decodes.
    rewrite (int_of_token_decimal _ _ Hne Hdigits).
    apply Z.leb_le in Hfits. now rewrite Hfits.
  - (* null *)
    intros event Hty Htag fuel w rest Hw Hfuel.
    destruct fuel as [|fuel]; [lia|]. cbn [parse_object]. unfold bind at 1.
    rewrite (get_event_scalar w event rest _ Hw Hty) by discriminate.
    rewrite Hty. cbv zeta. settle_tags Htag. reflexivity.
  - (* sequence *)
    intros start stop items entries Hty Htag Hstop _ IH fuel w rest Hw Hfuel.
    destruct fuel as [|fuel]; [lia|]. cbn [parse_object]. unfold bind at 1.
    cbn [app] in Hw.
    rewrite (get_event_scalar w start _ _ Hw Hty) by discriminate.
    rewrite Hty. cbv zeta. rewrite (generic_tag _ _ Htag eq_refl).
    unfold bind, parse_seq.
    cbn [List.length] in Hfuel. rewrite length_app in Hfuel.
    cbn [List.length] in Hfuel.
    rewrite (IH fuel fuel (with_parser w ((items ++ [Produce stop]) ++ rest)%list)
                stop rest []);
      [ reflexivity
      | cbn [w_parser with_parser]; now rewrite <- app_assoc
      | exact Hstop | lia | lia ].
  - (* mapping *)
    intros start stop pairs keys values Hty Htag Hstop _ IH fuel w rest Hw
           Hfuel.
    destruct fuel as [|fuel]; [lia|]. cbn [parse_object]. unfold bind at 1.
    cbn [app] in Hw.
    rewrite (get_event_scalar w start _ _ Hw Hty) by discriminate.
    rewrite Hty. cbv zeta. rewrite (generic_tag _ _ Htag eq_refl).
    unfold bind, parse_map.
    cbn [List.length] in Hfuel. rewrite length_app in Hfuel.
    cbn [List.length] in Hfuel.
    rewrite (IH fuel fuel (with_parser w ((pairs ++ [Produce stop]) ++ rest)%list)
                stop rest [] []);
      [ reflexivity
      | cbn [w_parser with_parser]; now rewrite <- app_assoc
      | exact Hstop | lia | lia ].
  - (* no item *)
    intros fuel n w stop rest entries0 Hw Hstop Hfuel Hn.
    destruct n as [|n]; [lia|]. destruct fuel as [|fuel]; [lia|].
    cbn [parse_seq_entries]. unfold bind at 1.
    cbn [parse_object]. unfold bind at 1. cbn [app] in Hw.
    rewrite (get_event_scalar w stop rest _ Hw Hstop) by discriminate.
    rewrite Hstop. cbn. now rewrite app_nil_r.
  - (* one more item *)
    intros node items ad entries Hnode IHnode _ IH fuel n w stop rest
           entries0 Hw Hstop Hfuel Hn.
    destruct n as [|n]; [lia|]. cbn [parse_seq_entries]. unfold bind at 1.
    rewrite length_app in Hfuel, Hn.
    assert (L := denotes_nonempty _ _ Hnode).
    rewrite <- app_assoc in Hw.
    rewrite (IHnode fuel w _ Hw) by lia.
    rewrite (IH fuel n _ stop rest (entries0 ++ [ad])%list);
      [ now rewrite <- app_assoc | reflexivity | exact Hstop | lia | lia ].
  - (* no pair *)
    intros fuel n w stop rest keys0 values0 Hw Hstop Hfuel Hn.
    destruct n as [|n]; [lia|]. destruct fuel as [|fuel]; [lia|].
    cbn [parse_map_entries]. unfold bind at 1.
    cbn [parse_object]. unfold bind at 1. cbn [app] in Hw.
    rewrite (get_event_scalar w stop rest _ Hw Hstop) by discriminate.
    rewrite Hstop. cbn. now rewrite !app_nil_r.
  - (* one more pair *)
    intros key value pairs k v keys values Hkey IHkey Hvalue IHvalue _ IH
           fuel n w stop rest keys0 values0 Hw Hstop Hfuel Hn.
    destruct n as [|n]; [lia|]. cbn [parse_map_entries]. unfold bind at 1.
    rewrite !length_app in Hfuel, Hn.
    assert (Lk := denotes_nonempty _ _ Hkey).
    assert (Lv := denotes_nonempty _ _ Hvalue).
    rewrite <- !app_assoc in Hw.
    rewrite (IHkey fuel w _ Hw) by lia.
    unfold bind at 1.
    rewrite (IHvalue fuel (with_parser w _) _ eq_refl) by lia.
    rewrite (IH fuel n _ stop rest (keys0 ++ [k])%list
                (values0 ++ [Some v])%list);
      [ now rewrite <- !app_assoc | reflexivity | exact Hstop | lia | lia ].
Qed.

(** X7.  Data comes out as it went in.  When the input starts with the
    events of a node that is data only (strings, the booleans [true] and
    [false], nulls, decimal integers that fit 64 bits, and untagged or
    plainly tagged sequences and mappings of such nodes), [parse_object]
    returns the argument data the node stands for: every scalar with its
    value, the entries of every sequence and the keys and values of every
    mapping in the order of the input, none left out.  It leaves the
    parser behind the node, writes nothing and calls nothing. *)
Theorem parse_object_builds_what_the_data_denotes
    (node rest : yaml_parser_t) (ad : argdata_t) (w : world OS) :
  denotes node ad ->
  w_parser w = (node ++ rest)%list ->
  parse_object_top w = Ok (Some ad) (with_parser w rest).
Proof.
  intros Hnode Hw. unfold parse_object_top.
  apply (parse_object_denotes node ad Hnode); [exact Hw|].
  rewrite Hw, length_app. lia.
Qed.

(** *** Descriptors *)

Lemma scan_digits_grows (base : Z) (s : string) :
  0 <= base ->
  forall acc, 0 <= acc -> 0 <= fst (scan_digits base s acc).
Proof.
  intros Hbase. induction s as [|c r IH]; intros acc Hacc;
    cbn [scan_digits]; [exact Hacc|].
  unfold digit_in. destruct (digit_of c) as [d|] eqn:Ed; [|exact Hacc].
  destruct (d <? base); [|exact Hacc].
  assert (0 <= d).
  { unfold digit_of in Ed.
    repeat match type of Ed with
           | (if ?b then _ else _) = _ => destruct b eqn:?
           end; try discriminate; injection Ed as <-; lia. }
  specialize (IH (acc * base + d) ltac:(nia)).
  destruct (scan_digits base r (acc * base + d)). exact IH.
Qed.

Lemma scan_subject_magnitude (s : string) (base : Z) :
  0 <= base -> 0 <= sub_mag (scan_subject s base).
Proof.
  intros Hbase. unfold scan_subject.
  repeat match goal with
         | |- context [let '(_, _) := ?x in _] => destruct x eqn:?
         end.
  cbn [sub_mag].
  match goal with
  | H : scan_digits base ?t 0 = (_, _) |- _ =>
      assert (G := scan_digits_grows base t Hbase 0 (Z.le_refl 0));
      rewrite H in G; exact G
  end.
Qed.

Lemma strtoimax_value (noconv : Z) (s : string) (base : Z) :
  0 <= base ->
  INTMAX_MIN <= conv_value (strtoimax noconv s base) <= INTMAX_MAX.
Proof.
  intros Hbase. assert (M := scan_subject_magnitude s base Hbase).
  unfold strtoimax, no_conversion, INTMAX_MIN, INTMAX_MAX.
  destruct (sub_digits (scan_subject s base)); cbn [conv_value]; [lia|].
  destruct (sub_neg (scan_subject s base)).
  - destruct (Z.ltb_spec (- sub_mag (scan_subject s base))
                (-9223372036854775808)); cbn [conv_value]; lia.
  - destruct (Z.ltb_spec 9223372036854775807
                (sub_mag (scan_subject s base))); cbn [conv_value]; lia.
Qed.

Lemma strtoumax_range (noconv : Z) (s : string) (base : Z) :
  0 <= base ->
  0 <= conv_value (strtoumax noconv s base) <= UINTMAX_MAX.
Proof.
  intros Hbase. assert (M := scan_subject_magnitude s base Hbase).
  unfold strtoumax, no_conversion, UINTMAX_MAX.
  destruct (sub_digits (scan_subject s base)); cbn [conv_value]; [lia|].
  destruct (Z.ltb_spec 18446744073709551615 (sub_mag (scan_subject s base)));
    cbn [conv_value]; [lia|].
  destruct (sub_neg (scan_subject s base)); [|lia].
  assert (B := Z.mod_pos_bound (- sub_mag (scan_subject s base)) (2 ^ 64)
                 ltac:(lia)).
  unfold wrap64. change (2 ^ 64) with 18446744073709551616 in *. lia.
Qed.

(** X8.  What [parse_fd] returns and what it calls.  A node comes back
    only as the Fd node of a descriptor between 0 and [INT_MAX] that the
    one [fstat] call made found open; nothing is written and the machine
    is as it was.  When [parse_fd] ends the run, the status is 127 and it
    made no call at all (the number was refused) or that one [fstat] call
    (the descriptor was not open). *)
Theorem parse_fd_returns_a_probed_descriptor
    (event : yaml_event_t) (w : world OS) :
  match parse_fd event w with
  | Ok ad w' =>
      exists fd,
        ad = AD_FD fd
        /\ 0 <= fd <= INT_MAX
        /\ fst (sys_fstat (w_os w) fd) = 0
        /\ w' = called w (Call_fstat fd)
  | Exit status w' =>
      status = 127
      /\ w_os w' = w_os w
      /\ (w_calls w' = w_calls w
          \/ exists fd,
              0 <= fd <= INT_MAX
              /\ fst (sys_fstat (w_os w) fd) <> 0
              /\ w_calls w' = (w_calls w ++ [Call_fstat fd])%list)
  | Undefined => False
  | OutOfFuel => False
  end.
Proof.
  assert (Number :
    match parse_fd_number event w with
    | Ok fd w' => 0 <= fd <= INT_MAX /\ w' = w
    | Exit status w' =>
        status = 127 /\ w_os w' = w_os w /\ w_calls w' = w_calls w
    | _ => False
    end).
  { unfold parse_fd_number.
    destruct (strcmp_eq (scalar_value event) "stdout");
      [cbn; split; [unfold STDOUT_FILENO, INT_MAX; lia | reflexivity]|].
    destruct (strcmp_eq (scalar_value event) "stderr");
      [cbn; split; [unfold STDOUT_FILENO, INT_MAX; lia | reflexivity]|].
    cbv zeta.
    destruct (conv_errno (strtoul noconv_errno (scalar_value event) 10) =? 0)
      eqn:He; cbn [negb orb]; [|repeat split].
    destruct (Nat.eqb _ _); cbn [negb orb]; [|repeat split].
    destruct (Z.ltb_spec INT_MAX
                (conv_value (strtoul noconv_errno (scalar_value event) 10)));
      [repeat split|].
    cbn. split; [|reflexivity]. split; [|assumption].
    apply (strtoumax_range noconv_errno (scalar_value event) 10). lia. }
  unfold parse_fd, bind at 1.
  destruct (parse_fd_number event w) as [fd w0|status w0| |];
    try contradiction.
  - destruct Number as [Range ->].
    unfold bind, fstat, observe. cbv beta iota.
    destruct (Z.eqb_spec (fst (sys_fstat (w_os w) fd)) 0) as [Open|Closed];
      cbn [negb].
    + exists fd. repeat split; [lia | lia | exact Open].
    + split; [reflexivity|]. split; [reflexivity|]. right. exists fd.
      repeat split; [lia | lia | exact Closed].
  - destruct Number as (-> & Hos & Hcalls). tauto.
Qed.

(** *** Sockets *)

(** X9.  [parse_socket] knows three socket types.  The type attribute is
    read as a C string: [dgram], [seqpacket] and [stream] give the
    datagram, the sequenced packet and the stream type, and any other
    value ends the run with status 127 and a message that names it. *)
Theorem parse_socket_type_knows_three_names
    (event : yaml_event_t) (typestr : string) (w : world OS) :
  (parse_socket_type event typestr w = Ok SOCK_DGRAM w
   <-> cstr typestr = "dgram")
  /\ (parse_socket_type event typestr w = Ok SOCK_SEQPACKET w
      <-> cstr typestr = "seqpacket")
  /\ (parse_socket_type event typestr w = Ok SOCK_STREAM w
      <-> cstr typestr = "stream")
  /\ (parse_socket_type event typestr w
      = Exit 127
          (failed event ("Unsupported type attribute: " ++ cstr typestr) w)
      <-> cstr typestr <> "dgram" /\ cstr typestr <> "seqpacket"
          /\ cstr typestr <> "stream").
Proof.
  unfold parse_socket_type, strcmp_eq.
  change (cstr "dgram") with "dgram".
  change (cstr "seqpacket") with "seqpacket".
  change (cstr "stream") with "stream".
  destruct (String.eqb_spec (cstr typestr) "dgram") as [->|N1];
    [repeat split; try discriminate; try reflexivity; tauto|].
  destruct (String.eqb_spec (cstr typestr) "seqpacket") as [->|N2];
    [repeat split; try discriminate; try reflexivity; tauto|].
  destruct (String.eqb_spec (cstr typestr) "stream") as [->|N3];
    [repeat split; try discriminate; try reflexivity; tauto|].
  repeat split; try discriminate; try contradiction; try assumption.
Qed.

(** X10.  The calls that make a socket, each tied to the result of the
    one before.  [parse_socket] calls [socket]; on the descriptor that
    [socket] returned, unless it is -1, it sets the option and calls
    [bind]; unless [bind] returned -1 it calls [listen].  Whichever call
    fails first ends the run with status 127 after the message that names
    it, the address and the error of that very call, and no later call
    is made: nothing is bound on a socket that was not created, and
    nothing listens on a socket that was not bound.  A [listen] that
    fails with [EOPNOTSUPP] does not count as a failure.  When no call
    fails, the Fd node of the descriptor is returned after exactly these
    four calls, in this order, and nothing was written. *)
Theorem parse_socket_create_calls_in_order
    (event : yaml_event_t) (ty : sock_type) (bindstr : string)
    (sa : sockaddr) (sal : Z) (w : world OS)
    (fd e1 : Z) (os1 : OS) (b e2 : Z) (os2 : OS) (l e3 : Z) (os3 : OS) :
  sys_socket (w_os w) (sa_family sa) ty 0 = (fd, e1, os1) ->
  sys_bind (sys_setsockopt os1 fd) fd sa sal = (b, e2, os2) ->
  sys_listen os2 fd 0 = (l, e3, os3) ->
  let run := parse_socket_create event ty bindstr sa sal w in
  let after (calls : list call) (os : OS) (said : string) : world OS :=
    {| w_parser := w_parser w; w_os := os;
       w_stderr := w_stderr w ++ said;
       w_calls := (w_calls w ++ calls)%list |} in
  let line (what : string) (error : Z) : string :=
    position (start_mark event) ++ what ++ cstr bindstr ++ ": "
    ++ strerror error ++ newline in
  (fd = -1 ->
   run
   = Exit 127
       (after [Call_socket (sa_family sa) ty 0] os1
              (line "Failed to create socket for " e1)))
  /\ (fd <> -1 ->
      b = -1 ->
      run
      = Exit 127
          (after [Call_socket (sa_family sa) ty 0; Call_setsockopt fd;
                  Call_bind fd sa sal]
                 os2 (line "Failed to bind to " e2)))
  /\ (fd <> -1 ->
      b <> -1 ->
      l = -1 ->
      e3 <> EOPNOTSUPP ->
      run
      = Exit 127
          (after [Call_socket (sa_family sa) ty 0; Call_setsockopt fd;
                  Call_bind fd sa sal; Call_listen fd 0]
                 os3 (line "Failed to listen on " e3)))
  /\ (fd <> -1 ->
      b <> -1 ->
      l <> -1 \/ e3 = EOPNOTSUPP ->
      run
      = Ok (AD_FD fd)
           (after [Call_socket (sa_family sa) ty 0; Call_setsockopt fd;
                   Call_bind fd sa sal; Call_listen fd 0]
                  os3 EmptyString)).
Proof.
  intros S B L run after line. subst run.
  rewrite (parse_socket_create_outcome event ty bindstr sa sal w
             fd e1 os1 b e2 os2 l e3 os3 S B L).
  assert (F : forall what error w0 calls os,
             w_parser w0 = w_parser w ->
             w_os w0 = os ->
             w_stderr w0 = w_stderr w ->
             w_calls w0 = (w_calls w ++ calls)%list ->
             failed event (what ++ cstr bindstr ++ ": " ++ strerror error) w0
             = after calls os (line what error)).
  { intros what error w0 calls os H1 H2 H3 H4.
    unfold failed, printed, after, line. cbn [w_parser w_os w_stderr w_calls].
    rewrite H1, H2, H3, H4. now rewrite !append_assoc. }
  cbv zeta. split; [|split; [|split]].
  - intros ->. cbn [Z.eqb Pos.eqb]. f_equal.
    apply (F "Failed to create socket for "); reflexivity.
  - intros N ->. apply Z.eqb_neq in N. rewrite N. cbn [Z.eqb Pos.eqb].
    f_equal. apply (F "Failed to bind to "); try reflexivity.
    cbn [w_calls with_os called]. now rewrite <- !app_assoc.
  - intros N N' -> X. apply Z.eqb_neq in N, N', X. rewrite N, N', X.
    cbn [Z.eqb Pos.eqb andb negb]. f_equal.
    apply (F "Failed to listen on "); try reflexivity.
    cbn [w_calls with_os called]. now rewrite <- !app_assoc.
  - intros N N' X. apply Z.eqb_neq in N, N'. rewrite N, N'.
    assert (T : ((l =? -1) && negb (e3 =? EOPNOTSUPP))%bool = false).
    { destruct X as [X| ->].
      - apply Z.eqb_neq in X. now rewrite X.
      - rewrite Z.eqb_refl. apply andb_false_r. }
    rewrite T. unfold argdata_create_fd. f_equal.
    unfold after, with_os, called. cbn [w_parser w_os w_stderr w_calls].
    rewrite append_empty_r, <- !app_assoc. reflexivity.
Qed.

(** *** File and socket nodes *)

Lemma last_after (A : Type) (l : list A) (a d : A) :
  List.last (a :: l) d = List.last l a.
Proof.
  revert a d. induction l as [|b l IH]; intros a d; [reflexivity|].
  change (List.last (a :: b :: l) d) with (List.last (b :: l) d).
  rewrite IH. symmetry. apply IH.
Qed.

Section Attributes.
(** libcloudabi: a string node without a NUL byte is its own C string. *)
Hypothesis get_str_c_of_string :
  forall s, has_nul s = false -> argdata_get_str_c (AD_STR s) = (0, s).

Lemma parse_file_attributes_last_path (event : yaml_event_t)
    (pairs : yaml_parser_t) (keys : list argdata_t)
    (values : list (option argdata_t)) :
  pairs_denote pairs keys values ->
  forall paths fuel n (w : world OS) stop rest path0,
    keys = map (fun _ => AD_STR "path") paths ->
    values = map (fun p => Some (AD_STR p)) paths ->
    Forall (fun p => has_nul p = false) paths ->
    w_parser w = (pairs ++ Produce stop :: rest)%list ->
    event_type stop = YAML_MAPPING_END_EVENT ->
    (List.length pairs < fuel)%nat ->
    (List.length pairs < n)%nat ->
    parse_file_attributes (parse_object fuel) n event path0 w
    = Ok (List.last (map Some paths) path0) (with_parser w rest).
Proof.
  induction 1 as [|key value pairs k v keys values Hkey Hvalue _ IH];
    intros paths fuel n w stop rest path0 Hkeys Hvalues Hnul Hw Hstop
           Hfuel Hn.
  - destruct paths; [|discriminate].
    destruct n as [|n]; [lia|]. destruct fuel as [|fuel]; [lia|].
    cbn [parse_file_attributes]. unfold bind at 1.
    cbn [parse_object]. unfold bind at 1. cbn [app] in Hw.
    rewrite (get_event_scalar w stop rest _ Hw Hstop) by discriminate.
    rewrite Hstop. reflexivity.
  - destruct paths as [|p paths]; [discriminate|].
    cbn [map] in Hkeys, Hvalues.
    injection Hkeys as -> Hkeys. injection Hvalues as -> Hvalues.
    inversion Hnul as [|? ? Hp Hrest]; subst.
    destruct n as [|n]; [lia|]. cbn [parse_file_attributes].
    rewrite !length_app in Hfuel, Hn.
    assert (Lk := denotes_nonempty _ _ Hkey).
    assert (Lv := denotes_nonempty _ _ Hvalue).
    rewrite <- !app_assoc in Hw.
    unfold bind at 1. rewrite (parse_object_denotes _ _ Hkey fuel w _ Hw) by lia.
    rewrite (get_str_c_of_string "path" eq_refl).
    change (negb (0 =? 0)) with false. cbv beta iota.
    unfold bind at 1.
    rewrite (parse_object_denotes _ _ Hvalue fuel (with_parser w _) _ eq_refl)
      by lia.
    change (strcmp_eq "path" "path") with true. cbv beta iota.
    rewrite (get_str_c_of_string p Hp).
    change (negb (0 =? 0)) with false. cbv beta iota.
    rewrite (IH paths fuel n _ stop rest (Some p) eq_refl eq_refl Hrest);
      [ cbn [map]; now rewrite last_after
      | reflexivity | exact Hstop | lia | lia ].
Qed.

(** X11.  A file node opens the path it names, once and for reading.
    For a mapping with the file tag whose attributes are all [path]
    attributes with string values free of NUL, [parse_object] reads the
    whole mapping first and then opens the last path given, read-only: it
    returns the Fd node of the descriptor that [open] returns, or ends the
    run with status 127 and a message naming the path and the error of
    [open] when that descriptor is negative.  Without any attribute it
    ends the run with the message of a missing path attribute and opens
    nothing. *)
Theorem file_node_opens_the_last_path
    (start stop : yaml_event_t) (pairs rest : yaml_parser_t)
    (paths : list string) (w : world OS) :
  event_type start = YAML_MAPPING_START_EVENT ->
  tagged (scalar_tag start) (TAG_PREFIX ++ "file") ->
  event_type stop = YAML_MAPPING_END_EVENT ->
  pairs_denote pairs (map (fun _ => AD_STR "path") paths)
               (map (fun p => Some (AD_STR p)) paths) ->
  Forall (fun p => has_nul p = false) paths ->
  w_parser w = (Produce start :: pairs ++ Produce stop :: rest)%list ->
  parse_object_top w
  = match List.last (map Some paths) None with
    | None =>
        Exit 127 (failed start "Missing path attribute" (with_parser w rest))
    | Some path =>
        let '(fd, error, os') := sys_open (w_os w) path O_RDONLY in
        let w' :=
          with_os (called (with_parser w rest) (Call_open path O_RDONLY))
                  os' in
        if fd <? 0 then
          Exit 127
               (failed start
                  ("Failed to open " ++ dquote ++ path ++ dquote ++ ": "
                   ++ strerror error) w')
        else Ok (Some (AD_FD fd)) w'
    end.
Proof.
  intros Hty Htag Hstop Hpairs Hnul Hw. unfold parse_object_top.
  assert (Hfuel : (List.length pairs + 1 < List.length (w_parser w))%nat).
  { rewrite Hw. cbn [List.length]. rewrite length_app. cbn [List.length].
    lia. }
  set (fuel := List.length (w_parser w)) in *.
  cbn [parse_object]. unfold bind at 1.
  rewrite (get_event_scalar w start _ _ Hw Hty) by discriminate.
  rewrite Hty. cbv zeta. settle_tags Htag.
  unfold bind at 1, parse_file. unfold bind at 1.
  rewrite (parse_file_attributes_last_path start pairs _ _ Hpairs paths
             fuel fuel (with_parser w _) stop rest None eq_refl eq_refl Hnul
             eq_refl Hstop) by lia.
  assert (Last : match List.last (map Some paths) None with
                 | Some path => has_nul path = false
                 | None => True
                 end).
  { clear - Hnul. induction Hnul as [|p paths Hp _ IH]; [exact Logic.I|].
    cbn [map]. rewrite last_after.
    destruct paths as [|q paths]; [exact Hp|].
    cbn [map] in IH. rewrite last_after in IH.
    cbn [map]. now rewrite last_after. }
  destruct (List.last (map Some paths) None) as [path|]; [|reflexivity].
  rewrite (cstr_without_nul path Last).
  unfold bind, open, syscall. cbn [w_os with_parser].
  destruct (sys_open (w_os w) path O_RDONLY) as [[fd error] os'].
  cbn [fst snd]. now destruct (fd <? 0).
Qed.

(** X12.  A socket node bound to a path.  For a mapping with the socket
    tag whose one attribute is a [bind] attribute naming a path, a string
    free of NUL that starts with a slash, the socket type is the default,
    stream.  When the path fits [sun_path] with its terminating NUL, the
    socket is created for the address family of UNIX sockets with the
    path as its address, and the resolver is not called; when the path is
    too long for that, the run ends with status 127 and nothing was
    called. *)
Theorem socket_node_binds_a_path
    (start stop key value : yaml_event_t) (rest : yaml_parser_t)
    (w : world OS) :
  event_type start = YAML_MAPPING_START_EVENT ->
  tagged (scalar_tag start) (TAG_PREFIX ++ "socket") ->
  event_type stop = YAML_MAPPING_END_EVENT ->
  event_type key = YAML_SCALAR_EVENT ->
  generic (scalar_tag key) YAML_STR_TAG ->
  scalar_value key = "bind" ->
  event_type value = YAML_SCALAR_EVENT ->
  generic (scalar_tag value) YAML_STR_TAG ->
  has_nul (scalar_value value) = false ->
  char_at (scalar_value value) 0 = "/"%char ->
  w_parser w
  = (Produce start :: Produce key :: Produce value :: Produce stop :: rest)
      %list ->
  let path := scalar_value value in
  parse_object_top w
  = if Nat.leb sun_path_size (String.length path) then
      Exit 127
           (failed start ("Socket path " ++ path ++ " too long")
                   (with_parser w rest))
    else
      bind (parse_socket_create start SOCK_STREAM path
              {| sa_family := AF_UNIX; sa_data := path |}
              (Z.of_nat sun_path_size + 2))
           (fun ad => ret (Some ad)) (with_parser w rest).
Proof.
  intros Hty Htag Hstop Hkty Hktag Hkey Hvty Hvtag Hnul Hslash Hw path.
  unfold parse_object_top.
  assert (Hfuel : (3 < List.length (w_parser w))%nat).
  { rewrite Hw. cbn [List.length]. lia. }
  set (fuel := List.length (w_parser w)) in *.
  cbn [parse_object]. unfold bind at 1.
  rewrite (get_event_scalar w start _ _ Hw Hty) by discriminate.
  rewrite Hty. cbv zeta. settle_tags Htag.
  set (w1 := with_parser w _).
  assert (K1 : parse_object fuel w1
               = Ok (Some (AD_STR "bind"))
                    (with_parser w1 (Produce value :: Produce stop :: rest))).
  { rewrite <- Hkey.
    rewrite (parse_object_denotes _ _ (denotes_str key Hkty Hktag) fuel w1
               (Produce value :: Produce stop :: rest));
      [reflexivity | reflexivity | cbn; lia]. }
  assert (K2 : parse_object fuel
                 (with_parser w1 (Produce value :: Produce stop :: rest))
               = Ok (Some (AD_STR path)) (with_parser w1 (Produce stop :: rest))).
  { rewrite (parse_object_denotes _ _ (denotes_str value Hvty Hvtag) fuel
               (with_parser w1 (Produce value :: Produce stop :: rest))
               (Produce stop :: rest));
      [reflexivity | reflexivity | cbn; lia]. }
  assert (K3 : parse_object fuel (with_parser w1 (Produce stop :: rest))
               = Ok None (with_parser w1 rest)).
  { rewrite (parse_object_stop fuel stop rest
               (with_parser w1 (Produce stop :: rest)));
      [reflexivity | now right | reflexivity|].
    cbn [w_parser with_parser List.length]. unfold fuel. rewrite Hw.
    cbn [List.length]. lia. }
  remember (parse_object fuel) as po eqn:Epo. clear Epo.
  destruct fuel as [|[|fuel]]; [lia | lia |].
  unfold bind at 1, parse_socket. unfold bind at 1.
  cbn [parse_socket_attributes]. unfold bind at 1. rewrite K1.
  rewrite (get_str_c_of_string "bind" eq_refl).
  change (negb (0 =? 0)) with false. cbv beta iota.
  unfold bind at 1. rewrite K2.
  change (strcmp_eq "bind" "type") with false.
  change (strcmp_eq "bind" "bind") with true. cbv beta iota.
  rewrite (get_str_c_of_string path Hnul).
  change (negb (0 =? 0)) with false. cbv beta iota.
  unfold bind at 1. rewrite K3. unfold ret at 1. cbn [fst snd].
  unfold parse_socket_open. unfold bind at 1.
  change (parse_socket_type start "stream" (with_parser w1 rest))
    with (Ok SOCK_STREAM (with_parser w1 rest)).
  cbv beta iota. unfold bind at 1, parse_socket_address.
  fold path in Hslash. rewrite Hslash. rewrite Ascii.eqb_refl.
  rewrite (cstr_without_nul path Hnul).
  change (with_parser w1 rest) with (with_parser w rest).
  destruct (Nat.leb sun_path_size (String.length path)); reflexivity.
Qed.

End Attributes.

(** *** Integers *)

(** X13.  What [parse_int] returns.  A node comes back only as an Int
    node whose value an [intmax_t] or a [uintmax_t] can hold: it lies
    between [INTMAX_MIN] and [UINTMAX_MAX].  Nothing is written and
    nothing is called.  When [parse_int] ends the run, the status is 127
    and the one line written says that the integer value is invalid. *)
Theorem parse_int_returns_a_64_bit_value
    (event : yaml_event_t) (w : world OS) :
  match parse_int event w with
  | Ok ad w' =>
      w' = w
      /\ exists v, ad = AD_INT v /\ INTMAX_MIN <= v <= UINTMAX_MAX
  | Exit status w' =>
      status = 127 /\ w' = failed event "Invalid integer value" w
  | Undefined => False
  | OutOfFuel => False
  end.
Proof.
  rewrite parse_int_decodes.
  destruct (int_of_token noconv_errno (scalar_value event)) as [v|] eqn:T;
    [|split; reflexivity].
  split; [reflexivity|]. exists v. split; [reflexivity|].
  revert T. unfold int_of_token, int_base.
  assert (R : forall base rest,
             0 <= base ->
             (if converts_whole (strtoimax noconv_errno rest base) rest
              then Some (conv_value (strtoimax noconv_errno rest base))
              else
                if converts_whole (strtoumax noconv_errno rest base) rest
                then Some (conv_value (strtoumax noconv_errno rest base))
                else None) = Some v ->
             INTMAX_MIN <= v <= UINTMAX_MAX).
  { intros base rest Hbase.
    assert (S := strtoimax_value noconv_errno rest base Hbase).
    assert (U := strtoumax_range noconv_errno rest base Hbase).
    unfold INTMAX_MIN, INTMAX_MAX, UINTMAX_MAX in *.
    destruct (converts_whole (strtoimax noconv_errno rest base) rest);
      [intros H; injection H as <-; lia|].
    destruct (converts_whole (strtoumax noconv_errno rest base) rest);
      [intros H; injection H as <-; lia | discriminate]. }
  destruct (String.prefix "0o" (scalar_value event)); [apply R; lia|].
  destruct (String.prefix "0x" (scalar_value event)); apply R; lia.
Qed.

(** *** Input without a node *)

Lemma next_event_after_ends (ends : yaml_parser_t) :
  forallb is_end_step ends = true ->
  next_event ends = inl (empty_event, []).
Proof.
  induction ends as [|step ends IH]; cbn [forallb next_event];
    [reflexivity|].
  intros H. apply andb_prop in H as [Hs H].
  destruct step as [e|mark]; [|discriminate]. cbn [is_end_step] in Hs.
  destruct (event_type e); try discriminate; now apply IH.
Qed.

Lemma next_event_through_ends (ends rest : yaml_parser_t)
    (event : yaml_event_t) :
  forallb is_end_step ends = true ->
  is_end_step (Produce event) = false ->
  next_event (ends ++ Produce event :: rest)%list = inl (event, rest).
Proof.
  intros He Hev.
  induction ends as [|step ends IH]; cbn [forallb next_event app] in *.
  - cbn [is_end_step] in Hev. now destruct (event_type event).
  - apply andb_prop in He as [Hs He].
    destruct step as [e|mark]; [|discriminate]. cbn [is_end_step] in Hs.
    destruct (event_type e); try discriminate; now apply IH.
Qed.

(** X14.  Input without a node.  When the input holds nothing but the
    events that start and end the stream and its documents, there is no
    node to build: [parse_object] meets the empty event that follows the
    end of the stream and ends the run with status 127 and the line
    [stdin:1:1: Unsupported event 0].  An alias where a node is expected
    ends the run likewise, with [Unsupported event 5] at the position of
    the alias: anchors cannot be referred to. *)
Theorem input_without_a_node_is_refused
    (starts ends rest : yaml_parser_t) (alias : yaml_event_t)
    (w : world OS) :
  forallb is_start_step starts = true ->
  forallb is_end_step ends = true ->
  (w_parser w = (starts ++ ends)%list ->
   parse_object_top w
   = Exit 127 (failed empty_event "Unsupported event 0"
                      (with_parser w [])))
  /\ (event_type alias = YAML_ALIAS_EVENT ->
      w_parser w = (starts ++ ends ++ Produce alias :: rest)%list ->
      parse_object_top w
      = Exit 127 (failed alias "Unsupported event 5"
                         (with_parser w rest))).
Proof.
  intros Hstarts Hends. unfold parse_object_top.
  assert (Fuel : forall tail,
             w_parser w = (starts ++ tail)%list ->
             exists fuel,
               S (List.length (w_parser w))
               = (List.length starts + S fuel)%nat).
  { intros tail ->. rewrite length_app. eexists.
    rewrite <- Nat.add_succ_r. reflexivity. }
  assert (Through : forall tail fuel (m : M (option argdata_t)),
             (forall w0, w_parser w0 = tail ->
                         parse_object (S fuel) w0 = m w0) ->
             forall w0,
               w_parser w0 = (starts ++ tail)%list ->
               parse_object (List.length starts + S fuel) w0
               = m (with_parser w0 tail)).
  { intros tail fuel m Hm. clear Fuel. 
    induction starts as [|step starts IH]; intros w0 Hw0.
    - cbn [List.length Nat.add]. rewrite (Hm w0 Hw0).
      destruct w0; cbn in *. now subst.
    - cbn [forallb] in Hstarts. apply andb_prop in Hstarts as [Hs Hstarts].
      destruct step as [e|mark]; [|discriminate]. cbn [is_start_step] in Hs.
      cbn [List.length Nat.add parse_object]. unfold bind at 1.
      cbn [app] in Hw0.
      rewrite (get_event_produce w0 e _ Hw0)
        by (destruct (event_type e); discriminate).
      destruct (event_type e); try discriminate;
        (rewrite (IH Hstarts (with_parser w0 _) eq_refl); reflexivity). }
  split.
  - intros Hw. destruct (Fuel _ Hw) as [fuel ->].
    rewrite (Through ends fuel
               (fun w0 => Exit 127 (failed empty_event "Unsupported event 0"
                                           (with_parser w0 []))) );
      [reflexivity| |exact Hw].
    intros w0 Hw0. cbn [parse_object]. unfold bind at 1, get_event.
    rewrite Hw0, (next_event_after_ends ends Hends). reflexivity.
  - intros Halias Hw. destruct (Fuel _ Hw) as [fuel ->].
    rewrite (Through (ends ++ Produce alias :: rest)%list fuel
               (fun w0 => Exit 127 (failed alias "Unsupported event 5"
                                           (with_parser w0 rest))));
      [reflexivity| |exact Hw].
    intros w0 Hw0. cbn [parse_object]. unfold bind at 1, get_event.
    rewrite Hw0, (next_event_through_ends ends rest alias Hends)
      by (cbn [is_end_step]; now rewrite Halias).
    rewrite Halias. reflexivity.
Qed.

(** *** A launch that fails after parsing *)

(** X21.  What a launch that fails after parsing has said, step by step.
    With one operand, accepted options and a parsed node, each step of
    [main] that fails ends the run with status 127 after the [perror]
    line that names that step and carries the error of that very call,
    and no later step is taken.  In direct mode the executable is opened
    for execution; when that fails the line says that it cannot be
    opened, and when [program_exec] returns the line says that it cannot
    be started.  In emulated mode the buffer is allocated first; then
    the descriptors are registered in turn, from index 0, and the first
    that cannot be registered ends the run, the descriptors before it
    being registered; registering writes nothing and opens nothing; then
    the executable is opened for reading; only then is the warning about
    emulation written, so that it precedes no message but that of an
    emulator that returned. *)
Theorem failed_launch_names_the_step
    (argv0 : string) (args : list string) (chars : list ascii)
    (executable : string) (ad : argdata_t) (w w1 : world OS) :
  getopt_scan args = (chars, [executable]) ->
  forallb (fun c => Ascii.eqb c "e") chars = true ->
  parse_object_top w = Ok (Some ad) w1 ->
  let run := main argv0 args w in
  let line (what : string) (error : Z) : string :=
    what ++ ": " ++ strerror error ++ newline in
  (chars = [] ->
   forall fd error os',
     sys_open (w_os w1) executable O_EXEC = (fd, error, os') ->
     let opened := with_os (called w1 (Call_open executable O_EXEC)) os' in
     (fd = -1 ->
      run = Exit 127 (printed opened (line "Failed to open executable" error)))
     /\ (fd <> -1 ->
         forall error',
           program_exec os' fd ad = Some error' ->
           run
           = Exit 127
               (printed opened (line "Failed to start executable" error'))))
  /\ (chars <> [] ->
      let buflen := fst (argdata_get_buffer_length ad) in
      let fdslen := snd (argdata_get_buffer_length ad) in
      let buf := fst (argdata_get_buffer ad) in
      let fds := snd (argdata_get_buffer ad) in
      (sys_malloc (w_os w1) (wrap64 (fdslen * 4 + buflen)) = false ->
       run
       = Exit 127
           (printed w1 (line "Cannot allocate argument data buffer" ENOMEM)))
      /\ (sys_malloc (w_os w1) (wrap64 (fdslen * 4 + buflen)) = true ->
          (forall pre w2,
              register_fds 0 pre w1 = Ok tt w2 ->
              w_stderr w2 = w_stderr w1 /\ w_calls w2 = w_calls w1)
          /\ (forall pre fd post w2 error os',
                fds = (pre ++ fd :: post)%list ->
                register_fds 0 pre w1 = Ok tt w2 ->
                fd_table_insert_existing (w_os w2)
                  (Z.of_nat (List.length pre)) fd
                = (false, error, os') ->
                run
                = Exit 127
                    (printed (with_os w2 os')
                       (line
                          "Failed to register file descriptor in argument data"
                          error)))
          /\ (forall w2 fd error os',
                register_fds 0 fds w1 = Ok tt w2 ->
                sys_open (w_os w2) executable O_RDONLY = (fd, error, os') ->
                let opened :=
                  with_os (called w2 (Call_open executable O_RDONLY)) os' in
                (fd = -1 ->
                 run
                 = Exit 127
                     (printed opened
                        (line "Failed to open executable" error)))
                /\ (fd <> -1 ->
                    forall error',
                      emulate os' fd buf buflen = Some error' ->
                      run
                      = Exit 127
                          (printed (printed opened emulation_warning)
                             (line "Failed to start executable" error')))))).
Proof.
  intros G Hc Hp run line.
  assert (Run : run = match chars with
                      | [] => main_exec executable (Some ad) w1
                      | _ :: _ => main_emulate executable (Some ad) w1
                      end).
  { unfold run.
    rewrite (main_dispatches argv0 args w chars executable G Hc).
    unfold bind. rewrite Hp. now destruct chars. }
  rewrite Run. clear Run run.
  destruct (dispatch_failures_hold executable ad w1) as (De & Dm & _).
  split.
  - intros E0 fd error os' O. subst chars. cbv zeta.
    destruct (De fd error os' O) as [D1 D2]. split.
    + intros F. exact (D1 F).
    + intros F error' E. exact (proj1 (D2 F) error' E).
  - intros N. destruct chars as [|c chars]; [congruence|].
    cbv zeta in Dm |- *.
    destruct Dm as [D1 D2]. split; [exact D1|].
    intros A. destruct (D2 A) as [D3 D4]. split; [|split].
    + intros pre w2 R. exact (register_fds_returns pre 0 w1 w2 R).
    + intros pre fd post w2 error os' F R I.
      apply D3. rewrite F.
      apply (register_fds_fails_at pre post fd 0 w1 w2 error os' R).
      exact I.
    + intros w2 fd error os' R O.
      destruct (D4 w2 fd error os' R O) as [D5 D6]. split.
      * exact D5.
      * intros F error' E. exact (proj1 (D6 F) error' E).
Qed.

End LauncherTraces.

(** ** The sequence iterator *)

Section SequenceIteratorProperties.
Variable parse_subfield : list Byte.byte -> Z -> subfield.

(** What the iterator needs of [parse_subfield]: when it succeeds it has
    moved [*buf] forward and not beyond the [len] bytes it was given; when
    it fails it has stored nothing through its first argument. *)
Hypothesis parse_subfield_advances :
  forall buf len,
    sf_error (parse_subfield buf len) = 0 ->
    0 <= sf_buf (parse_subfield buf len) <= len.
Hypothesis parse_subfield_failure_stores_nothing :
  forall buf len,
    sf_error (parse_subfield buf len) <> 0 ->
    sf_value (parse_subfield buf len) = None.

Lemma remaining_length_exact (buffer : list Byte.byte)
    (it : argdata_seq_iterator_t) :
  Z.of_nat (List.length buffer) <= SIZE_MAX ->
  0 <= it_offset it <= Z.of_nat (List.length buffer) ->
  remaining_length buffer it = Z.of_nat (List.length buffer) - it_offset it.
Proof.
  unfold remaining_length, wrap64, SIZE_MAX. intros Hmax Hoff.
  apply Z.mod_small. lia.
Qed.

(** A pull on a buffer, case by case. *)
Lemma argdata_seq_next_buffer (buffer : list Byte.byte)
    (it : argdata_seq_iterator_t) :
  it_container it = AD_BUFFER buffer ->
  let r := parse_subfield (remaining buffer it) (remaining_length buffer it) in
  let value := match sf_value r with
               | Some v => v
               | None => it_value it
               end in
  argdata_seq_next parse_subfield it
  = if remaining_length buffer it =? 0 then
      Some {| returned := false; stored := None; after := it |}
    else if negb (sf_error r =? 0) then
      Some {| returned := false; stored := None;
              after := {| it_container := AD_BUFFER buffer;
                          it_offset := it_offset it;
                          it_error := sf_error r;
                          it_value := value |} |}
    else
      Some {| returned := true; stored := Some value;
              after := {| it_container := AD_BUFFER buffer;
                          it_offset := wrap64 (it_offset it + sf_buf r);
                          it_error := it_error it;
                          it_value := value |} |}.
Proof.
  intros Hc. unfold argdata_seq_next. rewrite Hc. reflexivity.
Qed.

(** C2.  A pull on an iterator over a buffer always returns.  When no
    bytes remain it returns false and leaves the iterator as it was, so no
    error is recorded by it; when bytes remain and the sub-value at the
    offset is malformed it returns false as well and records the decode
    error, which is not zero.  Hence after a pull that returned false the
    recorded error is zero exactly when the bytes were exhausted. *)
Theorem seq_next_tells_exhaustion_from_failure
    (buffer : list Byte.byte) (it : argdata_seq_iterator_t) :
  iterating parse_subfield buffer it ->
  exists p,
    argdata_seq_next parse_subfield it = Some p
    /\ (remaining_length buffer it = 0 ->
        returned p = false /\ after p = it)
    /\ (remaining_length buffer it <> 0 ->
        sf_error (parse_subfield (remaining buffer it)
                                 (remaining_length buffer it)) <> 0 ->
        returned p = false
        /\ it_error (after p)
           = sf_error (parse_subfield (remaining buffer it)
                                      (remaining_length buffer it))
        /\ it_error (after p) <> 0)
    /\ (returned p = false ->
        (it_error (after p) = 0 <-> remaining_length buffer it = 0)).
Proof.
  intros (Hc & Hmax & Hoff & Herr).
  rewrite (argdata_seq_next_buffer buffer it Hc). cbv zeta.
  assert (Hlen := remaining_length_exact buffer it Hmax Hoff).
  destruct (Z.eqb_spec (remaining_length buffer it) 0) as [E|N].
  - eexists; split; [reflexivity|]. cbn [returned after].
    repeat split; try tauto.
    intros _. destruct Herr as [Hz|[Hlt _]]; [assumption | lia].
  - destruct (Z.eqb_spec
                (sf_error (parse_subfield (remaining buffer it)
                                          (remaining_length buffer it))) 0)
      as [E|F]; cbn [negb].
    + eexists; split; [reflexivity|]. cbn [returned after it_error].
      repeat split; try tauto; try discriminate.
    + eexists; split; [reflexivity|]. cbn [returned after it_error].
      repeat split; try tauto.
Qed.

(** A pull returns, whatever the state of the iteration. *)
Lemma seq_next_returns (buffer : list Byte.byte) (it : argdata_seq_iterator_t) :
  it_container it = AD_BUFFER buffer ->
  exists p, argdata_seq_next parse_subfield it = Some p.
Proof.
  intros Hc. rewrite (argdata_seq_next_buffer buffer it Hc). cbv zeta.
  destruct (_ =? 0); [eexists; reflexivity|].
  destruct (negb _); eexists; reflexivity.
Qed.

(** A pull keeps the iteration going, and does not move the offset back. *)
Lemma seq_next_keeps_iterating
    (buffer : list Byte.byte) (it : argdata_seq_iterator_t) (p : pulled) :
  iterating parse_subfield buffer it ->
  argdata_seq_next parse_subfield it = Some p ->
  it_offset it <= it_offset (after p) <= Z.of_nat (List.length buffer)
  /\ iterating parse_subfield buffer (after p).
Proof.
  intros (Hc & Hmax & Hoff & Herr).
  rewrite (argdata_seq_next_buffer buffer it Hc). cbv zeta.
  assert (Hlen := remaining_length_exact buffer it Hmax Hoff).
  set (r := parse_subfield (remaining buffer it) (remaining_length buffer it))
    in *.
  destruct (Z.eqb_spec (remaining_length buffer it) 0) as [E|N].
  - intros H. injection H as <-. cbn [after].
    split; [lia|]. unfold iterating; tauto.
  - destruct (Z.eqb_spec (sf_error r) 0) as [E|F]; cbn [negb];
      intros H; injection H as <-; cbn [after it_offset].
    + assert (A := parse_subfield_advances _ _ E). fold r in A.
      assert (W : wrap64 (it_offset it + sf_buf r) = it_offset it + sf_buf r).
      { unfold wrap64. apply Z.mod_small. unfold SIZE_MAX in Hmax. lia. }
      rewrite W. split; [lia|].
      unfold iterating. cbn [it_container it_offset it_error].
      split; [reflexivity|]. split; [assumption|]. split; [lia|].
      left. destruct Herr as [Hz|[_ Hf]]; [assumption|].
      fold r in Hf. congruence.
    + split; [lia|].
      unfold iterating, remaining, remaining_length.
      cbn [it_container it_offset it_error].
      split; [reflexivity|]. split; [assumption|]. split; [lia|].
      right. split; [lia|]. reflexivity.
Qed.

(** C10.  A pull on an iterator over a buffer never moves the offset
    backwards nor beyond the length of the buffer, and it keeps the
    iteration in the states described by [iterating].  A pull that
    returns true has moved the offset just past the sub-value that was
    parsed; a pull that returns false has left the offset, the container
    and the value slot as they were and stored nothing in [*value]: at
    most the error code has changed. *)
Theorem seq_next_offset_stays_in_the_buffer
    (buffer : list Byte.byte) (it : argdata_seq_iterator_t) (p : pulled) :
  iterating parse_subfield buffer it ->
  argdata_seq_next parse_subfield it = Some p ->
  it_offset it <= it_offset (after p) <= Z.of_nat (List.length buffer)
  /\ iterating parse_subfield buffer (after p)
  /\ (returned p = true ->
      sf_error (parse_subfield (remaining buffer it)
                               (remaining_length buffer it)) = 0
      /\ it_offset (after p)
         = it_offset it
           + sf_buf (parse_subfield (remaining buffer it)
                                    (remaining_length buffer it)))
  /\ (returned p = false ->
      it_offset (after p) = it_offset it
      /\ it_container (after p) = it_container it
      /\ it_value (after p) = it_value it
      /\ stored p = None).
Proof.
  intros Hit Hp.
  destruct (seq_next_keeps_iterating buffer it p Hit Hp) as [Hbounds Hafter].
  split; [exact Hbounds|]. split; [exact Hafter|].
  destruct Hit as (Hc & Hmax & Hoff & Herr).
  rewrite (argdata_seq_next_buffer buffer it Hc) in Hp. cbv zeta in Hp.
  set (r := parse_subfield (remaining buffer it) (remaining_length buffer it))
    in *.
  destruct (Z.eqb_spec (remaining_length buffer it) 0) as [E|N].
  - injection Hp as <-. cbn [returned after stored].
    split; [discriminate | tauto].
  - destruct (Z.eqb_spec (sf_error r) 0) as [E|F]; cbn [negb] in Hp;
      injection Hp as <-;
      cbn [returned after stored it_offset it_container it_value].
    + split; [|discriminate]. intros _. split; [assumption|].
      assert (A := parse_subfield_advances _ _ E). fold r in A.
      unfold wrap64. apply Z.mod_small. unfold SIZE_MAX in Hmax.
      assert (Hlen := remaining_length_exact buffer it Hmax Hoff). lia.
    + split; [discriminate|]. intros _.
      assert (V := parse_subfield_failure_stores_nothing _ _ F). fold r in V.
      rewrite V. repeat split. now symmetry.
Qed.

(** Any number of pulls in a row return, and keep the iteration in the
    states described by [iterating]. *)
Lemma iterating_pulls (buffer : list Byte.byte) (n : nat) :
  forall it,
    iterating parse_subfield buffer it ->
    exists it',
      pulls parse_subfield n it = Some it'
      /\ iterating parse_subfield buffer it'
      /\ it_offset it <= it_offset it'.
Proof.
  induction n as [|n IH]; intros it H; cbn [pulls].
  - exists it. split; [reflexivity|]. split; [assumption | lia].
  - destruct (seq_next_returns buffer it (proj1 H)) as [p Hp].
    rewrite Hp.
    destruct (seq_next_keeps_iterating buffer it p H Hp) as ([Hlo _] & Hit).
    destruct (IH (after p) Hit) as (it' & Hpulls & Hit' & Hle).
    exists it'. split; [assumption|]. split; [assumption | lia].
Qed.

End SequenceIteratorProperties.

(** ** More on the sequence iterator *)

Section SequenceIteratorMore.
Variable parse_subfield : list Byte.byte -> Z -> subfield.


Lemma drain_seq (entries : list argdata_t) :
  Z.of_nat (List.length entries) <= SIZE_MAX ->
  forall (k n : nat) (it : argdata_seq_iterator_t),
    it_container it = AD_SEQ entries ->
    it_offset it = Z.of_nat (List.length entries) - Z.of_nat k ->
    (k <= List.length entries)%nat ->
    (k < n)%nat ->
    drain parse_subfield n it
    = Some (map Some (skipn (List.length entries - k) entries),
            {| it_container := AD_SEQ entries;
               it_offset := Z.of_nat (List.length entries);
               it_error := it_error it;
               it_value := it_value it |}).
Proof.
  intros Hsize. induction k as [|k IH]; intros n it Hc Ho Hk Hn;
    (destruct n as [|n]; [exfalso; clear - Hn; lia|]); cbn [drain];
    unfold argdata_seq_next; rewrite Hc.
  - rewrite Ho, Z.sub_0_r, Z.leb_refl. cbn [returned after].
    rewrite Nat.sub_0_r, skipn_all. cbn [map]. f_equal. f_equal.
    destruct it; cbn in *. rewrite Z.sub_0_r in Ho. now subst.
  - destruct (Z.leb_spec (Z.of_nat (List.length entries)) (it_offset it));
      [exfalso; lia|].
    cbn [returned after stored].
    rewrite (IH n); cbn [it_container it_offset it_error it_value];
      [| reflexivity
       | unfold wrap64, SIZE_MAX in *; rewrite Z.mod_small; lia
       | lia | lia ].
    f_equal. f_equal.
    replace (Z.to_nat (it_offset it)) with (List.length entries - S k)%nat
      by lia.
    replace (List.length entries - k)%nat
      with (S (List.length entries - S k))%nat by lia.
    assert (L : (List.length entries - S k < List.length entries)%nat) by lia.
    revert L. generalize (List.length entries - S k)%nat. clear.
    induction entries as [|e entries IH]; intros [|m] L; cbn in L;
      try lia; [reflexivity|].
    cbn [nth_error skipn]. apply IH. lia.
Qed.

(** X15.  Iterating over a sequence node hands out its entries.  From
    the first entry on, the pulls on an iterator over a Seq node return
    true once for each entry and hand out the entries in order, whatever
    their number; the pull after the last returns false, and it leaves
    the offset at the number of entries and the error as it was.  No
    assertion fails on the way. *)
Theorem seq_iterator_hands_out_every_entry
    (entries : list argdata_t) (it : argdata_seq_iterator_t) (n : nat) :
  it_container it = AD_SEQ entries ->
  it_offset it = 0 ->
  Z.of_nat (List.length entries) <= SIZE_MAX ->
  (List.length entries < n)%nat ->
  drain parse_subfield n it
  = Some (map Some entries,
          {| it_container := AD_SEQ entries;
             it_offset := Z.of_nat (List.length entries);
             it_error := it_error it;
             it_value := it_value it |}).
Proof.
  intros Hc Ho Hsize Hn.
  rewrite (drain_seq entries Hsize (List.length entries) n it Hc);
    [now rewrite Nat.sub_diag | lia | lia | exact Hn].
Qed.

(** X16.  A pull that returned false is final.  Whatever the container,
    a buffer or a sequence, once a pull has returned false the next pull
    returns false as well, hands out nothing and leaves the iterator as
    it is: neither the end of the entries nor a sub-value that does not
    parse is ever passed. *)
Theorem seq_next_false_is_final
    (it : argdata_seq_iterator_t) (p : pulled) :
  argdata_seq_next parse_subfield it = Some p ->
  returned p = false ->
  argdata_seq_next parse_subfield (after p)
  = Some {| returned := false; stored := None; after := after p |}.
Proof.
  unfold argdata_seq_next.
  destruct (it_container it) as [| | | | |keys values|entries|buffer] eqn:Hc;
    try discriminate.
  - destruct (Z.leb_spec (Z.of_nat (List.length entries)) (it_offset it))
      as [Le|Lt].
    + intros H _. injection H as <-. cbn [after]. rewrite Hc.
      destruct (Z.leb_spec (Z.of_nat (List.length entries)) (it_offset it));
        [reflexivity | exfalso; lia].
    + intros H F. injection H as <-. discriminate.
  - destruct (wrap64 (Z.of_nat (List.length buffer) - it_offset it) =? 0)
      eqn:Hlen.
    + intros H _. injection H as <-. cbn [after]. now rewrite Hc, Hlen.
    + set (r := parse_subfield _ _).
      destruct (sf_error r =? 0) eqn:He; cbn [negb].
      * intros H F. injection H as <-. discriminate.
      * intros H _. injection H as <-.
        cbn [after it_container it_offset it_value it_error].
        rewrite Hlen. fold r. rewrite He. cbn [negb].
        now destruct (sf_value r).
Qed.

(** X17.  An iteration over a buffer comes to an end.  Provided
    [parse_subfield], when it succeeds, has moved [*buf] forward by at
    least one byte and not beyond the bytes it was given, the pulls on a
    fresh iterator over a buffer reach one that returns false after
    handing out at most as many nodes as the buffer has bytes.  The
    iterator is then at the end of the buffer with no error recorded, or
    before the end with the error of the sub-value that did not parse:
    the recorded error is zero exactly when the whole buffer was
    consumed. *)
Theorem buffer_iteration_comes_to_an_end
    (buffer : list Byte.byte) (it : argdata_seq_iterator_t) :
  (forall buf len,
      sf_error (parse_subfield buf len) = 0 ->
      1 <= sf_buf (parse_subfield buf len) <= len) ->
  it_container it = AD_BUFFER buffer ->
  Z.of_nat (List.length buffer) <= SIZE_MAX ->
  it_offset it = 0 ->
  it_error it = 0 ->
  exists nodes it',
    drain parse_subfield (S (List.length buffer)) it = Some (nodes, it')
    /\ (List.length nodes <= List.length buffer)%nat
    /\ 0 <= it_offset it' <= Z.of_nat (List.length buffer)
    /\ (it_error it' = 0 <-> it_offset it' = Z.of_nat (List.length buffer)).
Proof.
  intros Hadv Hc Hsize Ho He.
  assert (G : forall n it0,
             it_container it0 = AD_BUFFER buffer ->
             0 <= it_offset it0 <= Z.of_nat (List.length buffer) ->
             Z.of_nat (List.length buffer) - it_offset it0 < Z.of_nat n ->
             exists nodes it',
               drain parse_subfield n it0 = Some (nodes, it')
               /\ Z.of_nat (List.length nodes)
                  <= Z.of_nat (List.length buffer) - it_offset it0
               /\ 0 <= it_offset it' <= Z.of_nat (List.length buffer)
               /\ ((it_error it' = it_error it0
                    /\ it_offset it' = Z.of_nat (List.length buffer))
                   \/ (it_error it' <> 0
                       /\ it_offset it' < Z.of_nat (List.length buffer)))).
  { induction n as [|n IH]; intros it0 Hc0 Ho0 Hn; [lia|].
    cbn [drain]. unfold argdata_seq_next. rewrite Hc0.
    assert (W : wrap64 (Z.of_nat (List.length buffer) - it_offset it0)
                = Z.of_nat (List.length buffer) - it_offset it0).
    { unfold wrap64, SIZE_MAX in *. apply Z.mod_small. lia. }
    rewrite W.
    destruct (Z.eqb_spec (Z.of_nat (List.length buffer) - it_offset it0) 0)
      as [Hz|Hnz].
    - exists [], it0. cbn [returned after List.length].
      split; [reflexivity|]. split; [lia|]. split; [lia|].
      left. split; [reflexivity | lia].
    - set (r := parse_subfield _ _).
      destruct (Z.eqb_spec (sf_error r) 0) as [Good|Bad]; cbn [negb].
      + assert (A := Hadv _ _ Good). fold r in A.
        cbn [returned after stored].
        assert (W' : wrap64 (it_offset it0 + sf_buf r)
                     = it_offset it0 + sf_buf r).
        { unfold wrap64, SIZE_MAX in *. apply Z.mod_small. lia. }
        rewrite W'.
        destruct (IH {| it_container := AD_BUFFER buffer;
                        it_offset := it_offset it0 + sf_buf r;
                        it_error := it_error it0;
                        it_value := match sf_value r with
                                    | Some v => v
                                    | None => it_value it0
                                    end |})
          as (nodes & it' & D & Hl & Hb & Hend);
          [ reflexivity
          | cbn [it_offset]; lia
          | cbn [it_offset]; lia |].
        rewrite D. eexists _, it'. split; [reflexivity|].
        cbn [List.length it_offset it_error] in *.
        split; [lia|]. split; [lia|]. exact Hend.
      + eexists [], _. cbn [returned after List.length].
        split; [reflexivity|]. cbn [it_offset it_error].
        split; [lia|]. split; [lia|]. right. split; [exact Bad | lia]. }
  destruct (G (S (List.length buffer)) it Hc) as (nodes & it' & D & L & B & F);
    [lia | lia |].
  exists nodes, it'. split; [exact D|]. split; [lia|]. split; [exact B|].
  rewrite He in F. split.
  - intros Hz. destruct F as [[_ F]|[F _]]; [exact F | contradiction].
  - intros Hz. destruct F as [[F _]|[_ F]]; [exact F | lia].
Qed.

End SequenceIteratorMore.

(** ** random.c *)

Lemma uintmax_of_bytes_bound (bytes : list Byte.byte) :
  0 <= uintmax_of_bytes bytes < 256 ^ Z.of_nat (List.length bytes).
Proof.
  induction bytes as [|b bytes IH]; cbn [uintmax_of_bytes List.length].
  - cbn. lia.
  - rewrite Nat2Z.inj_succ, Z.pow_succ_r by lia.
    assert (B : (Byte.to_N b <= 255)%N) by apply Byte.to_N_bounded.
    lia.
Qed.

Lemma uintmax_of_eight_bytes (bytes : list Byte.byte) :
  0 <= uintmax_of_bytes (firstn 8 bytes) <= UINTMAX_MAX.
Proof.
  assert (B := uintmax_of_bytes_bound (firstn 8 bytes)).
  assert (L : (List.length (firstn 8 bytes) <= 8)%nat)
    by apply firstn_le_length.
  assert (256 ^ Z.of_nat (List.length (firstn 8 bytes)) <= 256 ^ 8)
    by (apply Z.pow_le_mono_r; lia).
  unfold UINTMAX_MAX. change (256 ^ 8) with 18446744073709551616 in *. lia.
Qed.

Lemma random_lower_remainder (upper : Z) :
  0 < upper <= UINTMAX_MAX ->
  random_lower upper = 2 ^ 64 mod upper.
Proof.
  unfold random_lower, wrap64, UINTMAX_MAX. intros H.
  change (2 ^ 64) with 18446744073709551616.
  replace (- upper mod 18446744073709551616)
    with (18446744073709551616 - upper).
  - replace (18446744073709551616 - upper)
      with (18446744073709551616 + (-1) * upper) by lia.
    now rewrite Z.mod_add by lia.
  - apply Z.mod_unique with (q := -1); lia.
Qed.

Lemma random_lower_bounds (upper : Z) :
  0 < upper <= UINTMAX_MAX ->
  0 <= random_lower upper < upper
  /\ random_lower upper < 2 ^ 63
  /\ 2 ^ 64 - random_lower upper = upper * (2 ^ 64 / upper).
Proof.
  intros H. rewrite (random_lower_remainder upper H).
  unfold UINTMAX_MAX in H.
  change (2 ^ 64) with 18446744073709551616.
  change (2 ^ 63) with 9223372036854775808.
  assert (D := Z.div_mod 18446744073709551616 upper ltac:(lia)).
  assert (B := Z.mod_pos_bound 18446744073709551616 upper ltac:(lia)).
  assert (Q : 1 <= 18446744073709551616 / upper)
    by (apply Z.div_le_lower_bound; lia).
  repeat split; try lia. nia.
Qed.

(** X18.  The bound below which [random_uniform] rejects a draw.  For an
    [upper] that is not zero, [-upper % upper] computed in [uintmax_t] is
    the remainder of 2^64 by [upper], as the comment in the source says.
    It is less than [upper] and less than 2^63, so that a draw is
    accepted more often than not, and the accepted range, from it up to
    2^64, holds a whole number of runs of [upper] values. *)
Theorem random_lower_is_the_remainder_of_the_range (upper : Z) :
  0 < upper <= UINTMAX_MAX ->
  random_lower upper = 2 ^ 64 mod upper
  /\ 0 <= random_lower upper < upper
  /\ random_lower upper < 2 ^ 63
  /\ 2 ^ 64 - random_lower upper = upper * (2 ^ 64 / upper).
Proof.
  intros H. split; [exact (random_lower_remainder upper H)|].
  exact (random_lower_bounds upper H).
Qed.

Lemma accepted_draws_of_a_result (upper r : Z) :
  0 < upper <= UINTMAX_MAX ->
  0 <= r < upper ->
  let first :=
    random_lower upper + (r - random_lower upper) mod upper in
  (forall value,
      (random_lower upper <= value <= UINTMAX_MAX /\ value mod upper = r)
      <-> exists q,
            0 <= q < 2 ^ 64 / upper /\ value = first + q * upper)
  /\ (forall q q', first + q * upper = first + q' * upper -> q = q').
Proof.
  intros H Hr first.
  destruct (random_lower_bounds upper H)
    as (L0 & L1 & L2).
  split; [|intros q q' E; nia].
  assert (F := Z.mod_pos_bound (r - random_lower upper) upper ltac:(lia)).
  intros value. split.
  - intros [[Lo Hi] Hres].
    exists ((value - random_lower upper) / upper).
    assert (D := Z.div_mod (value - random_lower upper) upper ltac:(lia)).
    assert (M : (value - random_lower upper) mod upper
                = (r - random_lower upper) mod upper).
    { rewrite <- Hres. rewrite Zminus_mod_idemp_l. reflexivity. }
    assert (B := Z.mod_pos_bound (value - random_lower upper) upper
                   ltac:(lia)).
    unfold UINTMAX_MAX in *. change (2 ^ 64) with 18446744073709551616 in *.
    split; [|unfold first; lia].
    split; [apply Z.div_pos; lia|].
    apply Z.div_lt_upper_bound; [lia|]. lia.
  - intros (q & [Q0 Q1] & ->). unfold first.
    unfold UINTMAX_MAX in *. change (2 ^ 64) with 18446744073709551616 in *.
    split; [split; [nia | nia]|].
    rewrite Z.mod_add by lia.
    rewrite Zplus_mod_idemp_r.
    replace (random_lower upper + (r - random_lower upper)) with r by lia.
    apply Z.mod_small. lia.
Qed.

Section RandomProperties.
Context {E : Type} {Src : Entropy E}.

Lemma random_buf_ends (len : Z) (s : random_state E) :
  match random_buf len s with
  | Returns _ s' => r_stderr s' = r_stderr s
  | Aborts s' => CONFIG_HAS_ARC4RANDOM_BUF = false /\ random_buf_said s s'
  | Faults => False
  | Spins => False
  end.
Proof.
  unfold random_buf, random_buf_said.
  destruct CONFIG_HAS_ARC4RANDOM_BUF.
  - destruct (arc4random_buf (r_sources s) len). reflexivity.
  - unfold pthread_once_open_urandom, open_urandom.
    destruct (r_open_once s).
    + destruct (sys_read (r_sources s) (r_urandom s) len) as [[n bytes] e].
      destruct (negb (wrap64 n =? len)); cbn; [|reflexivity].
      split; [reflexivity|]. now right.
    + destruct (sys_open_urandom (r_sources s)) as [fd e0].
      destruct (fd <? 0); cbn [r_sources r_urandom].
      * cbn. split; [reflexivity|]. now left.
      * destruct (sys_read e0 fd len) as [[n bytes] e].
        destruct (negb (wrap64 n =? len)); cbn; [|reflexivity].
        split; [reflexivity|]. now right.
Qed.

Lemma random_uniform_step (n : nat) (upper : Z) (s s' : random_state E)
    (bytes : list Byte.byte) :
  upper <> 0 ->
  random_buf 8 s = Returns bytes s' ->
  random_uniform (S n) upper s
  = if random_lower upper <=? uintmax_of_bytes (firstn 8 bytes)
    then Returns (uintmax_of_bytes (firstn 8 bytes) mod upper) s'
    else random_uniform n upper s'.
Proof.
  intros N B. unfold random_uniform. apply Z.eqb_neq in N. rewrite N.
  cbn [random_uniform_draws]. now rewrite B.
Qed.

(** X19.  No modulo bias.  A draw is the number that the eight bytes of
    one call of [random_buf] make.  For each result [r] below [upper],
    the draws on which [random_uniform] returns [r] are
    [first r + q * upper] for the 2^64 / upper numbers [q] from 0 on,
    where [first r] is the least number from [random_lower upper] on
    that reduces to [r]: on such a draw [random_uniform] returns [r] at
    once; a draw that is none of these, for any [r], is discarded, and
    the function goes on as it would have started after it; different
    pairs of [r] and [q] are different draws; and each pair is a
    [uintmax_t].  So every result below [upper] has the same number of
    draws, 2^64 / upper. *)
Theorem random_uniform_has_no_modulo_bias
    (n : nat) (upper : Z) (s s' : random_state E) (bytes : list Byte.byte) :
  0 < upper <= UINTMAX_MAX ->
  random_buf 8 s = Returns bytes s' ->
  let draw := uintmax_of_bytes (firstn 8 bytes) in
  let first r := random_lower upper + (r - random_lower upper) mod upper in
  let runs := 2 ^ 64 / upper in
  (forall r q,
      0 <= r < upper ->
      0 <= q < runs ->
      draw = first r + q * upper ->
      random_uniform (S n) upper s = Returns r s')
  /\ ((forall r q,
          0 <= r < upper -> 0 <= q < runs -> draw <> first r + q * upper) ->
      random_uniform (S n) upper s = random_uniform n upper s')
  /\ (forall r q r' q',
         0 <= r < upper ->
         0 <= r' < upper ->
         0 <= q < runs ->
         0 <= q' < runs ->
         first r + q * upper = first r' + q' * upper ->
         r = r' /\ q = q')
  /\ (forall r q,
         0 <= r < upper ->
         0 <= q < runs ->
         0 <= first r + q * upper <= UINTMAX_MAX).
Proof.
  intros H B draw first runs.
  assert (Step := random_uniform_step n upper s s' bytes ltac:(lia) B).
  fold draw in Step.
  assert (R := uintmax_of_eight_bytes bytes). fold draw in R.
  split; [|split; [|split]].
  - intros r q Hr Hq D.
    destruct (accepted_draws_of_a_result upper r H Hr) as [A _].
    destruct (proj2 (A draw)) as [[Lo _] M]; [now exists q|].
    rewrite Step. apply Z.leb_le in Lo. now rewrite Lo, M.
  - intros None. rewrite Step.
    destruct (Z.leb_spec (random_lower upper) draw) as [Lo|Lt];
      [|reflexivity].
    exfalso.
    assert (Hr := Z.mod_pos_bound draw upper ltac:(lia)).
    destruct (accepted_draws_of_a_result upper (draw mod upper) H Hr)
      as [A _].
    destruct (proj1 (A draw)) as (q & Hq & D); [repeat split; lia|].
    exact (None (draw mod upper) q Hr Hq D).
  - intros r q r' q' Hr Hr' Hq Hq' D.
    destruct (accepted_draws_of_a_result upper r H Hr) as [A I].
    destruct (accepted_draws_of_a_result upper r' H Hr') as [A' _].
    destruct (proj2 (A (first r + q * upper))) as [_ M]; [now exists q|].
    destruct (proj2 (A' (first r' + q' * upper))) as [_ M'];
      [now exists q'|].
    assert (r = r') by (rewrite <- M, <- M'; now rewrite D).
    subst r'. split; [reflexivity|]. now apply I.
  - intros r q Hr Hq.
    destruct (accepted_draws_of_a_result upper r H Hr) as [A _].
    destruct (proj2 (A (first r + q * upper))) as [[Lo Hi] _];
      [now exists q|].
    destruct (random_lower_bounds upper H) as (L0 & _). lia.
Qed.

Lemma rejected_stays_silent (lower : Z) (s s' : random_state E) (k : nat) :
  rejected lower s k s' -> r_stderr s' = r_stderr s.
Proof.
  induction 1 as [s|s s1 s2 bytes k B _ _ IH]; [reflexivity|].
  assert (X := random_buf_ends 8 s). rewrite B in X. congruence.
Qed.

Lemma random_uniform_draws_come_to (upper lower : Z) (n : nat) :
  upper <> 0 ->
  forall s : random_state E,
    match random_uniform_draws n upper lower s with
    | Returns value s' =>
        exists k s1 bytes,
          (k < n)%nat
          /\ rejected lower s k s1
          /\ random_buf 8 s1 = Returns bytes s'
          /\ lower <= uintmax_of_bytes (firstn 8 bytes)
          /\ value = uintmax_of_bytes (firstn 8 bytes) mod upper
    | Aborts s' =>
        exists k s1,
          (k < n)%nat
          /\ rejected lower s k s1
          /\ random_buf 8 s1 = Aborts s'
    | Faults => False
    | Spins => exists s1, rejected lower s n s1
    end.
Proof.
  intros N. induction n as [|n IH]; intros s; cbn [random_uniform_draws].
  - exists s. constructor.
  - assert (X := random_buf_ends 8 s).
    destruct (random_buf 8 s) as [bytes s1|s1| |] eqn:B; try contradiction.
    + cbv zeta.
      destruct (Z.leb_spec lower (uintmax_of_bytes (firstn 8 bytes)))
        as [Le|Lt].
      * exists O, s, bytes. repeat split; [lia | constructor | exact B
                                           | exact Le].
      * specialize (IH s1).
        destruct (random_uniform_draws n upper lower s1)
          as [value s2|s2| |].
        -- destruct IH as (k & s3 & bytes' & K & R & B' & L & V).
           exists (S k), s3, bytes'.
           repeat split; [lia | | exact B' | exact L | exact V].
           now apply (rejected_more lower s s1 s3 bytes k).
        -- destruct IH as (k & s3 & K & R & B').
           exists (S k), s3. repeat split; [lia | | exact B'].
           now apply (rejected_more lower s s1 s3 bytes k).
        -- contradiction.
        -- destruct IH as (s3 & R). exists s3.
           now apply (rejected_more lower s s1 s3 bytes n).
    + exists O, s. repeat split; [lia | constructor | exact B].
Qed.

Lemma random_uniform_draws_accept (upper lower : Z) (s s1 : random_state E)
    (k : nat) :
  rejected lower s k s1 ->
  forall (n : nat) (bytes : list Byte.byte) (s' : random_state E),
    (k < n)%nat ->
    random_buf 8 s1 = Returns bytes s' ->
    lower <= uintmax_of_bytes (firstn 8 bytes) ->
    random_uniform_draws n upper lower s
    = Returns (uintmax_of_bytes (firstn 8 bytes) mod upper) s'.
Proof.
  induction 1 as [s|s s1 s2 bytes0 k B0 Lt _ IH]; intros n bytes s' K B Le;
    (destruct n as [|n]; [lia|]); cbn [random_uniform_draws].
  - rewrite B. apply Z.leb_le in Le. now rewrite Le.
  - rewrite B0. apply Z.leb_gt in Lt. rewrite Lt.
    apply IH; [lia | exact B | exact Le].
Qed.

(** X20.  What [random_uniform] returns: the first draw that it does not
    discard, reduced modulo [upper].  For an [upper] that is not zero, a
    number comes back exactly when, after some draws that were all below
    [random_lower upper], a draw is at least [random_lower upper]: the
    number is that draw modulo [upper], it lies between 0 and
    [upper - 1], the state is the one that this call of [random_buf]
    left, and nothing was written to standard error.  The function
    aborts when, after draws that were all discarded, [random_buf]
    aborts, which it does only where random bytes are read from
    /dev/urandom, after one line that says whether the device could not
    be opened or the read came short.  The loop is still running after
    [n] draws only when all of them were discarded.  With an [upper] of
    zero the function divides by zero. *)
Theorem random_uniform_returns_the_first_accepted_draw
    (n : nat) (upper : Z) (s : random_state E) :
  (upper = 0 -> random_uniform n upper s = Faults)
  /\ (0 < upper ->
      match random_uniform n upper s with
      | Returns value s' =>
          exists k s1 bytes,
            (k < n)%nat
            /\ rejected (random_lower upper) s k s1
            /\ random_buf 8 s1 = Returns bytes s'
            /\ random_lower upper <= uintmax_of_bytes (firstn 8 bytes)
            /\ value = uintmax_of_bytes (firstn 8 bytes) mod upper
            /\ 0 <= value < upper
            /\ r_stderr s' = r_stderr s
      | Aborts s' =>
          exists k s1,
            (k < n)%nat
            /\ rejected (random_lower upper) s k s1
            /\ random_buf 8 s1 = Aborts s'
            /\ CONFIG_HAS_ARC4RANDOM_BUF = false
            /\ (r_stderr s'
                = r_stderr s ++ "Failed to open /dev/urandom" ++ newline
                \/ r_stderr s'
                   = r_stderr s ++ "Short read on /dev/urandom" ++ newline)
      | Faults => False
      | Spins => exists s1, rejected (random_lower upper) s n s1
      end)
  /\ (0 < upper ->
      forall k s1 bytes s',
        (k < n)%nat ->
        rejected (random_lower upper) s k s1 ->
        random_buf 8 s1 = Returns bytes s' ->
        random_lower upper <= uintmax_of_bytes (firstn 8 bytes) ->
        random_uniform n upper s
        = Returns (uintmax_of_bytes (firstn 8 bytes) mod upper) s').
Proof.
  split; [|split].
  - intros ->. reflexivity.
  - intros Hupper. unfold random_uniform.
    destruct (Z.eqb_spec upper 0) as [Hz|Hnz]; [lia|].
    assert (C := random_uniform_draws_come_to upper (random_lower upper) n
                   Hnz s).
    destruct (random_uniform_draws n upper (random_lower upper) s)
      as [value s'|s'| |].
    + destruct C as (k & s1 & bytes & K & R & B & L & V).
      exists k, s1, bytes.
      repeat split; try assumption.
      * rewrite V. apply Z.mod_pos_bound. lia.
      * rewrite V. apply Z.mod_pos_bound. lia.
      * assert (X := random_buf_ends 8 s1). rewrite B in X.
        rewrite X. exact (rejected_stays_silent _ _ _ _ R).
    + destruct C as (k & s1 & K & R & B). exists k, s1.
      repeat split; try assumption.
      * assert (X := random_buf_ends 8 s1). rewrite B in X. exact (proj1 X).
      * assert (X := random_buf_ends 8 s1). rewrite B in X.
        destruct X as [_ X]. unfold random_buf_said in X.
        now rewrite (rejected_stays_silent _ _ _ _ R) in X.
    + exact C.
    + exact C.
  - intros Hupper k s1 bytes s' K R B L. unfold random_uniform.
    destruct (Z.eqb_spec upper 0) as [Hz|Hnz]; [lia|].
    now apply (random_uniform_draws_accept upper (random_lower upper) s s1 k).
Qed.

End RandomProperties.

(** ** Runs on the small machine *)

Example launch_without_executable :
  exists w,
    main "cloudabi-run" ["prog"]
         (start boot [mark YAML_STREAM_START_EVENT None 0 0;
                      mark YAML_DOCUMENT_START_EVENT None 0 0;
                      scalar fd_tag "stdout" 0 0;
                      mark YAML_DOCUMENT_END_EVENT None 1 0;
                      mark YAML_STREAM_END_EVENT None 1 0])
    = Exit 127 w
    /\ w_stderr w
       = "Failed to open executable: No such file or directory" ++ newline.
Proof. eexists. split; reflexivity. Qed.

(** C1, the claim as stated fails: a generic mapping whose key is an
    integer node is built into a Map; no error is raised although the key is
    no string node and does not decode as a string.  (And a mapping with
    the string tag is no generic mapping: its tag is refused.) *)
Lemma generic_map_accepts_integer_key :
  parse_object_top (start boot integer_key_map)
  = Ok (Some (AD_MAP [AD_INT 0] [Some (AD_STR "a")])) (start boot [])
  /\ is_str (AD_INT 0) = false
  /\ fst (argdata_get_str_c (AD_INT 0)) <> 0
  /\ parse_object_top (start boot string_tagged_map)
     = Exit 127
         (printed (start boot (tl string_tagged_map))
                  ("stdin:1:1: Unsupported tag for mapping: "
                   ++ "tag:yaml.org,2002:str" ++ newline)).
Proof. repeat split. discriminate. Qed.

Lemma generic_map_keeps_every_key_witness :
  get_event (start boot integer_key_map)
  = Ok {| event_type := YAML_MAPPING_START_EVENT; scalar_tag := None;
          scalar_value := EmptyString; start_mark := at_ 0 0 |}
       (start boot (tl integer_key_map))
  /\ parse_object 4 (start boot integer_key_map)
     = Ok (Some (AD_MAP [AD_INT 0] [Some (AD_STR "a")])) (start boot []).
Proof.
  split; [reflexivity|].
  refine (proj1 (generic_map_keeps_every_key
                   3 _ (start boot integer_key_map)
                   (start boot (tl integer_key_map))
                   eq_refl eq_refl (or_introl eq_refl))
                [AD_INT 0] [Some (AD_STR "a")]
                (start boot [mark YAML_MAPPING_END_EVENT None 0 13])
                (start boot []) _ eq_refl _).
  - eapply parsed_more; [reflexivity | reflexivity | apply parsed_none].
  - simpl. lia.
Defined.

(** The decoder of the small machine meets what the iterator needs. *)
Lemma sample_subfield_advances (buf : list Byte.byte) (len : Z) :
  sf_error (Sample.parse_subfield buf len) = 0 ->
  0 <= sf_buf (Sample.parse_subfield buf len) <= len.
Proof.
  unfold Sample.parse_subfield. destruct buf as [|b rest]; [discriminate|].
  destruct (Z.ltb_spec (len - 1) (Z.of_N (Byte.to_N b))); [discriminate|].
  cbn [sf_buf]. lia.
Qed.

Lemma sample_subfield_failure_stores_nothing (buf : list Byte.byte) (len : Z) :
  sf_error (Sample.parse_subfield buf len) <> 0 ->
  sf_value (Sample.parse_subfield buf len) = None.
Proof.
  unfold Sample.parse_subfield. destruct buf as [|b rest]; [reflexivity|].
  destruct (Z.ltb_spec (len - 1) (Z.of_N (Byte.to_N b))); [reflexivity|].
  cbn [sf_error]. congruence.
Qed.

Lemma iterating_sample (buffer : list Byte.byte) (offset : Z) :
  Z.of_nat (List.length buffer) <= SIZE_MAX ->
  0 <= offset <= Z.of_nat (List.length buffer) ->
  iterating Sample.parse_subfield buffer (iterator buffer offset).
Proof. intros Hmax Hoff. repeat split; try assumption; try apply Hoff. now left. Qed.

(** Three pulls walk through the whole buffer and end without an error;
    on the truncated buffer the second pull fails with one. *)
Example pulls_whole_buffer :
  pulls Sample.parse_subfield 3 (iterator whole_buffer 0)
  = Some {| it_container := AD_BUFFER whole_buffer; it_offset := 5;
            it_error := 0; it_value := AD_BUFFER [Byte.x63] |}.
Proof. reflexivity. Qed.

Example pulls_truncated_buffer :
  pulls Sample.parse_subfield 2 (iterator truncated_buffer 0)
  = Some {| it_container := AD_BUFFER truncated_buffer; it_offset := 3;
            it_error := EINVAL; it_value := AD_BUFFER [Byte.x61; Byte.x62] |}.
Proof. reflexivity. Qed.

Lemma seq_next_tells_exhaustion_from_failure_witness :
  iterating Sample.parse_subfield truncated_buffer
            (iterator truncated_buffer 3)
  /\ exists p,
      argdata_seq_next Sample.parse_subfield (iterator truncated_buffer 3)
      = Some p
      /\ returned p = false /\ it_error (after p) = EINVAL.
Proof.
  assert (H : iterating Sample.parse_subfield truncated_buffer
                        (iterator truncated_buffer 3)).
  { apply iterating_sample; [vm_compute; discriminate | simpl; lia]. }
  split; [exact H|].
  destruct (seq_next_tells_exhaustion_from_failure
              Sample.parse_subfield truncated_buffer
              (iterator truncated_buffer 3) H)
    as (p & Hp & _ & Hfail & _).
  exists p. split; [exact Hp|].
  destruct Hfail as (Hr & He & _);
    [vm_compute; discriminate | vm_compute; discriminate |].
  split; [exact Hr | exact He].
Defined.

Lemma seq_next_offset_stays_in_the_buffer_witness :
  iterating Sample.parse_subfield whole_buffer (iterator whole_buffer 0)
  /\ argdata_seq_next Sample.parse_subfield (iterator whole_buffer 0)
     = Some {| returned := true;
               stored := Some (AD_BUFFER [Byte.x61; Byte.x62]);
               after := {| it_container := AD_BUFFER whole_buffer;
                           it_offset := 3; it_error := 0;
                           it_value := AD_BUFFER [Byte.x61; Byte.x62] |} |}
  /\ 0 <= 3 <= Z.of_nat (List.length whole_buffer)
  /\ iterating Sample.parse_subfield whole_buffer
               {| it_container := AD_BUFFER whole_buffer;
                  it_offset := 3; it_error := 0;
                  it_value := AD_BUFFER [Byte.x61; Byte.x62] |}.
Proof.
  assert (H : iterating Sample.parse_subfield whole_buffer
                        (iterator whole_buffer 0)).
  { apply iterating_sample; [vm_compute; discriminate | simpl; lia]. }
  split; [exact H|]. split; [reflexivity|].
  destruct (seq_next_offset_stays_in_the_buffer
              Sample.parse_subfield
              sample_subfield_advances sample_subfield_failure_stores_nothing
              whole_buffer (iterator whole_buffer 0) _ H eq_refl)
    as (Hoff & Hit & _).
  split; [exact Hoff | exact Hit].
Defined.

Lemma stdout_and_stderr_share_a_descriptor_witness :
  fst (sys_fstat (w_os (start boot [])) STDOUT_FILENO) = 0
  /\ parse_fd (scalar_event fd_tag "stdout" (at_ 0 0)) (start boot [])
     = Ok (AD_FD 1) (called (start boot []) (Call_fstat 1))
  /\ parse_fd (scalar_event fd_tag "stderr" (at_ 1 0)) (start boot [])
     = Ok (AD_FD 1) (called (start boot []) (Call_fstat 1)).
Proof.
  split; [reflexivity|].
  destruct (stdout_and_stderr_share_a_descriptor (P:=platform)
              (scalar_event fd_tag "stdout" (at_ 0 0))
              (scalar_event fd_tag "stderr" (at_ 1 0))
              (start boot []) eq_refl eq_refl eq_refl)
    as (_ & _ & Hout & Herr).
  split; [exact Hout | exact Herr].
Defined.

Lemma parse_socket_requires_one_address_witness :
  parse_socket_type (scalar_event None EmptyString (at_ 0 0)) "stream"
                    (start boot [])
  = Ok SOCK_STREAM (start boot [])
  /\ split_address "twice:80" = Some ("twice", "80")
  /\ parse_socket_open (scalar_event None EmptyString (at_ 0 0)) "stream"
                       (Some "twice:80") (start boot [])
     = Exit 127
         (failed (scalar_event None EmptyString (at_ 0 0))
                 "twice:80 resolves to multiple addresses"
                 (called (start boot [])
                         (Call_getaddrinfo "twice" "80"
                            {| ai_family := AF_UNSPEC;
                               ai_socktype := SOCK_STREAM |})))
  /\ parse_socket_open (scalar_event None EmptyString (at_ 0 0)) "stream"
                       (Some "nowhere:80") (start boot [])
     = Exit 127
         (failed (scalar_event None EmptyString (at_ 0 0))
                 "Failed to resolve nowhere:80: Name or service not known"
                 (called (start boot [])
                         (Call_getaddrinfo "nowhere" "80"
                            {| ai_family := AF_UNSPEC;
                               ai_socktype := SOCK_STREAM |}))).
Proof.
  split; [reflexivity|]. split; [reflexivity|]. split.
  - exact (proj1 (proj2 (parse_socket_requires_one_address (P:=platform)
                           (scalar_event None EmptyString (at_ 0 0))
                           "stream" "twice:80" "twice" "80" SOCK_STREAM
                           (start boot []) eq_refl eq_refl eq_refl))
                 eq_refl (le_n 2)).
  - refine (proj1 (parse_socket_requires_one_address (P:=platform)
                     (scalar_event None EmptyString (at_ 0 0))
                     "stream" "nowhere:80" "nowhere" "80" SOCK_STREAM
                     (start boot []) eq_refl eq_refl eq_refl) _).
    vm_compute. discriminate.
Defined.

Lemma parse_fd_probes_the_descriptor_witness :
  parse_fd_number (scalar_event fd_tag "2" (at_ 0 0)) (start boot [])
  = Ok 2 (start boot [])
  /\ parse_fd (scalar_event fd_tag "2" (at_ 0 0)) (start boot [])
     = Ok (AD_FD 2) (called (start boot []) (Call_fstat 2))
  /\ parse_fd_number (scalar_event fd_tag "9" (at_ 0 0)) (start boot [])
     = Ok 9 (start boot [])
  /\ parse_fd (scalar_event fd_tag "9" (at_ 0 0)) (start boot [])
     = Exit 127
         (failed (scalar_event fd_tag "9" (at_ 0 0))
                 "File descriptor 9: Bad file descriptor"
                 (called (start boot []) (Call_fstat 9))).
Proof.
  split; [reflexivity|]. split.
  - exact (proj1 (parse_fd_probes_the_descriptor (P:=platform)
                    (scalar_event fd_tag "2" (at_ 0 0)) (start boot []) 2
                    eq_refl) eq_refl).
  - split; [reflexivity|].
    refine (proj1 (proj2 (parse_fd_probes_the_descriptor (P:=platform)
                            (scalar_event fd_tag "9" (at_ 0 0))
                            (start boot []) 9 eq_refl) _)).
    vm_compute. discriminate.
Defined.

(** C7, the claim as stated fails: the bytes of [true] followed by a NUL
    and more are neither of the two tokens, and decode to the true node. *)
Lemma parse_bool_accepts_bytes_after_nul :
  true_nul_x <> "true"
  /\ true_nul_x <> "false"
  /\ String.length true_nul_x = 6%nat
  /\ parse_bool (scalar_event (Some YAML_BOOL_TAG) true_nul_x (at_ 0 0))
                (start boot [])
     = Ok (AD_BOOL true) (start boot [])
  /\ parse_object_top
       (start boot [scalar (Some YAML_BOOL_TAG) true_nul_x 0 0])
     = Ok (Some (AD_BOOL true)) (start boot []).
Proof. repeat split; discriminate. Qed.

Lemma parse_bool_reads_c_string_witness :
  cstr true_nul_x = "true"
  /\ parse_bool (scalar_event (Some YAML_BOOL_TAG) true_nul_x (at_ 0 0))
                (start boot [])
     = Ok (AD_BOOL true) (start boot []).
Proof.
  split; [reflexivity|].
  exact (proj2 (proj1 (parse_bool_reads_c_string (OS:=machine)
                         (scalar_event (Some YAML_BOOL_TAG) true_nul_x
                                       (at_ 0 0))
                         (start boot []))) eq_refl).
Defined.

(** C9, the claim as stated fails: a token that starts with a space is
    taken for the number after it, and the descriptor is probed. *)
Lemma parse_fd_accepts_leading_space :
  parse_fd (scalar_event fd_tag " 2" (at_ 0 0)) (start boot [])
  = Ok (AD_FD 2) (called (start boot []) (Call_fstat 2))
  /\ all_chars is_decimal_digit " 2" = false
  /\ parse_object_top (start boot [scalar fd_tag " 2" 0 0])
     = Ok (Some (AD_FD 2)) (called (start boot []) (Call_fstat 2)).
Proof. repeat split. Qed.

(** A minus sign negates in [unsigned long]: this token names descriptor 1.
    And glibc reports no error for an empty token, which names
    descriptor 0. *)
Example parse_fd_wraps_a_negative_number :
  parse_fd (scalar_event fd_tag "-18446744073709551615" (at_ 0 0))
           (start boot [])
  = Ok (AD_FD 1) (called (start boot []) (Call_fstat 1)).
Proof. reflexivity. Qed.

Example parse_fd_takes_the_empty_token :
  parse_fd (scalar_event fd_tag EmptyString (at_ 0 0)) (start boot [])
  = Ok (AD_FD 0) (called (start boot []) (Call_fstat 0)).
Proof. reflexivity. Qed.

Lemma parse_fd_number_takes_numerals_witness :
  cstr "+2" <> "stdout"
  /\ cstr "+2" <> "stderr"
  /\ fd_numeral "+2" 2
  /\ parse_fd_number (scalar_event fd_tag "+2" (at_ 0 0)) (start boot [])
     = Ok 2 (start boot []).
Proof.
  assert (N1 : cstr "+2" <> "stdout") by (vm_compute; discriminate).
  assert (N2 : cstr "+2" <> "stderr") by (vm_compute; discriminate).
  assert (F : fd_numeral "+2" 2).
  { exists EmptyString, PlusSign, "2".
    repeat split; try reflexivity; try discriminate; vm_compute; discriminate. }
  split; [exact N1|]. split; [exact N2|]. split; [exact F|].
  exact (proj2 (proj1 (parse_fd_number_takes_numerals (P:=platform)
                         (scalar_event fd_tag "+2" (at_ 0 0))
                         (start boot []) N1 N2) 2) (or_introl F)).
Defined.

Lemma sample_resolver_conforms (os : machine) (hostname servname : string)
    (hint : addrinfo_hint) :
  sys_getaddrinfo os hostname servname hint = (0, []) -> False.
Proof.
  cbn. destruct (lookup_host (hosts os) hostname) as [[|a l]|]; discriminate.
Qed.

Lemma manifest_is_a_document : document_events manifest.
Proof.
  apply document_start; [now left|].
  apply document_start; [now right|].
  apply (document_node
           [mark YAML_MAPPING_START_EVENT None 0 0;
            scalar None "out" 0 2; scalar fd_tag "stdout" 0 7;
            mark YAML_MAPPING_END_EVENT None 0 19]
           [mark YAML_DOCUMENT_END_EVENT None 1 0;
            mark YAML_STREAM_END_EVENT None 1 0]).
  apply (node_mapping _ _ [scalar None "out" 0 2; scalar fd_tag "stdout" 0 7]);
    try reflexivity.
  apply (pairs_more [scalar None "out" 0 2] [scalar fd_tag "stdout" 0 7] []).
  - now apply node_scalar.
  - now apply node_scalar.
  - apply pairs_none.
Qed.

Example launch_manifest :
  main "cloudabi-run" ["/etc/motd"] (start boot manifest)
  = Ok Replaced
       {| w_parser := [mark YAML_DOCUMENT_END_EVENT None 1 0;
                       mark YAML_STREAM_END_EVENT None 1 0];
          w_os := {| open_fds := [3; 0; 1; 2]; files := files boot;
                     hosts := hosts boot; next_fd := 4 |};
          w_stderr := EmptyString;
          w_calls := [Call_fstat 1; Call_open "/etc/motd" O_EXEC] |}.
Proof. reflexivity. Qed.

Lemma every_failure_exits_with_127_witness :
  getopt_scan ["-e"; "one"; "two"] = (["e"%char], ["one"; "two"])
  /\ main "cloudabi-run" ["-e"; "one"; "two"] (start boot [])
     = Exit 127
         (printed (start boot [])
                  ("usage: cloudabi-run [-e] executable" ++ newline))
  /\ document_events (w_parser (start boot manifest))
  /\ ((exists h w', main "cloudabi-run" ["prog"] (start boot manifest)
                    = Ok h w')
      \/ (exists w', main "cloudabi-run" ["prog"] (start boot manifest)
                     = Exit 127 w'))
  /\ main "cloudabi-run" ["-e"; "prog"]
          (start boot [mark YAML_STREAM_START_EVENT None 0 0;
                       scalar (Some YAML_BOOL_TAG) "maybe" 1 2])
     = Exit 127
         (failed (scalar_event (Some YAML_BOOL_TAG) "maybe" (at_ 1 2))
                 "Unknown boolean value: maybe" (start boot [])).
Proof.
  split; [reflexivity|]. split.
  - refine (proj1 (proj2 (proj2 (proj2
              (every_failure_exits_with_127 (P:=platform) "cloudabi-run"
                 ["-e"; "one"; "two"] (start boot [])))))
              ["e"%char] ["one"; "two"] eq_refl eq_refl _).
    simpl. lia.
  - split; [exact manifest_is_a_document|]. split.
    + exact (proj1 (proj2 (proj2 (proj2 (proj2 (proj2
               (every_failure_exits_with_127 (P:=platform) "cloudabi-run"
                  ["prog"] (start boot manifest)))))))
               sample_resolver_conforms manifest_is_a_document).
    + destruct (every_failure_exits_with_127 (P:=platform) "cloudabi-run"
                  ["-e"; "prog"]
                  (start boot [mark YAML_STREAM_START_EVENT None 0 0;
                               scalar (Some YAML_BOOL_TAG) "maybe" 1 2]))
        as (_ & _ & _ & _ & _ & _ & U & _).
      exact (proj1 (U ["e"%char] "prog" eq_refl eq_refl) 127 _ eq_refl).
Defined.

Lemma parse_int_follows_the_design_witness :
  all_chars is_decimal_digit "18446744073709551615" = true
  /\ parse_int (scalar_event (Some YAML_INT_TAG) "18446744073709551615"
                             (at_ 0 0))
               (start boot [])
     = Ok (AD_INT 18446744073709551615) (start boot [])
  /\ parse_int (scalar_event (Some YAML_INT_TAG) "18446744073709551616"
                             (at_ 0 0))
               (start boot [])
     = Exit 127
         (failed (scalar_event (Some YAML_INT_TAG) "18446744073709551616"
                               (at_ 0 0))
                 "Invalid integer value" (start boot [])).
Proof.
  split; [reflexivity|]. split.
  - refine (proj2 (proj2 (parse_int_follows_the_design (P:=platform)
                            (scalar_event None EmptyString (at_ 0 0))
                            (start boot [])))
                  (Some YAML_INT_TAG) (at_ 0 0)
                  "18446744073709551615" _ eq_refl).
    discriminate.
  - refine (proj2 (proj2 (parse_int_follows_the_design (P:=platform)
                            (scalar_event None EmptyString (at_ 0 0))
                            (start boot [])))
                  (Some YAML_INT_TAG) (at_ 0 0)
                  "18446744073709551616" _ eq_refl).
    discriminate.
Defined.

(** ** More runs on the small machine *)

Example split_bracketed_address :
  split_address "[::1]:80" = Some ("[::1", "80").
Proof. reflexivity. Qed.

Example split_plain_address :
  split_address "localhost:http" = Some ("localhost", "http").
Proof. reflexivity. Qed.

Example diagnostic_of_two_lines :
  parse_object_top
    (start boot [scalar (Some YAML_BOOL_TAG) ("yes" ++ newline ++ "no") 0 0])
  = Exit 127
      {| w_parser := []; w_os := boot;
         w_stderr := "stdin:1:1: Unknown boolean value: yes" ++ newline
                     ++ "no" ++ newline;
         w_calls := [] |}.
Proof. reflexivity. Qed.

Example draw_below_six :
  random_uniform 2 6 two_reads
  = Returns 4 {| r_sources := []; r_open_once := true; r_urandom := 3;
                 r_stderr := EmptyString |}.
Proof. reflexivity. Qed.

Example short_read_aborts :
  random_uniform 1 2 {| r_sources := []; r_open_once := true;
                        r_urandom := 3; r_stderr := EmptyString |}
  = Aborts {| r_sources := []; r_open_once := true; r_urandom := 3;
              r_stderr := "Short read on /dev/urandom" ++ newline |}.
Proof. reflexivity. Qed.

Lemma sample_get_str_c (s : string) :
  has_nul s = false -> argdata_get_str_c (AD_STR s) = (0, s).
Proof. intros H. cbn. now rewrite H. Qed.

Lemma integer_key_map_is_a_node : node_events integer_key_map.
Proof.
  apply (node_mapping _ _ [scalar (Some YAML_INT_TAG) "0" 0 2;
                           scalar None "a" 0 11]); try reflexivity.
  apply (pairs_more [scalar (Some YAML_INT_TAG) "0" 0 2]
                    [scalar None "a" 0 11] []).
  - now apply node_scalar.
  - now apply node_scalar.
  - apply pairs_none.
Qed.

Lemma integer_key_map_denotes :
  denotes integer_key_map (AD_MAP [AD_INT 0] [Some (AD_STR "a")]).
Proof.
  apply (denotes_map _ _ [scalar (Some YAML_INT_TAG) "0" 0 2;
                          scalar None "a" 0 11]);
    [reflexivity | now left | reflexivity |].
  apply (pairs_denote_more [scalar (Some YAML_INT_TAG) "0" 0 2]
                           [scalar None "a" 0 11] []
                           (AD_INT 0) (AD_STR "a") [] []).
  - apply (denotes_int (scalar_event (Some YAML_INT_TAG) "0" (at_ 0 2)));
      [ reflexivity
      | exists YAML_INT_TAG; split; reflexivity
      | discriminate
      | reflexivity
      | cbn; unfold UINTMAX_MAX; lia ].
  - apply (denotes_str (scalar_event None "a" (at_ 0 11)));
      [reflexivity | now left].
  - apply pairs_denote_none.
Qed.

Lemma plain_data_reaches_no_system_call_witness :
  plain_data integer_key_map = true
  /\ match parse_object_top (start boot integer_key_map) with
     | Ok _ w' => w_os w' = boot /\ w_calls w' = []
     | Exit status w' => status = 127 /\ w_os w' = boot /\ w_calls w' = []
     | Undefined => False
     | OutOfFuel => False
     end.
Proof.
  split; [reflexivity|].
  exact (plain_data_reaches_no_system_call (P:=platform)
           (start boot integer_key_map) eq_refl).
Defined.

Lemma successful_launch_opens_the_executable_last_witness :
  main "cloudabi-run" ["/etc/motd"; "-e"] (start boot manifest)
  = Ok Emulating emulated
  /\ exists executable,
      snd (getopt_scan ["/etc/motd"; "-e"]) = [executable]
      /\ Forall (eq "e"%char) (fst (getopt_scan ["/etc/motd"; "-e"]))
      /\ (Emulating = Emulating
          <-> fst (getopt_scan ["/etc/motd"; "-e"]) <> [])
      /\ (Emulating = Replaced
          <-> fst (getopt_scan ["/etc/motd"; "-e"]) = [])
      /\ w_stderr emulated
         = w_stderr (start boot manifest) ++ emulation_warning
      /\ exists calls,
          w_calls emulated = (calls ++ [Call_open executable O_RDONLY])%list.
Proof.
  assert (L : main "cloudabi-run" ["/etc/motd"; "-e"] (start boot manifest)
              = Ok Emulating emulated) by reflexivity.
  split; [exact L|].
  exact (successful_launch_opens_the_executable_last (P:=platform)
           "cloudabi-run" ["/etc/motd"; "-e"] (start boot manifest) emulated
           Emulating L).
Defined.

Lemma parse_object_reads_exactly_one_node_witness :
  node_events integer_key_map
  /\ ((exists ad w',
          parse_object_top (start boot (integer_key_map ++ file_node)%list)
          = Ok (Some ad) w'
          /\ w_parser w' = file_node)
      \/ (exists w',
             parse_object_top (start boot (integer_key_map ++ file_node)%list)
             = Exit 127 w')).
Proof.
  split; [exact integer_key_map_is_a_node|].
  exact (proj1 (parse_object_reads_exactly_one_node (P:=platform)
                  integer_key_map file_node
                  (start boot (integer_key_map ++ file_node)%list)
                  sample_resolver_conforms eq_refl)
               integer_key_map_is_a_node).
Defined.

Lemma parse_object_builds_what_the_data_denotes_witness :
  denotes integer_key_map (AD_MAP [AD_INT 0] [Some (AD_STR "a")])
  /\ parse_object_top (start boot (integer_key_map ++ file_node)%list)
     = Ok (Some (AD_MAP [AD_INT 0] [Some (AD_STR "a")]))
          (start boot file_node).
Proof.
  split; [exact integer_key_map_denotes|].
  exact (parse_object_builds_what_the_data_denotes (P:=platform)
           integer_key_map file_node _
           (start boot (integer_key_map ++ file_node)%list)
           integer_key_map_denotes eq_refl).
Defined.

Lemma file_node_opens_the_last_path_witness :
  has_nul "/etc/motd" = false
  /\ parse_object_top (start boot file_node)
     = Ok (Some (AD_FD 3))
          {| w_parser := [mark YAML_DOCUMENT_END_EVENT None 1 0];
             w_os := {| open_fds := [3; 0; 1; 2]; files := files boot;
                        hosts := hosts boot; next_fd := 4 |};
             w_stderr := EmptyString;
             w_calls := [Call_open "/etc/motd" O_RDONLY] |}.
Proof.
  split; [reflexivity|].
  refine (file_node_opens_the_last_path (P:=platform) sample_get_str_c
            {| event_type := YAML_MAPPING_START_EVENT;
               scalar_tag := Some (TAG_PREFIX ++ "file");
               scalar_value := EmptyString; start_mark := at_ 0 0 |}
            {| event_type := YAML_MAPPING_END_EVENT; scalar_tag := None;
               scalar_value := EmptyString; start_mark := at_ 0 24 |}
            [scalar None "path" 0 8; scalar None "/etc/motd" 0 14]
            [mark YAML_DOCUMENT_END_EVENT None 1 0]
            ["/etc/motd"] (start boot file_node)
            eq_refl _ eq_refl _ _ eq_refl).
  - exists (TAG_PREFIX ++ "file"). split; reflexivity.
  - apply (pairs_denote_more [scalar None "path" 0 8]
                             [scalar None "/etc/motd" 0 14] []
                             (AD_STR "path") (AD_STR "/etc/motd") [] []).
    + apply (denotes_str (scalar_event None "path" (at_ 0 8)));
        [reflexivity | now left].
    + apply (denotes_str (scalar_event None "/etc/motd" (at_ 0 14)));
        [reflexivity | now left].
    + apply pairs_denote_none.
  - constructor; [reflexivity | constructor].
Defined.

Lemma socket_node_binds_a_path_witness :
  has_nul "/tmp/sock" = false
  /\ parse_object_top (start boot socket_node)
     = Ok (Some (AD_FD 3))
          {| w_parser := [];
             w_os := {| open_fds := [3; 0; 1; 2]; files := files boot;
                        hosts := hosts boot; next_fd := 4 |};
             w_stderr := EmptyString;
             w_calls :=
               [Call_socket AF_UNIX SOCK_STREAM 0; Call_setsockopt 3;
                Call_bind 3 {| sa_family := AF_UNIX;
                               sa_data := "/tmp/sock" |} 110;
                Call_listen 3 0] |}.
Proof.
  split; [reflexivity|].
  refine (socket_node_binds_a_path (P:=platform) sample_get_str_c
            {| event_type := YAML_MAPPING_START_EVENT;
               scalar_tag := Some (TAG_PREFIX ++ "socket");
               scalar_value := EmptyString; start_mark := at_ 0 0 |}
            {| event_type := YAML_MAPPING_END_EVENT; scalar_tag := None;
               scalar_value := EmptyString; start_mark := at_ 0 26 |}
            (scalar_event None "bind" (at_ 0 10))
            (scalar_event None "/tmp/sock" (at_ 0 16))
            [] (start boot socket_node)
            eq_refl _ eq_refl eq_refl _ eq_refl eq_refl _ eq_refl eq_refl
            eq_refl).
  - exists (TAG_PREFIX ++ "socket"). split; reflexivity.
  - now left.
  - now left.
Defined.

Lemma seq_iterator_hands_out_every_entry_witness :
  drain Sample.parse_subfield 3 (seq_iterator 0)
  = Some ([Some AD_NULL; Some (AD_BOOL true)], seq_iterator 2).
Proof.
  refine (seq_iterator_hands_out_every_entry Sample.parse_subfield
            [AD_NULL; AD_BOOL true] (seq_iterator 0) 3 eq_refl eq_refl _ _).
  - cbn. unfold SIZE_MAX. lia.
  - cbn. lia.
Defined.

Lemma seq_next_false_is_final_witness :
  argdata_seq_next Sample.parse_subfield (iterator truncated_buffer 3)
  = Some {| returned := false; stored := None;
            after := {| it_container := AD_BUFFER truncated_buffer;
                        it_offset := 3; it_error := EINVAL;
                        it_value := AD_NULL |} |}
  /\ argdata_seq_next Sample.parse_subfield
       {| it_container := AD_BUFFER truncated_buffer; it_offset := 3;
          it_error := EINVAL; it_value := AD_NULL |}
     = Some {| returned := false; stored := None;
               after := {| it_container := AD_BUFFER truncated_buffer;
                           it_offset := 3; it_error := EINVAL;
                           it_value := AD_NULL |} |}.
Proof.
  split; [reflexivity|].
  exact (seq_next_false_is_final Sample.parse_subfield
           (iterator truncated_buffer 3) _ eq_refl eq_refl).
Defined.

Lemma sample_subfield_consumes (buf : list Byte.byte) (len : Z) :
  sf_error (Sample.parse_subfield buf len) = 0 ->
  1 <= sf_buf (Sample.parse_subfield buf len) <= len.
Proof.
  unfold Sample.parse_subfield. destruct buf as [|b rest]; [discriminate|].
  destruct (Z.ltb_spec (len - 1) (Z.of_N (Byte.to_N b)));
    [discriminate|].
  cbn [sf_buf]. lia.
Qed.

Lemma buffer_iteration_comes_to_an_end_witness :
  exists nodes it',
    drain Sample.parse_subfield 6 (iterator truncated_buffer 0)
    = Some (nodes, it')
    /\ (List.length nodes <= 5)%nat
    /\ 0 <= it_offset it' <= 5
    /\ (it_error it' = 0 <-> it_offset it' = 5).
Proof.
  refine (buffer_iteration_comes_to_an_end Sample.parse_subfield
            truncated_buffer (iterator truncated_buffer 0)
            sample_subfield_consumes eq_refl _ eq_refl eq_refl).
  cbn. unfold SIZE_MAX. lia.
Defined.

Lemma random_lower_is_the_remainder_of_the_range_witness :
  random_lower 6 = 2 ^ 64 mod 6
  /\ 0 <= random_lower 6 < 6
  /\ random_lower 6 < 2 ^ 63
  /\ 2 ^ 64 - random_lower 6 = 6 * (2 ^ 64 / 6).
Proof.
  apply (random_lower_is_the_remainder_of_the_range 6).
  unfold UINTMAX_MAX. lia.
Defined.

Lemma random_uniform_has_no_modulo_bias_witness :
  random_buf 8 one_read = Returns ten drained
  /\ uintmax_of_bytes (firstn 8 ten)
     = random_lower 6 + (4 - random_lower 6) mod 6 + 1 * 6
  /\ random_uniform 1 6 one_read = Returns 4 drained.
Proof.
  split; [reflexivity|]. split; [reflexivity|].
  refine (proj1 (random_uniform_has_no_modulo_bias (Src:=stored_reads)
                   0 6 one_read drained ten _ eq_refl)
                4 1 _ _ eq_refl).
  - unfold UINTMAX_MAX. lia.
  - lia.
  - split; [lia | reflexivity].
Defined.

Lemma random_uniform_returns_the_first_accepted_draw_witness :
  rejected (random_lower 6) two_reads 1 one_read
  /\ random_buf 8 one_read = Returns ten drained
  /\ random_lower 6 <= uintmax_of_bytes (firstn 8 ten)
  /\ random_uniform 2 6 two_reads = Returns 4 drained.
Proof.
  assert (R : rejected (random_lower 6) two_reads 1 one_read).
  { apply (rejected_more (random_lower 6) two_reads one_read one_read three 0).
    - reflexivity.
    - reflexivity.
    - apply rejected_none. }
  assert (L : random_lower 6 <= uintmax_of_bytes (firstn 8 ten))
    by (vm_compute; discriminate).
  split; [exact R|]. split; [reflexivity|]. split; [exact L|].
  refine (proj2 (proj2
            (random_uniform_returns_the_first_accepted_draw
               (Src:=stored_reads) 2 6 two_reads))
            _ 1%nat one_read ten drained _ R eq_refl L).
  - lia.
  - lia.
Defined.

Lemma input_without_a_node_is_refused_witness :
  parse_object_top
    (start boot [mark YAML_STREAM_START_EVENT None 0 0;
                 mark YAML_STREAM_END_EVENT None 0 0])
  = Exit 127
      {| w_parser := []; w_os := boot;
         w_stderr := "stdin:1:1: Unsupported event 0" ++ newline;
         w_calls := [] |}.
Proof.
  exact (proj1 (input_without_a_node_is_refused (P:=platform)
                  [mark YAML_STREAM_START_EVENT None 0 0]
                  [mark YAML_STREAM_END_EVENT None 0 0]
                  [] empty_event
                  (start boot [mark YAML_STREAM_START_EVENT None 0 0;
                               mark YAML_STREAM_END_EVENT None 0 0])
                  eq_refl eq_refl)
               eq_refl).
Defined.

Lemma parse_socket_create_calls_in_order_witness :
  sys_socket (start boot []).(w_os) AF_UNIX SOCK_STREAM 0
  = (3, 0, w_os launched)
  /\ parse_socket_create
       (scalar_event None EmptyString (at_ 0 0)) SOCK_STREAM "/tmp/sock"
       {| sa_family := AF_UNIX; sa_data := "/tmp/sock" |} 110 (start boot [])
     = Ok (AD_FD 3)
          {| w_parser := [];
             w_os := w_os launched;
             w_stderr := EmptyString;
             w_calls :=
               [Call_socket AF_UNIX SOCK_STREAM 0; Call_setsockopt 3;
                Call_bind 3 {| sa_family := AF_UNIX; sa_data := "/tmp/sock" |}
                          110;
                Call_listen 3 0] |}.
Proof.
  split; [reflexivity|].
  refine (proj2 (proj2 (proj2
            (parse_socket_create_calls_in_order (P:=platform)
               (scalar_event None EmptyString (at_ 0 0)) SOCK_STREAM
               "/tmp/sock" {| sa_family := AF_UNIX; sa_data := "/tmp/sock" |}
               110 (start boot [])
               3 0 (w_os launched) 0 0 (w_os launched) 0 0 (w_os launched)
               eq_refl eq_refl eq_refl))) _ _ _).
  - lia.
  - lia.
  - left. lia.
Defined.

Lemma failed_launch_names_the_step_witness :
  getopt_scan ["prog"] = ([], ["prog"])
  /\ parse_object_top (start boot manifest)
     = Ok (Some (AD_MAP [AD_STR "out"] [Some (AD_FD 1)]))
          (called (start boot (w_parser launched)) (Call_fstat 1))
  /\ sys_open boot "prog" O_EXEC = (-1, 2, boot)
  /\ main "cloudabi-run" ["prog"] (start boot manifest)
     = Exit 127
         {| w_parser := w_parser launched;
            w_os := boot;
            w_stderr :=
              "Failed to open executable: No such file or directory"
              ++ newline;
            w_calls := [Call_fstat 1; Call_open "prog" O_EXEC] |}.
Proof.
  split; [reflexivity|]. split; [reflexivity|]. split; [reflexivity|].
  refine (proj1 (proj1
            (failed_launch_names_the_step (P:=platform) "cloudabi-run"
               ["prog"] [] "prog" (AD_MAP [AD_STR "out"] [Some (AD_FD 1)])
               (start boot manifest)
               (called (start boot (w_parser launched)) (Call_fstat 1))
               eq_refl eq_refl eq_refl)
            eq_refl (-1) 2 boot eq_refl) _).
  reflexivity.
Defined.
